(** * Mini-Lang compiler front end: lexer, symbol table, recursive-descent parser

    A shallow embedding of [src/modules/lexer.py], [symbols.py], [istream.py],
    [src/modules/ast.py], [src/modules/parser.py] (the AST parser) and
    [parser.py] at the top of the repository (the translating parser), with
    the properties of the specification stated and proved (or refuted) over
    it.

    Conventions of the embedding.
    - A Python [str] of length at most one (the lexer's [_peek], the results
      of [get_char] and [peek]) is an [option ascii]; [None] is the empty
      string, the end-of-input marker.  The model covers 7-bit ASCII source
      text: [isspace], [isdigit] and [isalpha] are Python's on code points
      below 128, and say nothing of the letters, digits and spaces beyond.
      A statement that holds on such text only says so ([ascii_text]).
    - Python integers are [Z].  [int()] converts a string of at most 4300
      digits and raises on a longer one; a statement that runs [int()] bounds
      the digits.
    - The text of a stream is what [file.read()] returned.  The files are
      opened in text mode, which turns every CR LF and every lone CR into a
      line feed, so a text that comes from a file holds no carriage return.
    - Python bounds the depth of calls; the model does not, and states
      nothing that depends on blocks nested some hundred deep.
    - Every loop that Python runs without a bound ([while True], the comment
      loops) takes a fuel argument and answers [None] (the lexer) or
      [Timeout] (the parser) when it runs out.
    - Object identity matters for tokens (the identifier table interns them),
      so every token carries the identity [oid] it received when it was
      constructed; the lexer hands identities out from a counter.
    - Trace output through the injected logger is not modelled; the state the
      tracing code keeps and that steers scanning ([_logged_token],
      [_cached_line]) is. *)

From Stdlib Require Import ZArith Ascii String.
From stdpp Require Import base option strings gmap list pretty.

#[local] Set Warnings "-register-all".

Local Open Scope string_scope.
Local Open Scope Z_scope.
Local Open Scope list_scope.

(** ** Characters *)

Definition ord (c : ascii) : Z := Z.of_N (N_of_ascii c).

Definition in_range (lo hi : Z) (c : ascii) : bool :=
  (lo <=? ord c) && (ord c <=? hi).

(** [str.isspace], [str.isdigit], [str.isalpha] on one ASCII character. *)
Definition isspace (c : ascii) : bool := in_range 9 13 c || in_range 28 32 c.
Definition isdigit (c : ascii) : bool := in_range 48 57 c.
Definition isalpha (c : ascii) : bool := in_range 65 90 c || in_range 97 122 c.

(** A method of [str] applied to a string of length at most one: false on
    the empty string. *)
Definition holds (f : ascii → bool) (s : option ascii) : bool :=
  match s with Some c => f c | None => false end.

(** [s == c] for a string [s] of length at most one and a character [c]. *)
Definition is_char (s : option ascii) (c : ascii) : bool :=
  match s with Some d => Ascii.eqb d c | None => false end.

Definition TAB : ascii := "009"%char.
Definition LF : ascii := "010"%char.
Definition CR : ascii := "013"%char.

(** [int(num_str)] on a string of ASCII decimal digits, of which there are
    at most 4300. *)
Fixpoint int_from (acc : Z) (s : string) : Z :=
  match s with
  | EmptyString => acc
  | String c r => int_from (10 * acc + (ord c - 48)) r
  end.
Definition int (s : string) : Z := int_from 0 s.

(** [s += c] *)
Definition snoc (s : string) (c : ascii) : string := s +:+ String c EmptyString.

(** ** Tags and tokens (lexer.py) *)

Record Tag := mkTag { Tag_value : Z; Tag_name : string }.

(** [Tag(value)] for a one-character string [value]. *)
Definition Tag_of_char (c : ascii) : Tag := mkTag (ord c) (String c EmptyString).

(** [Tag.__eq__]: against a [Tag] the values are compared, against a [str]
    the name. *)
Definition Tag_eq (a b : Tag) : bool := Tag_value a =? Tag_value b.
Definition Tag_eq_str (a : Tag) (s : string) : bool := String.eqb (Tag_name a) s.

Module Tags.
Definition NUM : Tag := mkTag 256 "NUM".
Definition ID : Tag := mkTag 257 "ID".
Definition TYPE : Tag := mkTag 258 "TYPE".
Definition TRUE : Tag := mkTag 259 "TRUE".
Definition FALSE : Tag := mkTag 260 "FALSE".
End Tags.

(** The token classes of lexer.py.  [Id], [Type_] and [Num] fix their tag in
    their constructor; a plain [Token_] carries any tag. *)
Inductive Token :=
| Token_ (oid : nat) (tag : Tag)
| Id (oid : nat) (name : string)
| Type_ (oid : nat) (name : string)
| Num (oid : nat) (value : Z).

Definition Token_oid (t : Token) : nat :=
  match t with
  | Token_ o _ | Id o _ | Type_ o _ | Num o _ => o
  end.

(** [token.tag] *)
Definition Token_tag (t : Token) : Tag :=
  match t with
  | Token_ _ tag => tag
  | Id _ _ => Tags.ID
  | Type_ _ _ => Tags.TYPE
  | Num _ _ => Tags.NUM
  end.

(** [Token.__eq__] and [Token.__ne__] against a [str] *)
Definition Token_eq_str (t : Token) (s : string) : bool :=
  Tag_eq_str (Token_tag t) s.
Definition Token_ne_str (t : Token) (s : string) : bool :=
  negb (String.eqb (Tag_name (Token_tag t)) s).

(** [str(token)] *)
Definition Token_str (t : Token) : string :=
  match t with
  | Id _ name | Type_ _ name => name
  | _ => Tag_name (Token_tag t)
  end.

(** [Token(tag)] for a string [tag] of length at most one. *)
Definition Token_of_str (o : nat) (s : option ascii) : Token :=
  match s with
  | None => Token_ o (mkTag 0 "")
  | Some c => Token_ o (Tag_of_char c)
  end.

(** ** Character source (istream.py)

    [pending] is [_source_code[_position:]], the text not yet consumed. *)

Record InputStream := mkInputStream {
  pending : list ascii;
  _eof_reached : bool
}.

Definition get_char (s : InputStream) : option ascii * InputStream :=
  match pending s with
  | c :: rest => (Some c, mkInputStream rest (_eof_reached s))
  | [] => (None, mkInputStream [] true)
  end.

(** [peek()] with the default offset 0, the only one the lexer uses. *)
Definition peek (s : InputStream) : option ascii := head (pending s).

(** ** Lexer state *)

Module LoggedToken.
Definition NONE : Z := 0.
Definition EXPRESSION : Z := 1.
Definition BLOCK : Z := 2.
End LoggedToken.

Record Lexer := mkLexer {
  _line : Z;
  _cached_line : Z;
  _peek : option ascii;
  _istream : InputStream;
  _id_table : gmap string Token;
  _logged_token : Z;
  next_oid : nat
}.

Definition set_peek (c : option ascii) (lx : Lexer) : Lexer :=
  mkLexer (_line lx) (_cached_line lx) c (_istream lx) (_id_table lx)
    (_logged_token lx) (next_oid lx).

Definition set_logged (v : Z) (lx : Lexer) : Lexer :=
  mkLexer (_line lx) (_cached_line lx) (_peek lx) (_istream lx) (_id_table lx)
    v (next_oid lx).

Definition set_cached_line (v : Z) (lx : Lexer) : Lexer :=
  mkLexer (_line lx) v (_peek lx) (_istream lx) (_id_table lx)
    (_logged_token lx) (next_oid lx).

Definition set_id_table (t : gmap string Token) (lx : Lexer) : Lexer :=
  mkLexer (_line lx) (_cached_line lx) (_peek lx) (_istream lx) t
    (_logged_token lx) (next_oid lx).

(** Constructing an object draws the next identity. *)
Definition fresh (lx : Lexer) : nat * Lexer :=
  (next_oid lx,
   mkLexer (_line lx) (_cached_line lx) (_peek lx) (_istream lx) (_id_table lx)
     (_logged_token lx) (S (next_oid lx))).

(** [_init_id_table]: the reserved words, built in the order of the dict
    display, with identities [o], [o+1], ... *)
Definition seeded_table (o : nat) : gmap string Token :=
  <["true" := Token_ o Tags.TRUE]> (
  <["false" := Token_ (o + 1) Tags.FALSE]> (
  <["int" := Type_ (o + 2) "int"]> (
  <["float" := Type_ (o + 3) "float"]> (
  <["double" := Type_ (o + 4) "double"]> (
  <["bool" := Type_ (o + 5) "bool"]> (
  <["char" := Type_ (o + 6) "char"]> (
  <["str" := Type_ (o + 7) "str"]> (
  <["i8" := Type_ (o + 8) "i8"]> (
  <["i16" := Type_ (o + 9) "i16"]> (
  <["u16" := Type_ (o + 10) "u16"]> (
  <["u32" := Type_ (o + 11) "u32"]> (
  <["i64" := Type_ (o + 12) "i64"]> (
  <["u64" := Type_ (o + 13) "u64"]> (
  <["void" := Type_ (o + 14) "void"]> ∅))))))))))))))%nat.

(** The stream when its constructor returns; [src] is the text that
    [file.read()] returned, in which no carriage return is left. *)
Definition InputStream_init (src : string) : InputStream :=
  mkInputStream (list_ascii_of_string src) false.

Definition Lexer_init (istream : InputStream) : Lexer :=
  mkLexer 1 1 (Some " "%char) istream (seeded_table 0) LoggedToken.NONE 15.

(** ** [_get_next_char]

    The loop runs while the stream has not reported its end.  [get_char] at
    the end returns the empty string, which passes the test [char in "\t"]
    (the empty string is in every string): the loop continues, finds
    [eof_reached] set and leaves.  Tabs are skipped; a line feed, or a
    carriage return before a line feed (which is not consumed), counts a line
    and is returned as a line feed. *)
Fixpoint next_char_from (src : list ascii) (line : Z)
  : option ascii * InputStream * Z :=
  match src with
  | [] => (None, snd (get_char (mkInputStream [] false)), line)
  | c :: rest =>
      if Ascii.eqb c TAB then next_char_from rest line
      else if Ascii.eqb c LF
              || (Ascii.eqb c CR && is_char (peek (mkInputStream rest false)) LF)
      then (Some LF, mkInputStream rest false, line + 1)
      else (Some c, mkInputStream rest false, line)
  end.

Definition _get_next_char (lx : Lexer) : option ascii * Lexer :=
  if _eof_reached (_istream lx) then (None, lx)
  else
    let '(c, s, line) := next_char_from (pending (_istream lx)) (_line lx) in
    (c, mkLexer line (_cached_line lx) (_peek lx) s (_id_table lx)
          (_logged_token lx) (next_oid lx)).

(** [self._peek = self._get_next_char()] *)
Definition advance (lx : Lexer) : Lexer :=
  let '(c, lx') := _get_next_char lx in set_peek c lx'.

(** ** [_log_line_interrupt] *)
Definition _log_line_interrupt (lx : Lexer) : option Token * Lexer :=
  if negb (Z.land (_logged_token lx) LoggedToken.EXPRESSION =? 0) then
    let lx1 := advance lx in
    let '(o, lx2) := fresh lx1 in
    (Some (Token_of_str o (Some ";"%char)), set_logged LoggedToken.NONE lx2)
  else if negb (Z.land (_logged_token lx) LoggedToken.BLOCK =? 0) then
    (None, set_logged LoggedToken.NONE (set_cached_line (_line lx + 1) lx))
  else
    (None, set_logged LoggedToken.NONE (set_cached_line (_line lx + 1) lx)).

(** ** [_nesting_comment]

    [symbols] is the four-character string ["#<>#"] or ["/**/"]. *)
Record Symbols := mkSymbols { sym0 : ascii; sym1 : ascii; sym2 : ascii; sym3 : ascii }.

Definition hash_comment : Symbols := mkSymbols "#" "<" ">" "#".
Definition slash_comment : Symbols := mkSymbols "/" "*" "*" "/".

(** The test of the inner [while]: the closing delimiter is not at hand. *)
Definition not_at_close (sy : Symbols) (lx : Lexer) : bool :=
  negb (is_char (_peek lx) (sym2 sy)) || negb (is_char (peek (_istream lx)) (sym3 sy)).

Definition at_open (sy : Symbols) (lx : Lexer) : bool :=
  is_char (_peek lx) (sym0 sy) && is_char (peek (_istream lx)) (sym1 sy).

(** The inner [while]: runs to the next closing delimiter, counting the
    opening delimiters it passes. *)
Fixpoint comment_inner (n : nat) (sy : Symbols) (lx : Lexer) (nesting : Z)
    (had_nl : bool) : option (Lexer * Z * bool) :=
  match n with
  | O => None
  | S n' =>
      if not_at_close sy lx then
        let lx1 := advance lx in
        let '(lx2, had_nl2) :=
          if is_char (_peek lx1) LF then (advance lx1, true) else (lx1, had_nl) in
        let '(lx3, nesting3) :=
          if at_open sy lx2 then (advance (advance lx2), nesting + 1)
          else (lx2, nesting) in
        comment_inner n' sy lx3 nesting3 had_nl2
      else Some (lx, nesting, had_nl)
  end.

(** The outer [while nesting > 0]. *)
Fixpoint comment_outer (n : nat) (sy : Symbols) (lx : Lexer) (nesting : Z)
    (had_nl : bool) : option (bool * Lexer) :=
  match n with
  | O => None
  | S n' =>
      if 0 <? nesting then
        match comment_inner n' sy lx nesting had_nl with
        | None => None
        | Some (lx1, nesting1, had_nl1) =>
            comment_outer n' sy (advance (advance lx1)) (nesting1 - 1) had_nl1
        end
      else Some (had_nl, lx)
  end.

Definition _nesting_comment (n : nat) (sy : Symbols) (lx : Lexer)
  : option (bool * Lexer) :=
  comment_outer n sy lx 1 false.

(** ** [scan]

    One pass through the body of [while True] either returns a token or
    starts the next pass ([continue]).  The body is the sequence of the
    regions of the source; a region that does neither hands over to the next
    one. *)
Inductive Flow :=
| Return (t : Token) (lx : Lexer)
| Continue (lx : Lexer).

(** Region 0: a backslash before a line feed. *)
Definition line_continuation (lx : Lexer) : Flow + Lexer :=
  if is_char (_peek lx) "\"%char && is_char (peek (_istream lx)) LF
  then inl (Continue (advance (advance lx)))
  else inr lx.

(** Region 1: [while self._peek.isspace()]. *)
Fixpoint skip_spaces (n : nat) (lx : Lexer) : option (Flow + Lexer) :=
  match n with
  | O => None
  | S n' =>
      if holds isspace (_peek lx) then
        if is_char (_peek lx) LF then
          match _log_line_interrupt lx with
          | (Some t, lx1) => Some (inl (Return t lx1))
          | (None, lx1) => skip_spaces n' (advance lx1)
          end
        else skip_spaces n' (advance lx)
      else Some (inr lx)
  end.

(** [while self._peek.isdigit(): num_str += self._peek; ...] *)
Fixpoint read_digits (n : nat) (num_str : string) (lx : Lexer)
  : option (string * Lexer) :=
  match n with
  | O => None
  | S n' =>
      match _peek lx with
      | Some c =>
          if isdigit c then read_digits n' (snoc num_str c) (advance lx)
          else Some (num_str, lx)
      | None => Some (num_str, lx)
      end
  end.

(** Region 2: numbers.  A digit run not followed by a dot is a [Num]; after
    a dot the fraction digits are read too and nothing is returned: control
    passes on to region 3. *)
Definition scan_number (n : nat) (lx : Lexer) : option (Flow + Lexer) :=
  if holds isdigit (_peek lx) then
    match read_digits n "" lx with
    | None => None
    | Some (num_str, lx1) =>
        if negb (is_char (_peek lx1) "."%char) then
          let '(o, lx2) := fresh lx1 in
          Some (inl (Return (Num o (int num_str)) (set_logged 1 lx2)))
        else
          match read_digits n (snoc num_str "."%char) (advance lx1) with
          | None => None
          | Some (_, lx2) => Some (inr lx2)
          end
    end
  else Some (inr lx).

(** [while self._peek.isalpha(): id_str += self._peek; ...] *)
Fixpoint read_alphas (n : nat) (id_str : string) (lx : Lexer)
  : option (string * Lexer) :=
  match n with
  | O => None
  | S n' =>
      match _peek lx with
      | Some c =>
          if isalpha c then read_alphas n' (snoc id_str c) (advance lx)
          else Some (id_str, lx)
      | None => Some (id_str, lx)
      end
  end.

(** The lookup that ends region 3: a spelling already in the table yields the
    token stored there, a new one is made an [Id], stored and returned. *)
Definition intern (id_str : string) (lx : Lexer) : Token * Lexer :=
  match _id_table lx !! id_str with
  | Some token_found => (token_found, set_logged 1 lx)
  | None =>
      let '(o, lx1) := fresh lx in
      let new_id := Id o id_str in
      (new_id, set_logged 1 (set_id_table (<[id_str := new_id]> (_id_table lx1)) lx1))
  end.

(** Region 3: identifiers and reserved words. *)
Definition scan_word (n : nat) (lx : Lexer) : option (Flow + Lexer) :=
  if holds isalpha (_peek lx) then
    match read_alphas n "" lx with
    | None => None
    | Some (id_str, lx1) =>
        let '(t, lx2) := intern id_str lx1 in Some (inl (Return t lx2))
    end
  else Some (inr lx).

(** [while self._peek != "\n" and self._peek != "": ...] *)
Fixpoint skip_line (n : nat) (lx : Lexer) : option Lexer :=
  match n with
  | O => None
  | S n' =>
      match _peek lx with
      | Some c => if Ascii.eqb c LF then Some lx else skip_line n' (advance lx)
      | None => Some lx
      end
  end.

(** What follows the loop of a line comment (the same text under [#] and
    under [//]). *)
Definition after_line_comment (lx : Lexer) : Flow + Lexer :=
  if is_char (_peek lx) LF then
    match _log_line_interrupt lx with
    | (Some t, lx1) => inl (Return t lx1)
    | (None, lx1) => inl (Continue (advance lx1))
    end
  else inr lx.

(** What follows [_nesting_comment] (the same text under [#<] and under
    [/*]). *)
Definition after_block_comment (had_nl : bool) (lx : Lexer) : Flow :=
  if had_nl then
    if negb (_logged_token lx =? 0) then
      match _log_line_interrupt lx with
      | (Some t, lx1) => Return t lx1
      | (None, lx1) => Continue (advance lx1)
      end
    else Continue (advance lx)
  else Continue lx.

(** Region 4, first half: [#...] and [#<...>#]. *)
Definition hash_comments (n : nat) (lx : Lexer) : option (Flow + Lexer) :=
  if is_char (_peek lx) "#"%char then
    if is_char (peek (_istream lx)) "<"%char then
      match _nesting_comment n hash_comment lx with
      | None => None
      | Some (had_nl, lx1) => Some (inl (after_block_comment had_nl lx1))
      end
    else
      match skip_line n lx with
      | None => None
      | Some lx1 => Some (after_line_comment lx1)
      end
  else Some (inr lx).

(** Region 4, second half: [//...] and [/*...*/]. *)
Definition slash_comments (n : nat) (lx : Lexer) : option (Flow + Lexer) :=
  if is_char (_peek lx) "/"%char then
    if is_char (peek (_istream lx)) "/"%char then
      match skip_line n lx with
      | None => None
      | Some lx1 => Some (after_line_comment lx1)
      end
    else if is_char (peek (_istream lx)) "*"%char then
      match _nesting_comment n slash_comment lx with
      | None => None
      | Some (had_nl, lx1) => Some (inl (after_block_comment had_nl lx1))
      end
    else Some (inr lx)
  else Some (inr lx).

Definition is_block_punct (name : string) : bool :=
  bool_decide (name ∈ ["{"; "}"; ","; ";"]).

(** Region 5: operators, punctuation and the end marker. *)
Definition scan_operator (lx : Lexer) : Flow :=
  let '(o, lx1) := fresh lx in
  let t_oper := Token_of_str o (_peek lx1) in
  match _peek lx1 with
  | None => Return t_oper lx1
  | Some c =>
      if bool_decide (c ∈ [" "%char; CR; TAB]) then Continue (advance lx1)
      else
        let lx2 :=
          if negb (Z.land (_logged_token lx1) LoggedToken.EXPRESSION =? 0) then lx1
          else
            set_logged
              (Z.lor (_logged_token lx1)
                 (if is_block_punct (String c EmptyString) then LoggedToken.BLOCK
                  else LoggedToken.EXPRESSION))
              lx1 in
        Return t_oper (advance lx2)
  end.

(** Sequencing of regions. *)
Definition or_next (r : option (Flow + Lexer)) (k : Lexer → option Flow)
  : option Flow :=
  match r with
  | None => None
  | Some (inl f) => Some f
  | Some (inr lx) => k lx
  end.

Definition scan_pass (n : nat) (lx : Lexer) : option Flow :=
  or_next (Some (line_continuation lx)) (λ lx0,
  or_next (skip_spaces n lx0) (λ lx1,
  or_next (scan_number n lx1) (λ lx2,
  or_next (scan_word n lx2) (λ lx3,
  or_next (hash_comments n lx3) (λ lx4,
  or_next (slash_comments n lx4) (λ lx5,
  Some (scan_operator lx5))))))).

Fixpoint scan (n : nat) (lx : Lexer) : option (Token * Lexer) :=
  match n with
  | O => None
  | S n' =>
      match scan_pass n' lx with
      | None => None
      | Some (Return t lx') => Some (t, lx')
      | Some (Continue lx') => scan n' lx'
      end
  end.

(** [k] calls of [scan] in a row, and the tokens they return. *)
Fixpoint scan_times (n k : nat) (lx : Lexer) : option (list Token * Lexer) :=
  match k with
  | O => Some ([], lx)
  | S k' =>
      match scan n lx with
      | None => None
      | Some (t, lx1) =>
          match scan_times n k' lx1 with
          | None => None
          | Some (ts, lx2) => Some (t :: ts, lx2)
          end
      end
  end.

(** The end marker [Token("")] with identity [o]. *)
Definition end_marker (o : nat) : Token := Token_of_str o None.

Definition lex (src : string) : Lexer := Lexer_init (InputStream_init src).

(** ** Symbol table (symbols.py)

    A scope is a value: its own dict and the scope it was opened in.  The
    parser only ever inserts into its current, innermost scope, and a scope
    saved by [block] is an enclosing one, which nothing changes before it is
    restored; so the enclosing scopes reached through [previous] can be held
    by value. *)

Record Symbol := mkSymbol { var : string; type : string }.

Inductive SymTable :=
| mkSymTable (table : gmap string Symbol) (previous : option SymTable).

Definition table (st : SymTable) : gmap string Symbol :=
  match st with mkSymTable t _ => t end.
Definition previous (st : SymTable) : option SymTable :=
  match st with mkSymTable _ p => p end.

(** [SymTable(previous)] *)
Definition SymTable_init (previous : option SymTable) : SymTable :=
  mkSymTable ∅ previous.

Definition insert_symbol (st : SymTable) (id : string) (symbol : Symbol)
  : bool * SymTable :=
  match table st !! id with
  | Some _ => (false, st)
  | None => (true, mkSymTable (<[id := symbol]> (table st)) (previous st))
  end.

Fixpoint find (st : SymTable) (id : string) : option Symbol :=
  match st with
  | mkSymTable t prev =>
      match t !! id with
      | Some s => Some s
      | None =>
          match prev with
          | Some enclosing => find enclosing id
          | None => None
          end
      end
  end.

(** The dicts of a scope chain, innermost first. *)
Fixpoint scopes (st : SymTable) : list (gmap string Symbol) :=
  match st with
  | mkSymTable t prev =>
      t :: match prev with Some enclosing => scopes enclosing | None => [] end
  end.

(** ** AST nodes (ast.py) *)

Inductive PyValue := VInt (z : Z) | VStr (s : string).

Inductive ASTNode :=
| Literal (value : PyValue)
| Identifier (name : string)
| BinOp (left : ASTNode) (op : string) (right : ASTNode)
| UnaryOp (op : string) (expr : ASTNode)
| FunctionCall (name : string) (args : list ASTNode)
| VarDecl (name : string) (var_type : string) (value : ASTNode)
| Assignment (name : string) (value : ASTNode)
| PrintStmt (expr : ASTNode)
| ReturnStmt (expr : ASTNode)
| Block (statements : list ASTNode)
| IfStmt (condition : ASTNode) (true_block : ASTNode) (false_block : option ASTNode)
| WhileStmt (condition : ASTNode) (body : ASTNode)
| FormalParam (name : string) (param_tyoe : string)
| FunctionDecl (name : string) (params : list ASTNode) (return_type : string)
    (body : ASTNode)
| Program (statements : list ASTNode).

(** ** Parser (src/modules/parser.py)

    The parser reaches its lexer through [scan()] and [line] only
    ([finish()] just writes to the trace), so it is stated over any source of
    tokens with these two.

    The parser names four tags, [Tags.VAR], [Tags.SET], [Tags.PRINT] and
    [Tags.STR_LIT], that the class [Tags] of lexer.py does not define (it has
    [NUM], [ID], [TYPE], [TRUE] and [FALSE] only, and nothing adds an
    attribute to it).  Reading such an attribute raises [AttributeError];
    [Tags_undefined] is that read, and the code behind it is kept as the
    source has it.

    Python also bounds the depth of calls: [block] and [stmts] call each
    other, and a nesting of some hundred blocks ends in [RecursionError].
    The model has no such bound (it answers [Timeout] when its fuel is used
    up), so nothing below is stated about blocks nested that deep. *)

Class TokenSource (L : Type) := {
  source_scan : L → option (Token * L);
  source_line : L → Z
}.

(** The lexer of lexer.py, each [scan()] running on fuel [n]. *)
Definition lexer_source (n : nat) : TokenSource Lexer :=
  {| source_scan := scan n; source_line := _cached_line |}.

(** A recorded token stream: replays its tokens, then end markers, as [scan]
    does at the end of the text. *)
Definition replay_source : TokenSource (list Token) :=
  {| source_scan := λ l,
       match l with
       | t :: rest => Some (t, rest)
       | [] => Some (Token_of_str 0 None, [])
       end;
     source_line := λ _, 1 |}.

Inductive Exn :=
| ParseError (args : list string)
| AttributeError (msg : string).

(** What a call can do: return a value, raise (the state it leaves behind is
    kept), or not come back within its fuel. *)
Inductive Outcome (S A : Type) :=
| Done (a : A) (s : S)
| Raised (e : Exn) (s : S)
| Timeout.
Arguments Done {S A} a s.
Arguments Raised {S A} e s.
Arguments Timeout {S A}.

Record Parser (L : Type) := mkParser {
  _lexer : L;
  _lookahead : Token;
  _sym_table : SymTable
}.
Arguments mkParser {L} _ _ _.
Arguments _lexer {L} _.
Arguments _lookahead {L} _.
Arguments _sym_table {L} _.

(** [Parser(lexer)]; [o] is the identity of the initial [Token("")]. *)
Definition Parser_init {L} (lexer : L) (o : nat) : Parser L :=
  mkParser lexer (Token_of_str o None) (SymTable_init None).

Definition M (L A : Type) : Type := Parser L → Outcome (Parser L) A.

Definition ret {L A} (a : A) : M L A := λ p, Done a p.
Definition bind {L A B} (m : M L A) (k : A → M L B) : M L B :=
  λ p, match m p with
       | Done a p' => k a p'
       | Raised e p' => Raised e p'
       | Timeout => Timeout
       end.
Definition raise {L A} (e : Exn) : M L A := λ p, Raised e p.
Definition timeout {L A} : M L A := λ _, Timeout.
Definition get {L} : M L (Parser L) := λ p, Done p p.
Definition put_sym_table {L} (st : SymTable) : M L unit :=
  λ p, Done tt (mkParser (_lexer p) (_lookahead p) st).

Declare Scope parser_scope.
Delimit Scope parser_scope with parser.
Notation "x ← y ; z" := (bind y (λ x, z))
  (at level 20, y at level 100, z at level 200, only parsing) : parser_scope.
Notation "y ;; z" := (bind y (λ _, z))
  (at level 100, z at level 200, only parsing, right associativity) : parser_scope.

(** The exception of [Tags.<name>] for a name that [Tags] does not have. *)
Definition no_attribute (name : string) : Exn :=
  AttributeError ("type object 'Tags' has no attribute '" +:+ name +:+ "'").

(** [Tags.<name>] for one of the names [VAR], [SET], [PRINT], [STR_LIT]. *)
Definition Tags_undefined {L} (name : string) : M L Tag :=
  raise (no_attribute name).

(** [token.value]: only [Num] has the attribute. *)
Definition Token_value (t : Token) : Exn + Z :=
  match t with
  | Num _ v => inr v
  | _ => inl (AttributeError "'Token' object has no attribute 'value'")
  end.

Section Parser.
Context {L : Type} {src : TokenSource L}.
Local Open Scope parser_scope.

Definition lookahead : M L Token := λ p, Done (_lookahead p) p.
Definition line : M L Z := λ p, Done (source_line (_lexer p)) p.

Definition match_ (t : Tag) : M L unit := λ p,
  if Tag_eq t (Token_tag (_lookahead p)) then
    match source_scan (_lexer p) with
    | Some (tok, lexer') => Done tt (mkParser lexer' tok (_sym_table p))
    | None => Timeout
    end
  else Raised (ParseError []) p.

(** In the [elif] after the test for a number the read of [Tags.STR_LIT]
    raises, so neither the branch of strings nor those behind it (the
    identifier, the [ParseError]) are ever taken. *)
Definition factor : M L ASTNode :=
  la ← lookahead;
  modifier ← (if Token_eq_str la "+" then match_ (Tag_of_char "+") ;; ret 1
              else if Token_eq_str la "-" then match_ (Tag_of_char "-") ;; ret (-1)
              else ret 1);
  la ← lookahead;
  if Tag_eq (Token_tag la) Tags.NUM then
    match Token_value la with
    | inl e => raise e
    | inr v =>
        let val := v * modifier in
        match_ Tags.NUM ;; ret (Literal (VInt val))
    end
  else
    STR_LIT ← Tags_undefined "STR_LIT";
    if Tag_eq (Token_tag la) STR_LIT then
      match Token_value la with
      | inl e => raise e
      | inr val =>
          STR_LIT ← Tags_undefined "STR_LIT";
          match_ STR_LIT ;; ret (Literal (VInt val))
      end
    else if Tag_eq (Token_tag la) Tags.ID then
      let name := Token_str la in
      match_ Tags.ID ;; ret (Identifier name)
    else
      ln ← line;
      raise (ParseError ["Erro na linha " +:+ pretty ln +:+
                         ": Esperado um valor, variável ou string."]).

(** The [while True] of [opers]. *)
Fixpoint opers_loop (n : nat) (left_node : ASTNode) : M L ASTNode :=
  match n with
  | O => timeout
  | S n' =>
      la ← lookahead;
      if Token_eq_str la "+" then
        let op_str := Tag_name (Token_tag la) in
        match_ (Tag_of_char "+") ;;
        right_node ← factor;
        opers_loop n' (BinOp left_node op_str right_node)
      else if Token_eq_str la "-" then
        let op_str := Tag_name (Token_tag la) in
        match_ (Tag_of_char "-") ;;
        right_node ← factor;
        opers_loop n' (BinOp left_node op_str right_node)
      else ret left_node
  end.

Definition opers (n : nat) : M L ASTNode :=
  left_node ← factor;
  opers_loop n left_node.

(** The argument [Tags.VAR] of the first call is evaluated before [match]
    is entered. *)
Definition var_decl (n : nat) : M L ASTNode :=
  VAR ← Tags_undefined "VAR";
  match_ VAR ;;
  la ← lookahead;
  let name := Token_str la in
  match_ Tags.ID ;;
  match_ (Tag_of_char ":") ;;
  la ← lookahead;
  let var_type := Token_str la in
  match_ Tags.TYPE ;;
  match_ (Tag_of_char "=") ;;
  expr_node ← opers n;
  match_ (Tag_of_char ";") ;;
  p ← get;
  let '(inserted, st) := insert_symbol (_sym_table p) name (mkSymbol name var_type) in
  put_sym_table st ;;
  if negb inserted then
    raise (ParseError ["Erro: variável '" +:+ name +:+ "' já declarada."])
  else ret (VarDecl name var_type expr_node).

Definition assignment (n : nat) : M L ASTNode :=
  SET ← Tags_undefined "SET";
  match_ SET ;;
  la ← lookahead;
  let name := Token_str la in
  match_ Tags.ID ;;
  match_ (Tag_of_char "=") ;;
  expr_node ← opers n;
  match_ (Tag_of_char ";") ;;
  ret (Assignment name expr_node).

Definition print_stmt (n : nat) : M L ASTNode :=
  PRINT ← Tags_undefined "PRINT";
  match_ PRINT ;;
  expr_node ← opers n;
  match_ (Tag_of_char ";") ;;
  ret (PrintStmt expr_node).

(** [stmts] is its [while True] with the list built so far; [block] calls
    it and is called by it.  The loop can only be left through the [return]
    behind the three tests against [Tags.VAR], [Tags.SET] and [Tags.PRINT],
    and the first of these reads raises. *)
Fixpoint stmts_loop (n : nat) (statements_list : list ASTNode)
  : M L (list ASTNode) :=
  match n with
  | O => timeout
  | S n' =>
      la ← lookahead;
      if Token_eq_str la ";" then
        match_ (Tag_of_char ";") ;;
        stmts_loop n' statements_list
      else if Tag_eq_str (Token_tag la) "{" then
        node ← block n';
        stmts_loop n' (statements_list ++ [node])
      else
        VAR ← Tags_undefined "VAR";
        if Tag_eq (Token_tag la) VAR then
          node ← var_decl n';
          stmts_loop n' (statements_list ++ [node])
        else
          SET ← Tags_undefined "SET";
          if Tag_eq (Token_tag la) SET then
            node ← assignment n';
            stmts_loop n' (statements_list ++ [node])
          else
            PRINT ← Tags_undefined "PRINT";
            if Tag_eq (Token_tag la) PRINT then
              node ← print_stmt n';
              stmts_loop n' (statements_list ++ [node])
            else ret statements_list
  end
with block (n : nat) : M L ASTNode :=
  match n with
  | O => timeout
  | S n' =>
      match_ (Tag_of_char "{") ;;
      p ← get;
      let saved_table := _sym_table p in
      put_sym_table (SymTable_init (Some saved_table)) ;;
      comando_dos_blocos ← stmts_loop n' [];
      la ← lookahead;
      if Token_ne_str la "}" then
        ln ← line;
        raise (ParseError ["Erro na linha " +:+ pretty ln +:+ ":" +:+
                           "era esperado '}' no final do bloco."])
      else
        match_ (Tag_of_char "}") ;;
        put_sym_table saved_table ;;
        ret (Block comando_dos_blocos)
  end.

Definition stmts (n : nat) : M L (list ASTNode) := stmts_loop n [].

Definition program (n : nat) : M L ASTNode :=
  lista_de_comandos ← stmts n;
  ret (Program lista_de_comandos).

Definition start (n : nat) : M L ASTNode := λ p,
  match source_scan (_lexer p) with
  | None => Timeout
  | Some (tok, lexer') =>
      (ast_root ← program n;
       la ← lookahead;
       if Token_ne_str la "" then
         raise (ParseError
           ["Erro: Código extra encontrado após o fim do escopo principal."])
       else ret ast_root) (mkParser lexer' tok (_sym_table p))
  end.
End Parser.

(** ** Vocabulary of the statements *)

(** The parser over the lexer of a text, after the first line of [start]:
    [self._lookahead = self._lexer.scan()]. *)
Definition Parser_primed (n : nat) (text : string) : option (Parser Lexer) :=
  match scan n (lex text) with
  | Some (tok, lx) => Some (mkParser lx tok (SymTable_init None))
  | None => None
  end.

(** The tokens a source hands out on successive calls of [scan()]. *)
Inductive emits {L} {src : TokenSource L} : L → list Token → L → Prop :=
| emits_nil l : emits l [] l
| emits_cons l t l1 ts l' :
    source_scan l = Some (t, l1) → emits l1 ts l' → emits l (t :: ts) l'.


(** What is left of an outcome when one looks at the scope, at the exception
    or at the value only. *)
Definition final_scope {L A} (o : Outcome (Parser L) A) : option SymTable :=
  match o with
  | Done _ p | Raised _ p => Some (_sym_table p)
  | Timeout => None
  end.
Definition failure {S A} (o : Outcome S A) : option Exn :=
  match o with Raised e _ => Some e | _ => None end.
Definition value_of {S A} (o : Outcome S A) : option A :=
  match o with Done a _ => Some a | _ => None end.



(** [k] scopes opened one inside the other on top of [st], all of them
    empty. *)
Fixpoint pile (k : nat) (st : SymTable) : SymTable :=
  match k with
  | O => st
  | S k' => SymTable_init (Some (pile k' st))
  end.

(** A token at which [stmts] neither skips a semicolon nor enters a block:
    every token but [;] and [{]. *)
Definition starts_nothing (t : Token) : Prop :=
  Token_eq_str t ";" = false ∧ Tag_eq_str (Token_tag t) "{" = false.

(** A chain of operators and numbers, [+ 2 - 3 ...], as tokens: [(c, v)]
    stands for a token tagged with the operator [c] and the token [Num(v)]. *)
Inductive chain_tokens : list (ascii * Z) → list Token → Prop :=
| chain_nil : chain_tokens [] []
| chain_cons c v chain op o ts :
    c = "+"%char ∨ c = "-"%char →
    Token_tag op = Tag_of_char c →
    chain_tokens chain ts →
    chain_tokens ((c, v) :: chain) (op :: Num o v :: ts).


(** The tag of [Token("")]. *)
Definition end_tag : Tag := mkTag 0 "".

(** The characters that reach region 5 of [scan] and come back as a
    single-character token. *)
Definition punctuation (c : ascii) : bool :=
  negb (isspace c || isdigit c || isalpha c
        || Ascii.eqb c "#" || Ascii.eqb c "/" || Ascii.eqb c "\").

(** The lexer after [scan] has returned the token of the punctuation
    character at hand, before it reads the next character. *)
Definition punctuation_seen (c : ascii) (lx : Lexer) : Lexer :=
  let lx1 := snd (fresh lx) in
  if negb (Z.land (_logged_token lx1) LoggedToken.EXPRESSION =? 0) then lx1
  else
    set_logged
      (Z.lor (_logged_token lx1)
         (if is_block_punct (String c EmptyString) then LoggedToken.BLOCK
          else LoggedToken.EXPRESSION))
      lx1.

(** *** The identifier table *)

(** Every entry of the table is one of the seeded ones, or an identifier
    stored under its own spelling. *)
Definition table_inv (tb : gmap string Token) : Prop :=
  ∀ k t, tb !! k = Some t → seeded_table 0 !! k = Some t ∨ ∃ o, t = Id o k.

(** The table of [lx'] holds what the table of [lx] holds, and is as well
    kept. *)
Definition grows (lx lx' : Lexer) : Prop :=
  _id_table lx ⊆ _id_table lx' ∧
  (table_inv (_id_table lx) → table_inv (_id_table lx')).

(** The tokens that do not come from the table: numbers, and tokens tagged
    with a character or as the end marker. *)
Definition char_like (t : Token) : Prop :=
  match t with
  | Num _ _ => True
  | Token_ _ tag => Tag_value tag < 256
  | _ => False
  end.

Definition from_table (tb : gmap string Token) (t : Token) : Prop :=
  ∃ k, tb !! k = Some t.

(** What a region of [scan] may do to the table: nothing, and a token it
    returns is no word. *)
Definition quiet (lx : Lexer) (r : Flow + Lexer) : Prop :=
  match r with
  | inl (Return t lx') => _id_table lx' = _id_table lx ∧ char_like t
  | inl (Continue lx') | inr lx' => _id_table lx' = _id_table lx
  end.

(** *** Block comments *)

(** The text the lexer has before it: the pending character and what the
    stream still holds. *)
Definition text_ahead (lx : Lexer) : list ascii :=
  option_list (_peek lx) ++ pending (_istream lx).

(** Somewhere in the text the closing delimiter stands. *)
Fixpoint has_close (sy : Symbols) (cs : list ascii) : bool :=
  match cs with
  | [] => false
  | c :: rest =>
      (Ascii.eqb c (sym2 sy) && is_char (head rest) (sym3 sy)) || has_close sy rest
  end.

(** The example of the specification as it is written there, with [#>] where
    the lexer expects [>#]. *)
Definition example_with_wrong_closers : string :=
  "#< a #< nested #> still inside #> var".

Definition example_comment : string :=
  "#< a #< nested ># still inside ># var".

(** The inside of a block comment whose delimiters stand apart.  A piece is
    an ordinary character, a line feed with the ordinary character after it,
    or an opening delimiter with the ordinary character after it. *)
Inductive Piece :=
| Plain (c : ascii)
| Newline (c : ascii)
| Open (c : ascii).

Definition follower (x : Piece) : ascii :=
  match x with Plain c | Newline c | Open c => c end.

Definition piece_text (sy : Symbols) (x : Piece) : list ascii :=
  match x with
  | Plain c => [c]
  | Newline c => [LF; c]
  | Open c => [sym0 sy; sym1 sy; c]
  end.

Fixpoint segment_text (sy : Symbols) (seg : list Piece) : list ascii :=
  match seg with
  | [] => []
  | x :: seg' => piece_text sy x ++ segment_text sy seg'
  end.

Fixpoint opens (seg : list Piece) : Z :=
  match seg with
  | [] => 0
  | Open _ :: seg' => 1 + opens seg'
  | _ :: seg' => opens seg'
  end.

Fixpoint newlines (seg : list Piece) : Z :=
  match seg with
  | [] => 0
  | Newline _ :: seg' => 1 + newlines seg'
  | _ :: seg' => newlines seg'
  end.

(** An ordinary character: no character of a delimiter, no tab, line feed
    or carriage return. *)
Definition plain (sy : Symbols) (c : ascii) : bool :=
  negb (Ascii.eqb c (sym0 sy) || Ascii.eqb c (sym2 sy) || Ascii.eqb c (sym3 sy)
        || Ascii.eqb c TAB || Ascii.eqb c LF || Ascii.eqb c CR).

Definition plain_segment (sy : Symbols) (seg : list Piece) : bool :=
  forallb (λ x, plain sy (follower x)) seg.

(** What follows the first closing delimiter: for each further closing
    delimiter, the ordinary character [c] after the one before it and the
    segment [seg] up to it; at the end, the text after the comment. *)
Fixpoint rest_text (sy : Symbols) (rest : list (ascii * list Piece))
    (tail : list ascii) : list ascii :=
  match rest with
  | [] => tail
  | (c, seg) :: rest' =>
      c :: segment_text sy seg ++ sym2 sy :: sym3 sy :: rest_text sy rest' tail
  end.

Definition plain_rest (sy : Symbols) (rest : list (ascii * list Piece)) : bool :=
  forallb (λ cs, plain sy (fst cs) && plain_segment sy (snd cs)) rest.

Fixpoint rest_newlines (rest : list (ascii * list Piece)) : Z :=
  match rest with
  | [] => 0
  | (_, seg) :: rest' => newlines seg + rest_newlines rest'
  end.

(** The comment [sym0 sym1 sep seg0 sym2 sym3 ...], followed by [tail]. *)
Definition comment_text (sy : Symbols) (sep : ascii) (seg0 : list Piece)
    (rest : list (ascii * list Piece)) (tail : list ascii) : list ascii :=
  sym0 sy :: sym1 sy :: sep ::
    segment_text sy seg0 ++ sym2 sy :: sym3 sy :: rest_text sy rest tail.

(** The delimiters are matched: with [depth] comments open at a closing
    delimiter, each closing delimiter but the last leaves one open, and the
    last closes the outermost. *)
Fixpoint depth_ok (depth : Z) (rest : list (ascii * list Piece)) : Prop :=
  match rest with
  | [] => depth = 1
  | (_, seg) :: rest' => 1 < depth ∧ depth_ok (depth - 1 + opens seg) rest'
  end.

Fixpoint rest_fuel (rest : list (ascii * list Piece)) : nat :=
  match rest with
  | [] => 1
  | (_, seg) :: rest' => length seg + 3 + rest_fuel rest'
  end.

Definition comment_fuel (seg0 : list Piece) (rest : list (ascii * list Piece))
  : nat :=
  length seg0 + 5 + rest_fuel rest.

(** The lexer [lx] moved on to stand on [c], [k] lines further, with [rest]
    still in the stream. *)
Definition move (lx : Lexer) (k : Z) (c : ascii) (rest : list ascii) : Lexer :=
  mkLexer (_line lx + k) (_cached_line lx) (Some c) (mkInputStream rest false)
    (_id_table lx) (_logged_token lx) (next_oid lx).


Definition example_tail : list ascii := list_ascii_of_string " var".

(** *** States of the examples

    The parser over recorded tokens, with the token under the lookahead and
    those still to come. *)
Definition char_token (c : ascii) : Token := Token_ 0 (Tag_of_char c).

Definition on_tokens (lookahead : Token) (rest : list Token) (st : SymTable)
  : Parser (list Token) :=
  mkParser rest lookahead st.

Definition scope_with_x : SymTable :=
  mkSymTable (<["x" := mkSymbol "x" "int"]> ∅) None.

(** ** The character source by position (istream.py)

    [InputStream] and [TuiInputStream] as istream.py writes them: the whole
    text, the position of the next character and the end flag.  The lexer
    above reads its stream through the text still pending; [pending_of]
    relates the two. *)

(** [s[i]] on a Python string: a negative index counts from the end; [None]
    stands for [IndexError]. *)
Definition str_index (s : list ascii) (i : Z) : option ascii :=
  if 0 <=? i then s !! Z.to_nat i
  else if 0 <=? Z.of_nat (length s) + i then s !! Z.to_nat (Z.of_nat (length s) + i)
  else None.

(** What [peek] does: return a string of length at most one, or raise. *)
Inductive Peek :=
| Peeked (c : option ascii)
| IndexError.

Module Istream.

Record InputStream := mkInputStream {
  _source_code : list ascii;
  _position : nat;
  _eof_reached : bool
}.

(** [InputStream(file_path)]; [text] is what [file.read()] returned for the
    file. *)
Definition InputStream_init (text : string) : InputStream :=
  mkInputStream (list_ascii_of_string text) 0 false.

Definition get_char (s : InputStream) : option ascii * InputStream :=
  if (_position s <? length (_source_code s))%nat then
    (_source_code s !! _position s,
     mkInputStream (_source_code s) (S (_position s)) (_eof_reached s))
  else (None, mkInputStream (_source_code s) (_position s) true).

Definition peek (s : InputStream) (offset : Z) : Peek :=
  let pos := Z.of_nat (_position s) + offset in
  if pos <? Z.of_nat (length (_source_code s)) then
    match str_index (_source_code s) pos with
    | Some c => Peeked (Some c)
    | None => IndexError
    end
  else Peeked None.

(** [k] calls of [get_char] in a row, and what they return. *)
Fixpoint get_chars (k : nat) (s : InputStream) : list (option ascii) * InputStream :=
  match k with
  | O => ([], s)
  | S k' =>
      let '(c, s1) := get_char s in
      let '(cs, s2) := get_chars k' s1 in
      (c :: cs, s2)
  end.

End Istream.

(** [TuiInputStream]: the same stream with an echo function, called with
    every character handed out.  [echoed] is what the echo function has been
    called with, in order. *)
Module TuiIstream.

Record TuiInputStream := mkTuiInputStream {
  _source_code : list ascii;
  _position : nat;
  echoed : list ascii;
  _eof_reached : bool
}.

Definition TuiInputStream_init (text : string) : TuiInputStream :=
  mkTuiInputStream (list_ascii_of_string text) 0 [] false.

Definition get_char (s : TuiInputStream) : option ascii * TuiInputStream :=
  if (_position s <? length (_source_code s))%nat then
    (_source_code s !! _position s,
     mkTuiInputStream (_source_code s) (S (_position s))
       (echoed s ++ option_list (_source_code s !! _position s)) (_eof_reached s))
  else (None, mkTuiInputStream (_source_code s) (_position s) (echoed s) true).

Definition peek (s : TuiInputStream) (offset : Z) : Peek :=
  let pos := Z.of_nat (_position s) + offset in
  if pos <? Z.of_nat (length (_source_code s)) then
    match str_index (_source_code s) pos with
    | Some c => Peeked (Some c)
    | None => IndexError
    end
  else Peeked None.

Fixpoint get_chars (k : nat) (s : TuiInputStream)
  : list (option ascii) * TuiInputStream :=
  match k with
  | O => ([], s)
  | S k' =>
      let '(c, s1) := get_char s in
      let '(cs, s2) := get_chars k' s1 in
      (c :: cs, s2)
  end.

End TuiIstream.

(** The stream as the lexer sees it: the text from the position on. *)
Definition pending_of (s : Istream.InputStream) : InputStream :=
  mkInputStream (drop (Istream._position s) (Istream._source_code s))
    (Istream._eof_reached s).

(** A [TuiInputStream] without its echo. *)
Definition silent (s : TuiIstream.TuiInputStream) : Istream.InputStream :=
  Istream.mkInputStream (TuiIstream._source_code s) (TuiIstream._position s)
    (TuiIstream._eof_reached s).

(** ** [Lexer.start] (lexer.py)

    [while self._peek != "": self.scan()]; the tokens go to the trace only.
    [finish] writes to the trace and changes nothing. *)
Fixpoint Lexer_start (n : nat) (lx : Lexer) : option Lexer :=
  match n with
  | O => None
  | S n' =>
      match _peek lx with
      | None => Some lx
      | Some _ =>
          match scan n' lx with
          | None => None
          | Some (_, lx') => Lexer_start n' lx'
          end
      end
  end.

(** No block comment opens in the text: no [#<] and no [/*]. *)
Fixpoint no_block_open (cs : list ascii) : bool :=
  match cs with
  | [] => true
  | c :: rest =>
      negb ((Ascii.eqb c "#" && is_char (head rest) "<")
            || (Ascii.eqb c "/" && is_char (head rest) "*"))
      && no_block_open rest
  end.

(** The measure of the lexer's loops: the text ahead.  [calm]: no block
    comment opens in it.  [progress]: less text is ahead, and it is calm. *)
Definition size (lx : Lexer) : nat := length (text_ahead lx).
Definition calm (lx : Lexer) : Prop := no_block_open (text_ahead lx) = true.
Definition progress (lx lx' : Lexer) : Prop := (size lx' < size lx)%nat ∧ calm lx'.

(** What a region of [scan] hands on: a token or a new pass with less text
    ahead, or the lexer as it was or with less text ahead. *)
Definition onward (lx : Lexer) (r : Flow + Lexer) : Prop :=
  match r with
  | inl (Return _ lx') | inl (Continue lx') => progress lx lx'
  | inr lx' => lx' = lx ∨ progress lx lx'
  end.

(** ** The translating parser (parser.py at the top of the repository)

    The parser that came before the AST parser: it builds no tree but writes
    its translation through the injected logger, declares names in the
    symbol table and, when [_optimize] is set, folds the value of every
    expression in [accumulator].  What it writes is the list of the calls of
    the logger, each with its text and its [end] argument when one is
    passed ([flush] does not change the text).  [warned] holds the calls of
    the warning logger and [errors] those of [log_error]. *)
Module Legacy.

Inductive Exn :=
| ParseError (args : list string)
| AssertionError
| AttributeError (msg : string).

Inductive Outcome (S A : Type) :=
| Done (a : A) (s : S)
| Raised (e : Exn) (s : S)
| Timeout.
Arguments Done {S A} a s.
Arguments Raised {S A} e s.
Arguments Timeout {S A}.

Record LogCall := mkLogCall { text : string; end_ : option string }.

Record Parser (L : Type) := mkParser {
  _lexer : L;
  _lookahead : Token;
  _optimize : bool;
  _sym_table : SymTable;
  _id_queue : list Token;
  accumulator : option Z;
  logged : list LogCall;
  warned : list string;
  errors : list string
}.
Arguments mkParser {L} _ _ _ _ _ _ _ _ _.
Arguments _lexer {L} _.
Arguments _lookahead {L} _.
Arguments _optimize {L} _.
Arguments _sym_table {L} _.
Arguments _id_queue {L} _.
Arguments accumulator {L} _.
Arguments logged {L} _.
Arguments warned {L} _.
Arguments errors {L} _.

(** [Parser(lexer, optimize=optimize)]; [o] is the identity of the initial
    [Token("")].  The attribute [accumulator] exists from the start only
    when [optimize] is set. *)
Definition Parser_init {L} (lexer : L) (optimize : bool) (o : nat) : Parser L :=
  mkParser lexer (Token_of_str o None) optimize (SymTable_init None) []
    (if optimize then Some 0 else None) [] [] [].

Definition M (L A : Type) : Type := Parser L → Outcome (Parser L) A.

Definition ret {L A} (a : A) : M L A := λ p, Done a p.
Definition bind {L A B} (m : M L A) (k : A → M L B) : M L B :=
  λ p, match m p with
       | Done a p' => k a p'
       | Raised e p' => Raised e p'
       | Timeout => Timeout
       end.
Definition raise {L A} (e : Exn) : M L A := λ p, Raised e p.
Definition timeout {L A} : M L A := λ _, Timeout.
Definition get {L} : M L (Parser L) := λ p, Done p p.

Definition put_sym_table {L} (st : SymTable) : M L unit := λ p,
  Done tt (mkParser (_lexer p) (_lookahead p) (_optimize p) st (_id_queue p)
             (accumulator p) (logged p) (warned p) (errors p)).
Definition put_id_queue {L} (q : list Token) : M L unit := λ p,
  Done tt (mkParser (_lexer p) (_lookahead p) (_optimize p) (_sym_table p) q
             (accumulator p) (logged p) (warned p) (errors p)).
Definition put_accumulator {L} (v : Z) : M L unit := λ p,
  Done tt (mkParser (_lexer p) (_lookahead p) (_optimize p) (_sym_table p)
             (_id_queue p) (Some v) (logged p) (warned p) (errors p)).

(** [self._log(text)] and [self._log(text, end=e)] *)
Definition log {L} (text : string) (end_ : option string) : M L unit := λ p,
  Done tt (mkParser (_lexer p) (_lookahead p) (_optimize p) (_sym_table p)
             (_id_queue p) (accumulator p) (logged p ++ [mkLogCall text end_])
             (warned p) (errors p)).
Definition warn {L} (message : string) : M L unit := λ p,
  Done tt (mkParser (_lexer p) (_lookahead p) (_optimize p) (_sym_table p)
             (_id_queue p) (accumulator p) (logged p) (warned p ++ [message])
             (errors p)).
Definition log_error {L} (message : string) : M L unit := λ p,
  Done tt (mkParser (_lexer p) (_lookahead p) (_optimize p) (_sym_table p)
             (_id_queue p) (accumulator p) (logged p) (warned p)
             (errors p ++ [message])).

(** [self.accumulator], read *)
Definition read_accumulator {L} : M L Z := λ p,
  match accumulator p with
  | Some v => Done v p
  | None => Raised (AttributeError "'Parser' object has no attribute 'accumulator'") p
  end.

Declare Scope legacy_scope.
Delimit Scope legacy_scope with legacy.
Notation "x ← y ; z" := (bind y (λ x, z))
  (at level 20, y at level 100, z at level 200, only parsing) : legacy_scope.
Notation "y ;; z" := (bind y (λ _, z))
  (at level 100, z at level 200, only parsing, right associativity) : legacy_scope.

(** The escape character of the colour codes in the messages. *)
Definition ESC : string := String "027" EmptyString.

Section Parser.
Context {L : Type} {src : TokenSource L}.
Local Open Scope legacy_scope.

Definition lookahead : M L Token := λ p, Done (_lookahead p) p.
Definition line : M L Z := λ p, Done (source_line (_lexer p)) p.

Definition match_ (t : Tag) : M L unit := λ p,
  if Tag_eq t (Token_tag (_lookahead p)) then
    match source_scan (_lexer p) with
    | Some (tok, lexer') =>
        Done tt (mkParser lexer' tok (_optimize p) (_sym_table p) (_id_queue p)
                   (accumulator p) (logged p) (warned p) (errors p))
    | None => Timeout
    end
  else Raised (ParseError []) p.

Definition queue_empty : M L bool := λ p,
  Done (match _id_queue p with [] => true | _ => false end) p.

Definition queue (id : Token) : M L unit := λ p,
  put_id_queue (_id_queue p ++ [id]) p.

Definition deque : M L (option Token) := λ p,
  match _id_queue p with
  | [] => Done None p
  | id :: rest => bind (put_id_queue rest) (λ _, ret (Some id)) p
  end.

(** [while not self.queue_empty(): self.deque()] *)
Fixpoint clear_queue (n : nat) : M L unit :=
  match n with
  | O => timeout
  | S n' =>
      empty ← queue_empty;
      if empty then ret tt else deque ;; clear_queue n'
  end.

Definition digit : M L Z :=
  la ← lookahead;
  modifier ← (if Token_eq_str la "+" then match_ (Tag_of_char "+") ;; ret 1
              else if Token_eq_str la "-" then match_ (Tag_of_char "-") ;; ret (-1)
              else ret 1);
  la ← lookahead;
  if Tag_eq (Token_tag la) Tags.NUM then
    match la with
    | Num _ value => match_ (Token_tag la) ;; ret (value * modifier)
    | _ => raise AssertionError
    end
  else
    ln ← line;
    log_error (String LF "Erro na linha " +:+ pretty ln +:+ ":" +:+ ESC +:+
               "[35m dígito era esperado, obteve " +:+ Token_str la +:+
               " ao invés disso.") ;;
    raise (ParseError []).

(** The loop of [opers] under [if self._optimize].  The logger is handed the
    accumulator itself, an [int]; [text] holds what it prints for it. *)
Fixpoint opers_folding (n : nat) : M L unit :=
  match n with
  | O => timeout
  | S n' =>
      la ← lookahead;
      if Token_eq_str la "+" then
        match_ (Tag_of_char "+") ;;
        acc ← read_accumulator;
        d ← digit;
        put_accumulator (acc + d) ;;
        opers_folding n'
      else if Token_eq_str la "-" then
        match_ (Tag_of_char "-") ;;
        acc ← read_accumulator;
        d ← digit;
        put_accumulator (acc - d) ;;
        opers_folding n'
      else
        acc ← read_accumulator;
        log (pretty acc) (Some "")
  end.

(** The loop of [opers] under [else]. *)
Fixpoint opers_echoing (n : nat) : M L unit :=
  match n with
  | O => timeout
  | S n' =>
      acc ← read_accumulator;
      log (pretty acc) (Some "") ;;
      la ← lookahead;
      if Token_eq_str la "+" then
        match_ (Tag_of_char "+") ;;
        log "+" (Some "") ;;
        d ← digit;
        put_accumulator d ;;
        opers_echoing n'
      else if Token_eq_str la "-" then
        match_ (Tag_of_char "-") ;;
        log "-" (Some "") ;;
        d ← digit;
        put_accumulator d ;;
        opers_echoing n'
      else ret tt
  end.

Definition opers (n : nat) : M L unit :=
  d ← digit;
  put_accumulator d ;;
  p ← get;
  if _optimize p then opers_folding n else opers_echoing n.

(** The [while ret] of [lval_lst]. *)
Fixpoint lval_lst_loop (n : nat) (ret_ : bool) : M L bool :=
  match n with
  | O => timeout
  | S n' =>
      if ret_ then
        la ← lookahead;
        match la with
        | Id _ _ =>
            let id := la in
            match_ Tags.ID ;;
            queue id ;;
            la ← lookahead;
            if Token_eq_str la "," then
              match_ (Tag_of_char ",") ;;
              la ← lookahead;
              lval_lst_loop n' (Tag_eq (Token_tag la) Tags.ID)
            else ret ret_
        | _ => raise AssertionError
        end
      else ret ret_
  end.

Definition lval_lst (n : nat) : M L bool :=
  la ← lookahead;
  lval_lst_loop n (Tag_eq (Token_tag la) Tags.ID).

(** The two loops of [rval_lst]: without and with queued names. *)
Fixpoint rval_lst_standalone (n : nat) : M L bool :=
  match n with
  | O => timeout
  | S n' =>
      la ← lookahead;
      if Tag_eq (Token_tag la) Tags.NUM
         || Token_eq_str la "+" || Token_eq_str la "-" then
        opers n' ;;
        la ← lookahead;
        if Token_eq_str la "," then
          match_ (Tag_of_char ",") ;;
          rval_lst_standalone n'
        else ret true
      else ret false
  end.

Fixpoint rval_lst_queued (n : nat) : M L bool :=
  match n with
  | O => timeout
  | S n' =>
      id ← deque;
      match id with
      | None => ret true
      | Some id =>
          log (Token_str id +:+ "=") (Some "") ;;
          opers n' ;;
          log "" None ;;
          rval_lst_queued n'
      end
  end.

Definition rval_lst (n : nat) : M L bool :=
  empty ← queue_empty;
  if empty then rval_lst_standalone n else rval_lst_queued n.

(** The [while not self._id_queue.empty()] of [declr_or_rval_lst]; [t] is
    the type token. *)
Fixpoint declare_queued (n : nat) (t : Token) : M L unit :=
  match n with
  | O => timeout
  | S n' =>
      empty ← queue_empty;
      if empty then ret tt
      else
        id ← deque;
        match id with
        | None => raise AssertionError
        | Some id =>
            let name := Token_str id in
            p ← get;
            let '(inserted, st) :=
              insert_symbol (_sym_table p) name (mkSymbol name (Token_str t)) in
            put_sym_table st ;;
            if negb inserted then
              ln ← line;
              raise (ParseError ["Erro na linha " +:+ pretty ln +:+ ":" +:+
                                 " a variável '" +:+ name +:+
                                 "' já foi declarada no escopo atual."])
            else
              log (name +:+ " : " +:+ Token_str t) None ;;
              declare_queued n' t
        end
  end.

Definition declr_or_rval_lst (n : nat) : M L bool :=
  la ← lookahead;
  if Token_eq_str la ":" then
    match_ (Tag_of_char ":") ;;
    t ← lookahead;
    if negb (Tag_eq (Token_tag t) Tags.TYPE) then
      ln ← line;
      raise (ParseError ["Erro na linha " +:+ pretty ln +:+ ":" +:+
                         " era esperado um identificador de tipo após declaração."])
    else
      match_ Tags.TYPE ;;
      match t with
      | Type_ _ _ => declare_queued n t ;; ret true
      | _ => raise AssertionError
      end
  else if Token_eq_str la "=" then
    match_ (Tag_of_char "=") ;;
    rval_lst n ;;
    ret true
  else ret false.

Definition standalone_warning : M L unit :=
  la ← lookahead;
  if Token_eq_str la ";" then
    ln ← line;
    warn ("[warning] standalone expression at line :" +:+ pretty ln +:+ ".")
  else ret tt.

Definition expr (n : nat) : M L bool :=
  is_lval ← lval_lst n;
  if is_lval then
    declared ← declr_or_rval_lst n;
    (if negb declared then clear_queue n ;; standalone_warning else ret tt) ;;
    ret true
  else
    is_rval ← rval_lst n;
    if is_rval then standalone_warning ;; ret true
    else ret false.

(** [stmts] is its [while True]; [block] calls it and is called by it. *)
Fixpoint stmts (n : nat) : M L unit :=
  match n with
  | O => timeout
  | S n' =>
      la ← lookahead;
      if Tag_eq_str (Token_tag la) "{" then
        block n' ;;
        stmts n'
      else
        is_expr ← expr n';
        if is_expr then
          la ← lookahead;
          (if Token_eq_str la ";" then match_ (Tag_of_char ";")
           else
             ln ← line;
             raise (ParseError ["Erro na linha " +:+ pretty ln +:+ ":" +:+
                                " fim de linha ou ';' esperado."])) ;;
          stmts n'
        else ret tt
  end
with block (n : nat) : M L unit :=
  match n with
  | O => timeout
  | S n' =>
      match_ (Tag_of_char "{") ;;
      log "{" None ;;
      p ← get;
      let saved_table := _sym_table p in
      put_sym_table (SymTable_init (Some saved_table)) ;;
      stmts n' ;;
      la ← lookahead;
      if Token_ne_str la "}" then
        ln ← line;
        raise (ParseError ["Erro na linha " +:+ pretty ln +:+ ":" +:+
                           "era esperado '}' no final do bloco."])
      else
        match_ (Tag_of_char "}") ;;
        log (String LF "}") (Some "") ;;
        put_sym_table saved_table
  end.

Definition program (n : nat) : M L unit := stmts n.

Definition start (n : nat) : M L unit := λ p,
  match source_scan (_lexer p) with
  | None => Timeout
  | Some (tok, lexer') =>
      (program n ;;
       la ← lookahead;
       if Token_ne_str la "" then raise (ParseError []) else ret tt)
        (mkParser lexer' tok (_optimize p) (_sym_table p) (_id_queue p)
           (accumulator p) (logged p) (warned p) (errors p))
  end.
End Parser.

End Legacy.

(** The value of a chain of operators and numbers read from the left, and
    what the translating parser writes for it when it does not fold. *)
Definition chain_value (first : Z) (chain : list (ascii * Z)) : Z :=
  foldl (λ acc cv, if Ascii.eqb (fst cv) "-" then acc - snd cv else acc + snd cv)
    first chain.

Definition echo (s : string) : Legacy.LogCall := Legacy.mkLogCall s (Some "").

Definition chain_echo (chain : list (ascii * Z)) : list Legacy.LogCall :=
  flat_map (λ cv, [echo (String (fst cv) EmptyString); echo (pretty (snd cv))]) chain.

(** The translating parser moved on to the token [t], its token source
    left in [l]. *)
Definition advanced {L} (p : Legacy.Parser L) (l : L) (t : Token) : Legacy.Parser L :=
  Legacy.mkParser l t (Legacy._optimize p) (Legacy._sym_table p) (Legacy._id_queue p)
    (Legacy.accumulator p) (Legacy.logged p) (Legacy.warned p) (Legacy.errors p).

(** It has lookahead [t] and will read [ts] next. *)
Definition legacy_sees {L} {src : TokenSource L} (p : Legacy.Parser L)
    (ts : list Token) (l' : L) : Prop :=
  match ts with
  | [] => False
  | t :: rest => Legacy._lookahead p = t ∧ emits (Legacy._lexer p) rest l'
  end.

(** The number the accumulator holds after a chain when nothing is folded:
    each number of the chain replaces the one before. *)
Definition chain_last (first : Z) (chain : list (ascii * Z)) : Z :=
  foldl (λ _ cv, snd cv) first chain.

(** A list of names separated by commas, [a , b , c], as tokens: each name
    is given with the identity of its token. *)
Definition id_token (x : nat * string) : Token := Id x.1 x.2.

Inductive name_tokens : list (nat * string) → list Token → Prop :=
| name_last x : name_tokens [x] [id_token x]
| name_more x comma ids ts :
    Token_tag comma = Tag_of_char "," →
    name_tokens ids ts →
    name_tokens (x :: ids) (id_token x :: comma :: ts).

(** The scope after [names] were entered with the type [ty], and the line
    written for each. *)
Definition declare_all (ty : string) (names : list string) (st : SymTable) : SymTable :=
  mkSymTable (foldl (λ t name, <[name := mkSymbol name ty]> t) (table st) names)
    (previous st).

Definition declaration_line (ty : string) (name : string) : Legacy.LogCall :=
  Legacy.mkLogCall (name +:+ " : " +:+ ty) None.

(** *** States of the examples

    The translating parser over recorded tokens, after the first line of
    [start], with nothing declared, queued or written yet. *)
Definition legacy_on_tokens (lookahead : Token) (rest : list Token) (optimize : bool)
  : Legacy.Parser (list Token) :=
  advanced (Legacy.Parser_init rest optimize 0) rest lookahead.

(** Plain numbers as tokens, and the lines the translating parser writes
    when it assigns the values to the names, one for one. *)
Definition num_token (x : nat * Z) : Token := Num x.1 x.2.

Definition assignment_lines (names : list string) (values : list Z)
  : list Legacy.LogCall :=
  flat_map (λ nv, [echo (nv.1 +:+ "="); echo (pretty nv.2); Legacy.mkLogCall "" None])
    (zip names values).

(** The message [digit] hands to [log_error]. *)
Definition digit_expected (ln : Z) (got : string) : string :=
  String LF "Erro na linha " +:+ pretty ln +:+ ":" +:+ Legacy.ESC +:+
  "[35m dígito era esperado, obteve " +:+ got +:+ " ao invés disso.".

(** A block comment with a line feed inside and text directly behind it. *)
Definition example_line_comment : string :=
  String "#" (String "<" (String " " (String "a" (String LF " >#var")))).

(** The texts on which the lexer model speaks for the code: ASCII
    characters, and few enough digits for [int()], which refuses a string of
    more than 4300 digits. *)
Definition ascii_text (cs : list ascii) : Prop := Forall (λ c, ord c < 128) cs.

Definition digits_in (cs : list ascii) : nat := length (List.filter isdigit cs).

Definition max_str_digits : Z := 4300.

(** *** Scopes of the translating parser

    [st'] is on the level of [st]: the same scope, perhaps with more names
    (they have the same enclosing scope).  [st'] is at or inside [st]: on
    its level, or opened inside a scope on its level. *)
Definition same_level (st st' : SymTable) : Prop := previous st' = previous st.


(** A computation of the translating parser that stays on the level of the
    scope it starts in, whether it returns or raises. *)
Definition keeps_level {L A} (m : Legacy.M L A) : Prop :=
  ∀ p, match m p with
       | Legacy.Done _ p' | Legacy.Raised _ p' =>
           same_level (Legacy._sym_table p) (Legacy._sym_table p')
       | Legacy.Timeout => True
       end.

(** * Properties *)

(** ** Symbol table *)

Lemma SymTable_chain_ind (P : SymTable → Prop) :
  (∀ t, P (mkSymTable t None)) →
  (∀ t enclosing, P enclosing → P (mkSymTable t (Some enclosing))) →
  ∀ st, P st.
Proof.
  intros Hglobal Hnested. fix IH 1. intros [t [enclosing|]].
  - apply Hnested, IH.
  - apply Hglobal.
Qed.

Lemma find_first_scope st id :
  find st id = head (omap (λ t : gmap string Symbol, t !! id) (scopes st)).
Proof.
  induction st as [t|t enclosing IH] using SymTable_chain_ind;
    cbn [find scopes omap list_omap]; destruct (t !! id); cbn; auto.
Qed.

(** C6. [find] returns the binding of the nearest scope that has the name,
    looking in the current scope first and then outwards along [previous];
    it returns [None] exactly when no scope of the chain has the name, and it
    never returns an outer binding that an inner one shadows. *)
Theorem find_nearest_binding (st : SymTable) (id : string) :
  find st id = head (omap (λ t : gmap string Symbol, t !! id) (scopes st)) ∧
  (∀ s, find st id = Some s ↔
        ∃ (i : nat) (t : gmap string Symbol),
          scopes st !! i = Some t ∧ t !! id = Some s ∧
          ∀ (j : nat) (t' : gmap string Symbol),
            (j < i)%nat → scopes st !! j = Some t' → t' !! id = None) ∧
  (find st id = None ↔
     ∀ t : gmap string Symbol, t ∈ scopes st → t !! id = None).
Proof.
  split; [apply find_first_scope|].
  induction st as [t|t enclosing [IHsome IHnone]] using SymTable_chain_ind.
  - split.
    + intros s. cbn [find scopes]. split.
      * destruct (t !! id) eqn:Ht; [|done]. intros [= <-].
        exists 0%nat, t. split_and!; [done..|]. intros j t' Hj. lia.
      * intros (i & t0 & Hi & Hs & _). destruct i; [|done].
        cbn in Hi. injection Hi as <-. by rewrite Hs.
    + cbn [find scopes]. split.
      * destruct (t !! id) eqn:Ht; [done|]. intros _ t0 Hin.
        apply list_elem_of_singleton in Hin as ->. done.
      * intros Hall. rewrite (Hall t); [done|]. by apply list_elem_of_singleton.
  - split.
    + intros s. cbn [find scopes]. split.
      * destruct (t !! id) eqn:Ht.
        -- intros [= <-]. exists 0%nat, t. split_and!; [done..|]. intros j t' Hj. lia.
        -- intros Hf. apply IHsome in Hf as (i & t0 & Hi & Hs & Hbefore).
           exists (S i), t0. split_and!; [done..|].
           intros [|j] t' Hj Hl; cbn in Hl.
           ++ by injection Hl as <-.
           ++ apply (Hbefore j); [lia|done].
      * intros (i & t0 & Hi & Hs & Hbefore). destruct i as [|i].
        -- cbn in Hi. injection Hi as <-. by rewrite Hs.
        -- rewrite (Hbefore 0%nat t); [|lia|done].
           apply IHsome. exists i, t0. split_and!; [done..|].
           intros j t' Hj Hl. apply (Hbefore (S j)); [lia|done].
    + cbn [find scopes]. split.
      * destruct (t !! id) eqn:Ht; [done|]. intros Hf t0 Hin.
        apply elem_of_cons in Hin as [->|Hin]; [done|].
        by apply IHnone.
      * intros Hall. rewrite (Hall t); [|by left].
        apply IHnone. intros t0 Hin. apply Hall. by right.
Qed.

(** ** The lexer at the end of its input *)

Lemma advance_exhausted lx :
  pending (_istream lx) = [] →
  _peek (advance lx) = None ∧ pending (_istream (advance lx)) = [].
Proof.
  intros Hp. unfold advance, _get_next_char.
  destruct (_eof_reached (_istream lx)); [done|].
  rewrite Hp. done.
Qed.

Lemma scan_end_marker n lx :
  _peek lx = None →
  scan (S (S n)) lx = Some (end_marker (next_oid lx), snd (fresh lx)).
Proof. destruct lx as [ln cl pk ist tb lg o]. cbn. intros ->. reflexivity. Qed.

(** C10. Once the pending character is the empty end marker, every call of
    [scan] returns the end marker (tag name [""]): it does not raise, and it
    leaves the lexer as it was, the stream included, except for the identity
    drawn for the token it builds.  So do any number of calls in a row. *)
Theorem scan_past_end_stable (lx : Lexer) (n k : nat) :
  _peek lx = None →
  scan_times (S (S n)) k lx =
    Some (end_marker <$> seq (next_oid lx) k,
          mkLexer (_line lx) (_cached_line lx) None (_istream lx) (_id_table lx)
            (_logged_token lx) (next_oid lx + k)).
Proof.
  revert lx. induction k as [|k IH]; intros lx Hpeek.
  - cbn. destruct lx; cbn in *. subst. by rewrite Nat.add_0_r.
  - cbn [scan_times]. rewrite scan_end_marker by done.
    rewrite IH by (by destruct lx).
    destruct lx; cbn in *. subst. do 3 f_equal. lia.
Qed.

Lemma scan_past_end_stable_witness :
  _peek (advance (lex "")) = None ∧
  scan_times 2 3 (advance (lex "")) =
    Some ([end_marker 15; end_marker 16; end_marker 17],
          mkLexer 1 1 None (mkInputStream [] true) (seeded_table 0) 0 18).
Proof.
  split; [reflexivity|].
  exact (scan_past_end_stable (advance (lex "")) 0 3 eq_refl).
Defined.

(** ** The lexer on punctuation *)

Lemma advance_plain lx c rest :
  _eof_reached (_istream lx) = false →
  pending (_istream lx) = c :: rest →
  c ≠ TAB → c ≠ LF → c ≠ CR →
  advance lx =
    mkLexer (_line lx) (_cached_line lx) (Some c) (mkInputStream rest false)
      (_id_table lx) (_logged_token lx) (next_oid lx).
Proof.
  intros Heof Hpending Htab Hlf Hcr. unfold advance, _get_next_char.
  rewrite Heof, Hpending. cbn [next_char_from].
  apply Ascii.eqb_neq in Htab, Hlf, Hcr. by rewrite Htab, Hlf, Hcr.
Qed.

Lemma advance_last lx :
  _eof_reached (_istream lx) = false →
  pending (_istream lx) = [] →
  advance lx =
    mkLexer (_line lx) (_cached_line lx) None (mkInputStream [] true)
      (_id_table lx) (_logged_token lx) (next_oid lx).
Proof.
  intros Heof Hpending. unfold advance, _get_next_char.
  by rewrite Heof, Hpending.
Qed.

Lemma punctuation_not_special c :
  punctuation c = true →
  isspace c = false ∧ isdigit c = false ∧ isalpha c = false ∧
  Ascii.eqb c "#" = false ∧ Ascii.eqb c "/" = false ∧ Ascii.eqb c "\" = false.
Proof.
  unfold punctuation. rewrite negb_true_iff, !orb_false_iff. tauto.
Qed.

Lemma scan_pass_punctuation n lx c :
  _peek lx = Some c → punctuation c = true →
  scan_pass (S n) lx = Some (scan_operator lx).
Proof.
  intros Hpeek (Hsp & Hdg & Hal & Hhash & Hslash & Hback)%punctuation_not_special.
  unfold scan_pass, line_continuation.
  rewrite Hpeek. cbn [is_char]. rewrite Hback. cbn [andb or_next skip_spaces].
  rewrite Hpeek. cbn [holds]. rewrite Hsp. cbn [or_next].
  unfold scan_number. rewrite Hpeek. cbn [holds]. rewrite Hdg. cbn [or_next].
  unfold scan_word. rewrite Hpeek. cbn [holds]. rewrite Hal. cbn [or_next].
  unfold hash_comments. rewrite Hpeek. cbn [is_char]. rewrite Hhash. cbn [or_next].
  unfold slash_comments. rewrite Hpeek. cbn [is_char]. by rewrite Hslash.
Qed.

Lemma scan_punctuation n lx c :
  _peek lx = Some c → punctuation c = true →
  scan (S (S n)) lx =
    Some (Token_ (next_oid lx) (Tag_of_char c), advance (punctuation_seen c lx)).
Proof.
  intros Hpeek Hpunct. cbn [scan]. rewrite (scan_pass_punctuation _ _ c) by done.
  apply punctuation_not_special in Hpunct as (Hsp & _).
  unfold scan_operator, punctuation_seen, fresh. cbn [_peek fst snd]. rewrite Hpeek.
  cbn [Token_of_str].
  assert (Hnot : bool_decide (c ∈ [" "%char; CR; TAB]) = false).
  { apply bool_decide_eq_false. intros Hin.
    repeat (apply elem_of_cons in Hin as [->|Hin]; [done|]).
    by apply elem_of_nil in Hin. }
  by rewrite Hnot.
Qed.

Lemma punctuation_seen_istream c lx :
  _istream (punctuation_seen c lx) = _istream lx.
Proof. unfold punctuation_seen. by destruct (negb _). Qed.

(** A blank before the first token is skipped within the same pass. *)
Lemma scan_leading_blank n lx :
  _peek lx = Some " "%char →
  holds isspace (_peek (advance lx)) = false →
  is_char (_peek (advance lx)) "\" = false →
  scan (S (S (S n))) lx = scan (S (S (S n))) (advance lx).
Proof.
  intros Hpeek Hsp Hback. cbn [scan]. f_equal.
  unfold scan_pass, line_continuation. rewrite Hpeek, Hback.
  cbn [is_char]. change (Ascii.eqb " " "\") with false.
  cbn [andb or_next skip_spaces]. rewrite Hpeek.
  cbn [holds is_char]. change (isspace " ") with true.
  change (Ascii.eqb " " LF) with false. cbv iota. by rewrite Hsp.
Qed.

(** ** The lexer moving on *)

Lemma advance_move lx k c c' rest :
  c' ≠ TAB → c' ≠ LF → c' ≠ CR →
  advance (move lx k c (c' :: rest)) = move lx k c' rest.
Proof. intros. by rewrite (advance_plain _ c' rest). Qed.

Lemma advance_move_LF lx k c rest :
  advance (move lx k c (LF :: rest)) = move lx (k + 1) LF rest.
Proof. unfold advance, _get_next_char, move. cbn. by rewrite Z.add_assoc. Qed.

(** ** The identifier table *)

Lemma advance_table lx : _id_table (advance lx) = _id_table lx.
Proof.
  unfold advance, _get_next_char. destruct (_eof_reached _); [done|].
  by destruct (next_char_from _ _) as [[c st] line'].
Qed.

Lemma ord_bounded c : ord c < 256.
Proof.
  unfold ord. pose proof (N_ascii_bounded c) as Hc. lia.
Qed.

Lemma Token_of_str_char_like o c : char_like (Token_of_str o c).
Proof. destruct c as [c|]; [apply ord_bounded|reflexivity]. Qed.

Lemma line_interrupt_table lx :
  _id_table (_log_line_interrupt lx).2 = _id_table lx ∧
  ∀ t, (_log_line_interrupt lx).1 = Some t → char_like t.
Proof.
  unfold _log_line_interrupt. destruct (negb _).
  - cbn. split; [apply advance_table|]. intros t [= <-]. reflexivity.
  - by destruct (negb _).
Qed.

Lemma quiet_after lx lx1 r : _id_table lx1 = _id_table lx → quiet lx1 r → quiet lx r.
Proof. intros Heq. destruct r as [[t lx'|lx']|lx']; cbn; by rewrite Heq. Qed.

Lemma skip_spaces_quiet n : ∀ lx r, skip_spaces n lx = Some r → quiet lx r.
Proof.
  induction n as [|n IH]; intros lx r; [done|]. cbn [skip_spaces].
  destruct (holds isspace (_peek lx)); [|by intros [= <-]].
  destruct (is_char (_peek lx) LF).
  - pose proof (line_interrupt_table lx) as [Htable Htoken].
    destruct (_log_line_interrupt lx) as [[t|] lx1]; cbn in *.
    + intros [= <-]. cbn. eauto.
    + intros Hr%IH. eapply quiet_after; [|exact Hr].
      by rewrite advance_table.
  - intros Hr%IH. eapply quiet_after; [|exact Hr]. by rewrite advance_table.
Qed.

Lemma read_digits_table n : ∀ num_str lx r,
  read_digits n num_str lx = Some r → _id_table r.2 = _id_table lx.
Proof.
  induction n as [|n IH]; intros num_str lx r; [done|]. cbn [read_digits].
  destruct (_peek lx) as [c|]; [|by intros [= <-]].
  destruct (isdigit c); [|by intros [= <-]].
  intros Hr%IH. by rewrite advance_table in Hr.
Qed.

Lemma read_alphas_table n : ∀ id_str lx r,
  read_alphas n id_str lx = Some r → _id_table r.2 = _id_table lx.
Proof.
  induction n as [|n IH]; intros id_str lx r; [done|]. cbn [read_alphas].
  destruct (_peek lx) as [c|]; [|by intros [= <-]].
  destruct (isalpha c); [|by intros [= <-]].
  intros Hr%IH. by rewrite advance_table in Hr.
Qed.

Lemma skip_line_table n : ∀ lx lx', skip_line n lx = Some lx' → _id_table lx' = _id_table lx.
Proof.
  induction n as [|n IH]; intros lx lx'; [done|]. cbn [skip_line].
  destruct (_peek lx) as [c|]; [|by intros [= <-]].
  destruct (Ascii.eqb c LF); [by intros [= <-]|].
  intros Hr%IH. by rewrite advance_table in Hr.
Qed.

Lemma comment_inner_table n sy : ∀ lx nesting had_nl r,
  comment_inner n sy lx nesting had_nl = Some r → _id_table r.1.1 = _id_table lx.
Proof.
  induction n as [|n IH]; intros lx nesting had_nl r; [done|]. cbn [comment_inner].
  destruct (not_at_close sy lx); [|by intros [= <-]].
  destruct (is_char (_peek (advance lx)) LF);
    [destruct (at_open sy (advance (advance lx)))|destruct (at_open sy (advance lx))];
    intros Hr%IH; by rewrite ?advance_table in Hr.
Qed.

Lemma comment_outer_table n sy : ∀ lx nesting had_nl r,
  comment_outer n sy lx nesting had_nl = Some r → _id_table r.2 = _id_table lx.
Proof.
  induction n as [|n IH]; intros lx nesting had_nl r; [done|]. cbn [comment_outer].
  destruct (0 <? nesting); [|by intros [= <-]].
  destruct (comment_inner n sy lx nesting had_nl) as [[[lx1 nesting1] had_nl1]|] eqn:Hinner;
    [|done].
  apply comment_inner_table in Hinner. cbn in Hinner.
  intros Hr%IH. by rewrite !advance_table, Hinner in Hr.
Qed.

Lemma scan_number_quiet n lx r : scan_number n lx = Some r → quiet lx r.
Proof.
  unfold scan_number. destruct (holds isdigit (_peek lx)); [|by intros [= <-]].
  destruct (read_digits n "" lx) as [[num_str lx1]|] eqn:Hdigits; [|done].
  apply read_digits_table in Hdigits. cbn in Hdigits.
  destruct (negb _).
  - by intros [= <-].
  - destruct (read_digits n _ (advance lx1)) as [[num_str2 lx2]|] eqn:Hmore; [|done].
    apply read_digits_table in Hmore. cbn in Hmore. rewrite advance_table in Hmore.
    intros [= <-]. cbn. congruence.
Qed.

Lemma after_line_comment_quiet lx : quiet lx (after_line_comment lx).
Proof.
  unfold after_line_comment. destruct (is_char (_peek lx) LF); [|done].
  pose proof (line_interrupt_table lx) as [Htable Htoken].
  destruct (_log_line_interrupt lx) as [[t|] lx1]; cbn in *; [eauto|].
  by rewrite advance_table.
Qed.

Lemma after_block_comment_quiet had_nl lx :
  quiet lx (inl (after_block_comment had_nl lx)).
Proof.
  unfold after_block_comment. destruct had_nl; [|done].
  destruct (negb _); [|cbn; apply advance_table].
  pose proof (line_interrupt_table lx) as [Htable Htoken].
  destruct (_log_line_interrupt lx) as [[t|] lx1]; cbn in *; [eauto|].
  by rewrite advance_table.
Qed.

Lemma hash_comments_quiet n lx r : hash_comments n lx = Some r → quiet lx r.
Proof.
  unfold hash_comments. destruct (is_char (_peek lx) "#"); [|by intros [= <-]].
  destruct (is_char (peek (_istream lx)) "<").
  - destruct (_nesting_comment n hash_comment lx) as [[had_nl lx1]|] eqn:Hcomment;
      [|done].
    apply comment_outer_table in Hcomment. intros [= <-].
    eapply quiet_after; [exact Hcomment|apply after_block_comment_quiet].
  - destruct (skip_line n lx) as [lx1|] eqn:Hline; [|done].
    apply skip_line_table in Hline. intros [= <-].
    eapply quiet_after; [exact Hline|apply after_line_comment_quiet].
Qed.

Lemma slash_comments_quiet n lx r : slash_comments n lx = Some r → quiet lx r.
Proof.
  unfold slash_comments. destruct (is_char (_peek lx) "/"); [|by intros [= <-]].
  destruct (is_char (peek (_istream lx)) "/").
  - destruct (skip_line n lx) as [lx1|] eqn:Hline; [|done].
    apply skip_line_table in Hline. intros [= <-].
    eapply quiet_after; [exact Hline|apply after_line_comment_quiet].
  - destruct (is_char (peek (_istream lx)) "*"); [|by intros [= <-]].
    destruct (_nesting_comment n slash_comment lx) as [[had_nl lx1]|] eqn:Hcomment;
      [|done].
    apply comment_outer_table in Hcomment. intros [= <-].
    eapply quiet_after; [exact Hcomment|apply after_block_comment_quiet].
Qed.

Lemma scan_operator_quiet lx : quiet lx (inl (scan_operator lx)).
Proof.
  unfold scan_operator, fresh. cbn [_peek].
  destruct (_peek lx) as [c|] eqn:Hpeek; cbn [Token_of_str].
  - destruct (bool_decide _); cbn.
    + by rewrite advance_table.
    + rewrite advance_table. split; [by destruct (negb _)|apply ord_bounded].
  - cbn. split; [done|reflexivity].
Qed.

Lemma grows_refl lx lx' : _id_table lx' = _id_table lx → grows lx lx'.
Proof. intros Heq. unfold grows. by rewrite Heq. Qed.

Lemma grows_trans lx1 lx2 lx3 : grows lx1 lx2 → grows lx2 lx3 → grows lx1 lx3.
Proof.
  intros [Hsub12 Hinv12] [Hsub23 Hinv23]. split; [by etrans|auto].
Qed.

(** The lookup that ends a word: the token is the one the table holds under
    the spelling afterwards, and what the table held it still holds. *)
Lemma intern_spec id_str lx :
  grows lx (intern id_str lx).2 ∧
  _id_table (intern id_str lx).2 !! id_str = Some (intern id_str lx).1.
Proof.
  unfold intern. destruct (_id_table lx !! id_str) as [t|] eqn:Hlookup; cbn.
  - split; [by apply grows_refl|done].
  - split; [|apply lookup_insert_eq]. split.
    + by apply insert_subseteq.
    + intros Hinv k t. cbn [_id_table set_logged set_id_table].
      rewrite lookup_insert. case_decide as Hk.
      * intros [= <-]. right. rewrite Hk. by eexists.
      * apply Hinv.
Qed.

Lemma scan_word_spec n lx r :
  scan_word n lx = Some r →
  match r with
  | inl (Return t lx') => grows lx lx' ∧ from_table (_id_table lx') t
  | inl (Continue lx') | inr lx' => _id_table lx' = _id_table lx
  end.
Proof.
  unfold scan_word. destruct (holds isalpha (_peek lx)); [|by intros [= <-]].
  destruct (read_alphas n "" lx) as [[id_str lx1]|] eqn:Halphas; [|done].
  apply read_alphas_table in Halphas. cbn in Halphas.
  pose proof (intern_spec id_str lx1) as [Hgrows Hstored].
  destruct (intern id_str lx1) as [t lx2]. cbn in *. intros [= <-]. split.
  - eapply grows_trans; [by apply grows_refl|done].
  - by exists id_str.
Qed.

(** One pass of [scan]. *)
Lemma scan_pass_spec n lx f :
  scan_pass n lx = Some f →
  match f with
  | Return t lx' => grows lx lx' ∧ (char_like t ∨ from_table (_id_table lx') t)
  | Continue lx' => grows lx lx'
  end.
Proof.
  assert (Hquiet : ∀ lx0 (r : Flow + Lexer) (k : Lexer → option Flow),
    _id_table lx0 = _id_table lx → quiet lx0 r →
    (∀ lx1, _id_table lx1 = _id_table lx → k lx1 = Some f →
       match f with
       | Return t lx' => grows lx lx' ∧ (char_like t ∨ from_table (_id_table lx') t)
       | Continue lx' => grows lx lx'
       end) →
    or_next (Some r) k = Some f →
    match f with
    | Return t lx' => grows lx lx' ∧ (char_like t ∨ from_table (_id_table lx') t)
    | Continue lx' => grows lx lx'
    end).
  { intros lx0 [[t lx'|lx']|lx'] k Heq Hr Hk; cbn in *.
    - intros [= <-]. destruct Hr as [Htable Hchar].
      split; [apply grows_refl; congruence|by left].
    - intros [= <-]. apply grows_refl. congruence.
    - apply Hk. congruence. }
  unfold scan_pass.
  apply (Hquiet lx); [done|unfold line_continuation; destruct (_ && _); cbn;
                       by rewrite ?advance_table|].
  intros lx0 H0. destruct (skip_spaces n lx0) as [r1|] eqn:H1; [|done].
  apply (Hquiet lx0); [done|by apply (skip_spaces_quiet n)|].
  intros lx1 H1'. destruct (scan_number n lx1) as [r2|] eqn:H2; [|done].
  apply (Hquiet lx1); [done|by apply (scan_number_quiet n)|].
  intros lx2 H2'. destruct (scan_word n lx2) as [r3|] eqn:H3; [|done].
  apply scan_word_spec in H3.
  destruct r3 as [[t lx'|lx']|lx3]; cbn [or_next].
  - intros [= <-]. destruct H3 as [Hgrows Hfrom]. split; [|by right].
    eapply grows_trans; [apply grows_refl; exact H2'|done].
  - intros [= <-]. apply grows_refl. congruence.
  - destruct (hash_comments n lx3) as [r4|] eqn:H4; [|done].
    apply (Hquiet lx3); [congruence|by apply (hash_comments_quiet n)|].
    intros lx4 H4'. destruct (slash_comments n lx4) as [r5|] eqn:H5; [|done].
    apply (Hquiet lx4); [done|by apply (slash_comments_quiet n)|].
    intros lx5 H5'. intros [= <-].
    pose proof (scan_operator_quiet lx5) as Hop.
    destruct (scan_operator lx5) as [t lx'|lx']; cbn in Hop.
    + destruct Hop as [Htable Hchar]. split; [apply grows_refl; congruence|by left].
    + apply grows_refl. congruence.
Qed.

(** What [scan] does to the table, and where its tokens come from. *)
Lemma scan_spec n : ∀ lx t lx',
  scan n lx = Some (t, lx') →
  grows lx lx' ∧ (char_like t ∨ from_table (_id_table lx') t).
Proof.
  induction n as [|n IH]; intros lx t lx'; [done|]. cbn [scan].
  destruct (scan_pass n lx) as [[t1 lx1|lx1]|] eqn:Hpass; [| |done];
    apply scan_pass_spec in Hpass.
  - by intros [= <- <-].
  - intros [Hgrows Htoken]%IH. split; [by eapply grows_trans|done].
Qed.

Lemma scan_times_spec n k : ∀ lx ts lx',
  scan_times n k lx = Some (ts, lx') →
  grows lx lx' ∧ Forall (λ t, char_like t ∨ from_table (_id_table lx') t) ts.
Proof.
  induction k as [|k IH]; intros lx ts lx'; cbn [scan_times].
  - intros [= <- <-]. split; [by apply grows_refl|constructor].
  - destruct (scan n lx) as [[t lx1]|] eqn:Hscan; [|done].
    destruct (scan_times n k lx1) as [[ts2 lx2]|] eqn:Hrest; [|done].
    intros [= <- <-]. apply scan_spec in Hscan as [Hgrows1 Htoken].
    apply IH in Hrest as [Hgrows2 Htokens].
    split; [by eapply grows_trans|]. constructor; [|done].
    destruct Htoken as [?|[key Hkey]]; [by left|right].
    exists key. eapply lookup_weaken; [exact Hkey|apply Hgrows2].
Qed.

Lemma seeded_table_inv : table_inv (seeded_table 0).
Proof. intros k t Hk. by left. Qed.

Lemma seeded_no_identifier k o s : seeded_table 0 !! k ≠ Some (Id o s).
Proof.
  unfold seeded_table.
  repeat (rewrite lookup_insert; case_decide; [discriminate|]).
  by rewrite lookup_empty.
Qed.

(** Interning, for any sequence of calls of [scan] on a lexer whose table is
    as [_init_id_table] and earlier calls have left it: an identifier token
    that comes back is the one the table holds under its spelling, so two
    that are spelt alike are one instance; and a type token that comes back
    is one of the seeded instances. *)
Lemma scan_interns n k lx ts lx' :
  table_inv (_id_table lx) →
  scan_times n k lx = Some (ts, lx') →
  (∀ o s, Id o s ∈ ts → _id_table lx' !! s = Some (Id o s)) ∧
  (∀ o1 o2 s, Id o1 s ∈ ts → Id o2 s ∈ ts → o1 = o2) ∧
  (∀ o s, Type_ o s ∈ ts → ∃ k, seeded_table 0 !! k = Some (Type_ o s)).
Proof.
  intros Hinv [[Hsub Hkeeps] Htokens]%scan_times_spec.
  specialize (Hkeeps Hinv). rewrite Forall_forall in Htokens.
  assert (Hid : ∀ o s, Id o s ∈ ts → _id_table lx' !! s = Some (Id o s)).
  { intros o s [Hchar|[key Hkey]]%Htokens; [done|].
    destruct (Hkeeps _ _ Hkey) as [Hseeded|[o' [= -> ->]]]; [|done].
    by apply seeded_no_identifier in Hseeded. }
  split_and!; [done| |].
  - intros o1 o2 s H1%Hid H2%Hid. congruence.
  - intros o s [Hchar|[key Hkey]]%Htokens; [done|].
    destruct (Hkeeps _ _ Hkey) as [Hseeded|[o' [=]]]. by exists key.
Qed.

(** *** Words *)

Lemma snoc_append s c t : snoc s c +:+ t = s +:+ String c t.
Proof.
  unfold snoc. induction s as [|d s IH]; [done|].
  change (String d ((s +:+ String c "") +:+ t) = String d (s +:+ String c t)).
  by f_equal.
Qed.

Lemma last_after {A} (w : list A) c d : List.last (d :: w) c = List.last w d.
Proof.
  revert c d. induction w as [|e w IH]; intros c d; [done|].
  change (List.last (e :: w) c = List.last (e :: w) d).
  by rewrite (IH c e), (IH d e).
Qed.

Lemma alpha_plain c :
  isalpha c = true →
  isspace c = false ∧ isdigit c = false ∧ Ascii.eqb c "\" = false ∧
  c ≠ TAB ∧ c ≠ LF ∧ c ≠ CR.
Proof. by destruct c as [[] [] [] [] [] [] [] []]. Qed.

(** The letters [c :: w] are read up to the character that is no letter. *)
Lemma read_alphas_word w : ∀ n id_str lx k c rest,
  isalpha c = true →
  Forall (λ d, isalpha d = true) w →
  holds isalpha (_peek (advance (move lx k (List.last w c) rest))) = false →
  (length w + 2 ≤ n)%nat →
  read_alphas n id_str (move lx k c (w ++ rest)) =
    Some (id_str +:+ string_of_list_ascii (c :: w),
          advance (move lx k (List.last w c) rest)).
Proof.
  induction w as [|d w IH]; intros n id_str lx k c rest Hc Hw Hstop Hn;
    cbn [length] in Hn.
  - destruct n as [|[|n]]; [lia..|]. cbn [app List.last] in *.
    cbn [read_alphas _peek move]. rewrite Hc.
    change (_peek (mkLexer ?a ?b ?c ?d ?e ?f ?g)) with c.
    destruct (_peek (advance (move lx k c rest))) as [stop|] eqn:Hpeek.
    + cbn [holds] in Hstop. by rewrite Hstop.
    + done.
  - destruct n as [|n]; [lia|].
    apply Forall_cons in Hw as [Hd Hw].
    destruct (alpha_plain d Hd) as (_ & _ & _ & Htab & Hlf & Hcr).
    cbn [app read_alphas _peek move]. rewrite Hc.
    fold (move lx k c (d :: w ++ rest)). rewrite advance_move by done.
    rewrite last_after in Hstop |- *.
    rewrite (IH n (snoc id_str c) lx k d rest) by (done || lia).
    by rewrite snoc_append.
Qed.

(** A call of [scan] on a lexer that stands on a word ends in the lookup of
    the word in the table. *)
Lemma scan_spelling n lx k c w rest :
  isalpha c = true →
  Forall (λ d, isalpha d = true) w →
  holds isalpha (_peek (advance (move lx k (List.last w c) rest))) = false →
  (length w + 2 ≤ n)%nat →
  scan (S n) (move lx k c (w ++ rest)) =
    Some (intern (string_of_list_ascii (c :: w))
            (advance (move lx k (List.last w c) rest))).
Proof.
  intros Hc Hw Hstop Hn.
  destruct (alpha_plain c Hc) as (Hsp & Hdg & Hback & _).
  cbn [scan]. unfold scan_pass, line_continuation.
  cbn [_peek move is_char]. rewrite Hback. cbn [andb or_next].
  destruct n as [|n]; [lia|]. cbn [skip_spaces _peek move holds].
  rewrite Hsp. cbn [or_next].
  unfold scan_number. cbn [_peek move holds]. rewrite Hdg. cbn [or_next].
  unfold scan_word. cbn [_peek move holds]. rewrite Hc.
  fold (move lx k c (w ++ rest)).
  rewrite (read_alphas_word w (S n) "" lx k c rest) by done.
  cbn [String.append or_next].
  by destruct (intern _ _) as [t lx'].
Qed.

(** A spelling the table knows comes back as the instance the table holds,
    and the table stays as it is. *)
Lemma intern_known id_str lx t :
  _id_table lx !! id_str = Some t →
  (intern id_str lx).1 = t ∧ _id_table (intern id_str lx).2 = _id_table lx.
Proof. intros Hknown. unfold intern. by rewrite Hknown. Qed.

(** A new spelling comes back as a new identifier, which the table holds
    from then on. *)
Lemma intern_new id_str lx :
  _id_table lx !! id_str = None →
  (intern id_str lx).1 = Id (next_oid lx) id_str ∧
  _id_table (intern id_str lx).2 !! id_str = Some (Id (next_oid lx) id_str).
Proof.
  intros Hnew. unfold intern. rewrite Hnew. cbn. by rewrite lookup_insert_eq.
Qed.

(** C7. The reserved word [i8] is in the table from the start, yet the text
    [i8] does not come back as that token: a word is a run of letters, so
    [scan] returns a new identifier [i] and then the number 8.  The same
    holds for [i16], [u16], [u32], [i64] and [u64]. *)
Theorem scan_i8_misses_seeded_type :
  _id_table (lex "i8") !! "i8" = Some (Type_ 8 "i8") ∧
  fst <$> scan_times 3 3 (lex "i8") = Some [Id 15 "i"; Num 16 8; end_marker 17].
Proof. split; vm_compute; reflexivity. Qed.

(** The reserved words made of letters do come back as the seeded instance,
    each time, and a new identifier as the instance made at its first
    occurrence. *)
Example scan_reserved_and_new_words :
  fst <$> scan_times 9 9 (lex "int x true int void x y true x") =
  Some [Type_ 2 "int"; Id 15 "x"; Token_ 0 Tags.TRUE; Type_ 2 "int";
        Type_ 14 "void"; Id 15 "x"; Id 16 "y"; Token_ 0 Tags.TRUE; Id 15 "x"].
Proof. vm_compute. reflexivity. Qed.

(** ** Block comments *)

Lemma scan_enters_hash_comment n lx :
  _peek lx = Some "#"%char → peek (_istream lx) = Some "<"%char →
  scan (S (S n)) lx =
    match _nesting_comment (S n) hash_comment lx with
    | None => None
    | Some (had_nl, lx1) =>
        match after_block_comment had_nl lx1 with
        | Return t lx' => Some (t, lx')
        | Continue lx' => scan (S n) lx'
        end
    end.
Proof.
  intros Hpeek Hnext. cbn [scan]. unfold scan_pass, line_continuation.
  rewrite Hpeek. cbn [is_char]. change (Ascii.eqb "#" "\") with false.
  cbn [andb or_next skip_spaces]. rewrite Hpeek. cbn [holds].
  change (isspace "#") with false. cbn [or_next].
  unfold scan_number. rewrite Hpeek. cbn [holds].
  change (isdigit "#") with false. cbn [or_next].
  unfold scan_word. rewrite Hpeek. cbn [holds].
  change (isalpha "#") with false. cbn [or_next].
  unfold hash_comments. rewrite Hpeek, Hnext. cbn [is_char].
  change (Ascii.eqb "#" "#") with true. change (Ascii.eqb "<" "<") with true.
  cbv iota.
  by destruct (_nesting_comment (S n) hash_comment lx) as [[had_nl lx1]|].
Qed.

Lemma scan_enters_slash_comment n lx :
  _peek lx = Some "/"%char → peek (_istream lx) = Some "*"%char →
  scan (S (S n)) lx =
    match _nesting_comment (S n) slash_comment lx with
    | None => None
    | Some (had_nl, lx1) =>
        match after_block_comment had_nl lx1 with
        | Return t lx' => Some (t, lx')
        | Continue lx' => scan (S n) lx'
        end
    end.
Proof.
  intros Hpeek Hnext. cbn [scan]. unfold scan_pass, line_continuation.
  rewrite Hpeek. cbn [is_char]. change (Ascii.eqb "/" "\") with false.
  cbn [andb or_next skip_spaces]. rewrite Hpeek. cbn [holds].
  change (isspace "/") with false. cbn [or_next].
  unfold scan_number. rewrite Hpeek. cbn [holds].
  change (isdigit "/") with false. cbn [or_next].
  unfold scan_word. rewrite Hpeek. cbn [holds].
  change (isalpha "/") with false. cbn [or_next].
  unfold hash_comments. rewrite Hpeek. cbn [is_char].
  change (Ascii.eqb "/" "#") with false. cbn [or_next].
  unfold slash_comments. rewrite Hpeek, Hnext. cbn [is_char].
  change (Ascii.eqb "/" "/") with true. change (Ascii.eqb "*" "/") with false.
  change (Ascii.eqb "*" "*") with true. cbv iota.
  by destruct (_nesting_comment (S n) slash_comment lx) as [[had_nl lx1]|].
Qed.

(** *** A comment that is not closed *)

Lemma has_close_tail sy c cs : has_close sy (c :: cs) = false → has_close sy cs = false.
Proof. cbn [has_close]. by intros [_ ?]%orb_false_iff. Qed.

Lemma has_close_LF sy cs :
  sym2 sy ≠ LF → has_close sy cs = false → has_close sy (LF :: cs) = false.
Proof.
  intros Hlf Hcs. cbn [has_close]. rewrite Hcs.
  destruct (Ascii.eqb LF (sym2 sy)) eqn:Heq; [|done].
  apply Ascii.eqb_eq in Heq. congruence.
Qed.

Lemma next_char_from_no_close sy src line :
  sym2 sy ≠ LF → has_close sy src = false →
  has_close sy (option_list (next_char_from src line).1.1
                ++ pending (next_char_from src line).1.2) = false.
Proof.
  intros Hlf. induction src as [|c rest IH]; intros Hsrc; cbn [next_char_from].
  - done.
  - destruct (Ascii.eqb c TAB); [by apply IH, (has_close_tail sy c)|].
    destruct (Ascii.eqb c LF || _).
    + cbn [fst snd option_list pending app]. apply has_close_LF; [done|].
      by apply (has_close_tail sy c).
    + done.
Qed.

Lemma advance_no_close sy lx :
  sym2 sy ≠ LF → has_close sy (text_ahead lx) = false →
  has_close sy (text_ahead (advance lx)) = false.
Proof.
  intros Hlf Hlx. unfold advance, _get_next_char, text_ahead in *.
  destruct (_eof_reached (_istream lx)).
  - cbn. destruct (_peek lx); [by apply (has_close_tail sy a)|done].
  - assert (Hpending : has_close sy (pending (_istream lx)) = false).
    { destruct (_peek lx); [by apply (has_close_tail sy a)|done]. }
    pose proof (next_char_from_no_close sy _ (_line lx) Hlf Hpending) as Hnext.
    by destruct (next_char_from _ _) as [[c st] line'].
Qed.

Lemma no_close_not_at_close sy lx :
  has_close sy (text_ahead lx) = false → not_at_close sy lx = true.
Proof.
  unfold text_ahead, not_at_close, peek. destruct (_peek lx) as [c|]; [|done].
  cbn. intros [Hhere _]%orb_false_iff.
  destruct (Ascii.eqb c (sym2 sy)); [|done]. cbn in Hhere |- *. by rewrite Hhere.
Qed.

(** Without a closing delimiter ahead the inner loop of [_nesting_comment]
    never ends: at the end of the text it keeps reading the end marker. *)
Lemma comment_inner_diverges sy n : ∀ lx nesting had_nl,
  sym2 sy ≠ LF → has_close sy (text_ahead lx) = false →
  comment_inner n sy lx nesting had_nl = None.
Proof.
  induction n as [|n IH]; intros lx nesting had_nl Hlf Hlx; [done|].
  cbn [comment_inner]. rewrite no_close_not_at_close by done.
  destruct (is_char (_peek (advance lx)) LF).
  - destruct (at_open sy (advance (advance lx)));
      (apply IH; [done|]); repeat (apply advance_no_close; [done|]); done.
  - destruct (at_open sy (advance lx));
      (apply IH; [done|]); repeat (apply advance_no_close; [done|]); done.
Qed.

Lemma nesting_comment_diverges sy n lx :
  sym2 sy ≠ LF → has_close sy (text_ahead lx) = false →
  _nesting_comment n sy lx = None.
Proof.
  intros Hlf Hlx. unfold _nesting_comment.
  destruct n as [|n]; [done|]. cbn [comment_outer]. change (0 <? 1) with true.
  cbv iota. by rewrite comment_inner_diverges.
Qed.

Lemma scan_unclosed_example n : scan n (lex example_with_wrong_closers) = None.
Proof.
  destruct n as [|[|[|n]]]; [reflexivity..|].
  rewrite scan_leading_blank by reflexivity.
  rewrite scan_enters_hash_comment by reflexivity.
  by rewrite nesting_comment_diverges.
Qed.

(** X31. A block comment that is not closed hangs the lexer: when [scan]
    stands on [#<] (or [/*]) and no [>#] (or [*/]) follows in the text, it
    never returns, whatever fuel it is given.  The comment loop reads on to
    the end of the text and then keeps reading the end marker. *)
Theorem unclosed_comment_never_returns (sy : Symbols) (lx : Lexer) (n : nat) :
  sy = hash_comment ∨ sy = slash_comment →
  _peek lx = Some (sym0 sy) →
  peek (_istream lx) = Some (sym1 sy) →
  has_close sy (text_ahead lx) = false →
  scan n lx = None.
Proof.
  intros Hsy Hpeek Hnext Hopen.
  destruct n as [|[|n]]; [done| |].
  - cbn [scan]. unfold scan_pass, line_continuation. rewrite Hpeek.
    by destruct Hsy as [-> | ->].
  - assert (Hlf : sym2 sy ≠ LF) by (by destruct Hsy as [-> | ->]).
    destruct Hsy as [-> | ->].
    + rewrite scan_enters_hash_comment by done.
      by rewrite nesting_comment_diverges.
    + rewrite scan_enters_slash_comment by done.
      by rewrite nesting_comment_diverges.
Qed.

(** The example of the specification as it is written there, closed with
    [#>]: no [>#] follows the opening [#<]. *)
Lemma unclosed_comment_never_returns_witness :
  (hash_comment = hash_comment ∨ hash_comment = slash_comment) ∧
  _peek (advance (lex example_with_wrong_closers)) = Some (sym0 hash_comment) ∧
  peek (_istream (advance (lex example_with_wrong_closers))) = Some (sym1 hash_comment) ∧
  has_close hash_comment (text_ahead (advance (lex example_with_wrong_closers))) = false ∧
  scan 100 (advance (lex example_with_wrong_closers)) = None.
Proof.
  split_and!; [by left|reflexivity..|].
  exact (unclosed_comment_never_returns hash_comment
           (advance (lex example_with_wrong_closers)) 100
           (or_introl eq_refl) eq_refl eq_refl eq_refl).
Defined.

(** *** A comment that is closed *)

Section CommentFacts.
Context (sy : Symbols) (Hsy : sy = hash_comment ∨ sy = slash_comment).

Lemma plain_spec c :
  plain sy c = true →
  Ascii.eqb c (sym0 sy) = false ∧ Ascii.eqb c (sym2 sy) = false ∧
  Ascii.eqb c (sym3 sy) = false ∧ c ≠ TAB ∧ c ≠ LF ∧ c ≠ CR.
Proof.
  unfold plain. rewrite negb_true_iff, !orb_false_iff.
  intros (((((H0 & H2) & H3) & Ht) & Hl) & Hc).
  by rewrite H0, H2, H3, <- !Ascii.eqb_neq.
Qed.

Lemma symbols_spec :
  Ascii.eqb (sym0 sy) (sym2 sy) = false ∧ Ascii.eqb (sym1 sy) (sym0 sy) = false ∧
  Ascii.eqb (sym2 sy) (sym0 sy) = false ∧ sym3 sy = sym0 sy ∧
  (sym0 sy ≠ TAB ∧ sym0 sy ≠ LF ∧ sym0 sy ≠ CR) ∧
  (sym1 sy ≠ TAB ∧ sym1 sy ≠ LF ∧ sym1 sy ≠ CR) ∧
  (sym2 sy ≠ TAB ∧ sym2 sy ≠ LF ∧ sym2 sy ≠ CR).
Proof. by destruct Hsy as [-> | ->]. Qed.

Lemma not_at_close_move lx k c rest :
  not_at_close sy (move lx k c rest) =
    negb (Ascii.eqb c (sym2 sy)) || negb (is_char (head rest) (sym3 sy)).
Proof. reflexivity. Qed.

Lemma at_open_move lx k c rest :
  at_open sy (move lx k c rest) =
    Ascii.eqb c (sym0 sy) && is_char (head rest) (sym1 sy).
Proof. reflexivity. Qed.

Lemma is_LF_move lx k c rest :
  is_char (_peek (move lx k c rest)) LF = Ascii.eqb c LF.
Proof. reflexivity. Qed.

(** One pass of the inner loop over an ordinary character. *)
Lemma comment_inner_plain n lx k p c rest nesting had_nl :
  Ascii.eqb p (sym2 sy) = false → plain sy c = true →
  comment_inner (S n) sy (move lx k p (c :: rest)) nesting had_nl =
    comment_inner n sy (move lx k c rest) nesting had_nl.
Proof.
  intros Hp (H0 & H2 & H3 & Ht & Hl & Hc)%plain_spec. cbn [comment_inner].
  rewrite not_at_close_move, Hp. cbn [negb orb].
  rewrite advance_move by done. rewrite is_LF_move.
  apply Ascii.eqb_neq in Hl. rewrite Hl.
  by rewrite at_open_move, H0.
Qed.

Lemma comment_inner_segment seg : ∀ n lx k p nesting had_nl tail,
  Ascii.eqb p (sym2 sy) = false →
  plain_segment sy seg = true →
  (length seg + 2 ≤ n)%nat →
  comment_inner n sy
    (move lx k p (segment_text sy seg ++ sym2 sy :: sym3 sy :: tail))
    nesting had_nl =
  Some (move lx (k + newlines seg) (sym2 sy) (sym3 sy :: tail),
        nesting + opens seg, had_nl || (0 <? newlines seg)).
Proof.
  destruct symbols_spec as (H02 & H10 & H20 & H3 & (H0t & H0l & H0c) &
                            (H1t & H1l & H1c) & (H2t & H2l & H2c)).
  induction seg as [|x seg IH]; intros n lx k p nesting had_nl tail Hp Hseg Hn.
  - destruct n as [|[|n]]; [cbn [length] in Hn; lia..|]. cbn [segment_text app comment_inner].
    rewrite not_at_close_move, Hp. cbn [negb orb].
    rewrite advance_move by done. rewrite is_LF_move.
    apply Ascii.eqb_neq in H2l. rewrite H2l.
    rewrite at_open_move, H20. cbn [andb].
    rewrite not_at_close_move. cbn [head is_char].
    rewrite !Ascii.eqb_refl. cbn [negb orb newlines opens].
    by rewrite !Z.add_0_r, orb_false_r.
  - cbn [length] in Hn. destruct n as [|n]; [lia|].
    cbn [plain_segment forallb] in Hseg. apply andb_true_iff in Hseg as [Hx Hseg].
    pose proof (plain_spec _ Hx) as (Hx0 & Hx2 & Hx3 & Hxt & Hxl & Hxc).
    destruct x as [c|c|c]; cbn [follower] in *; cbn [segment_text piece_text app].
    + rewrite comment_inner_plain by done.
      rewrite IH by (done || lia). done.
    + cbn [comment_inner]. rewrite not_at_close_move, Hp. cbn [negb orb].
      rewrite advance_move_LF, is_LF_move, Ascii.eqb_refl.
      rewrite advance_move by done. rewrite at_open_move, Hx0. cbn [andb].
      rewrite IH by (done || lia). cbn [newlines opens].
      assert (Hpos : 0 ≤ newlines seg) by (clear; induction seg as [|[]]; cbn; lia).
      replace (k + 1 + newlines seg) with (k + (1 + newlines seg)) by lia.
      replace (0 <? 1 + newlines seg) with true by (symmetry; apply Z.ltb_lt; lia).
      by rewrite orb_true_l, orb_true_r.
    + cbn [comment_inner]. rewrite not_at_close_move, Hp. cbn [negb orb].
      rewrite advance_move by done. rewrite is_LF_move.
      apply Ascii.eqb_neq in H0l. rewrite H0l.
      rewrite at_open_move. cbn [head is_char]. rewrite !Ascii.eqb_refl. cbn [andb].
      rewrite !advance_move by done.
      rewrite IH by (done || lia). cbn [newlines opens].
      by replace (nesting + 1 + opens seg) with (nesting + (1 + opens seg)) by lia.
Qed.

(** The two passes that take the inner loop from the opening delimiter of
    the comment to the character after it. *)
Lemma comment_inner_entry n lx k sep rest nesting had_nl :
  plain sy sep = true →
  comment_inner (S (S n)) sy (move lx k (sym0 sy) (sym1 sy :: sep :: rest))
    nesting had_nl =
  comment_inner n sy (move lx k sep rest) nesting had_nl.
Proof.
  destruct symbols_spec as (H02 & H10 & H20 & H3 & (H0t & H0l & H0c) &
                            (H1t & H1l & H1c) & (H2t & H2l & H2c)).
  intros Hsep. pose proof Hsep as (Hs0 & Hs2 & Hs3 & Hst & Hsl & Hsc)%plain_spec.
  cbn [comment_inner].
  rewrite not_at_close_move, H02. cbn [negb orb].
  rewrite advance_move by done. rewrite is_LF_move.
  apply Ascii.eqb_neq in H1l. rewrite H1l.
  rewrite at_open_move, H10. cbn [andb].
  rewrite not_at_close_move. cbn [head is_char]. rewrite Hs3.
  rewrite orb_true_r.
  rewrite advance_move by done. rewrite is_LF_move.
  apply Ascii.eqb_neq in Hsl. rewrite Hsl.
  by rewrite at_open_move, Hs0.
Qed.

Lemma comment_outer_S n lx nesting had_nl :
  comment_outer (S n) sy lx nesting had_nl =
    if 0 <? nesting then
      match comment_inner n sy lx nesting had_nl with
      | None => None
      | Some (lx1, nesting1, had_nl1) =>
          comment_outer n sy (advance (advance lx1)) (nesting1 - 1) had_nl1
      end
    else Some (had_nl, lx).
Proof. reflexivity. Qed.

(** The outer loop from a closing delimiter on. *)
Lemma comment_outer_rest rest : ∀ n lx k nesting had_nl tail,
  depth_ok nesting rest →
  plain_rest sy rest = true →
  (rest_fuel rest ≤ n)%nat →
  comment_outer n sy
    (advance (advance (move lx k (sym2 sy) (sym3 sy :: rest_text sy rest tail))))
    (nesting - 1) had_nl =
  Some (had_nl || (0 <? rest_newlines rest),
        advance (advance (move lx (k + rest_newlines rest) (sym2 sy)
                            (sym3 sy :: tail)))).
Proof.
  destruct symbols_spec as (H02 & H10 & H20 & H3 & (H0t & H0l & H0c) &
                            (H1t & H1l & H1c) & (H2t & H2l & H2c)).
  induction rest as [|[c seg] rest IH]; intros n lx k nesting had_nl tail Hdepth Hplain Hn.
  - cbn in Hdepth. subst nesting. cbn [rest_fuel] in Hn. destruct n as [|n]; [lia|].
    cbn [comment_outer rest_text rest_newlines]. change (0 <? 1 - 1) with false.
    cbv iota. by rewrite Z.add_0_r, orb_false_r.
  - destruct Hdepth as [Hdeep Hdepth]. cbn [rest_fuel] in Hn.
    destruct n as [|n]; [lia|].
    cbn [plain_rest forallb fst snd] in Hplain.
    apply andb_true_iff in Hplain as [[Hc Hseg]%andb_true_iff Hplain].
    pose proof (plain_spec _ Hc) as (Hc0 & Hc2 & Hc3 & Hct & Hcl & Hcc).
    cbn [rest_text]. rewrite H3 at 1.
    rewrite !advance_move by done.
    cbn [comment_outer]. replace (0 <? nesting - 1) with true by (symmetry; apply Z.ltb_lt; lia).
    rewrite comment_inner_segment by (done || lia).
    rewrite (IH n lx (k + newlines seg) (nesting - 1 + opens seg)) by (done || lia).
    cbn [rest_newlines].
    assert (Hpos : 0 ≤ newlines seg) by (clear; induction seg as [|[]]; cbn; lia).
    assert (Hpos' : 0 ≤ rest_newlines rest).
    { clear. induction rest as [|[c seg] rest IH]; cbn; [lia|].
      assert (0 ≤ newlines seg) by (induction seg as [|[]]; cbn; lia). lia. }
    replace (k + newlines seg + rest_newlines rest)
      with (k + (newlines seg + rest_newlines rest)) by lia.
    replace (0 <? newlines seg + rest_newlines rest)
      with ((0 <? newlines seg) || (0 <? rest_newlines rest)); [by rewrite orb_assoc|].
    destruct (0 <? newlines seg) eqn:Hs, (0 <? rest_newlines rest) eqn:Hr;
      cbn; symmetry; rewrite ?Z.ltb_lt, ?Z.ltb_ge in *; lia.
Qed.

(** [_nesting_comment] on a comment whose delimiters stand apart and are
    matched. *)
Lemma nesting_comment_runs (lx : Lexer) (sep : ascii) (seg0 : list Piece)
    (rest : list (ascii * list Piece)) (tail : list ascii) (n : nat) :
  _peek lx = Some (sym0 sy) →
  pending (_istream lx) = List.tl (comment_text sy sep seg0 rest tail) →
  _eof_reached (_istream lx) = false →
  plain sy sep = true →
  plain_segment sy seg0 = true →
  plain_rest sy rest = true →
  depth_ok (1 + opens seg0) rest →
  (comment_fuel seg0 rest ≤ n)%nat →
  _nesting_comment n sy lx =
    Some (0 <? newlines seg0 + rest_newlines rest,
          advance (advance (move lx (newlines seg0 + rest_newlines rest)
                              (sym2 sy) (sym3 sy :: tail)))).
Proof.
  intros Hpeek Hpending Heof Hsep Hseg0 Hrest Hdepth Hn.
  assert (Hlx : lx = move lx 0 (sym0 sy) (List.tl (comment_text sy sep seg0 rest tail))).
  { destruct lx as [ln cl pk [pd ef] tb lg o]. cbn in *. subst.
    unfold move. cbn. by rewrite Z.add_0_r. }
  unfold comment_fuel in Hn. unfold _nesting_comment.
  destruct n as [|[|[|n]]]; [lia..|].
  rewrite Hlx at 1. cbn [comment_text List.tl]. rewrite comment_outer_S.
  change (0 <? 1) with true. cbv iota.
  rewrite comment_inner_entry by done.
  pose proof (plain_spec _ Hsep) as (_ & Hsep2 & _).
  rewrite comment_inner_segment; [|exact Hsep2|done|lia].
  rewrite (comment_outer_rest rest (S (S n)) lx (0 + newlines seg0) (1 + opens seg0));
    [|done|done|lia].
  assert (Hpos : 0 ≤ newlines seg0) by (clear; induction seg0 as [|[]]; cbn; lia).
  assert (Hpos' : 0 ≤ rest_newlines rest).
  { clear. induction rest as [|[c seg] rest IH]; cbn; [lia|].
    assert (0 ≤ newlines seg) by (induction seg as [|[]]; cbn; lia). lia. }
  cbn [orb]. rewrite Z.add_0_l.
  replace (0 <? newlines seg0 + rest_newlines rest)
    with ((0 <? newlines seg0) || (0 <? rest_newlines rest)); [done|].
  destruct (0 <? newlines seg0) eqn:Hs, (0 <? rest_newlines rest) eqn:Hr;
    cbn; symmetry; rewrite ?Z.ltb_lt, ?Z.ltb_ge in *; lia.
Qed.

Lemma scan_enters_comment n lx :
  _peek lx = Some (sym0 sy) → peek (_istream lx) = Some (sym1 sy) →
  scan (S (S n)) lx =
    match _nesting_comment (S n) sy lx with
    | None => None
    | Some (had_nl, lx1) =>
        match after_block_comment had_nl lx1 with
        | Return t lx' => Some (t, lx')
        | Continue lx' => scan (S n) lx'
        end
    end.
Proof.
  destruct Hsy as [-> | ->];
    [apply scan_enters_hash_comment|apply scan_enters_slash_comment].
Qed.

(** C8. A block comment that holds a line feed costs the character that
    stands directly behind it.  For a comment whose delimiters stand apart
    (every delimiter followed by an ordinary character) and are matched, at
    any depth of nesting, [_nesting_comment] reads past the last closing
    delimiter and counts the lines; but when the comment held a line feed,
    [scan] then reads one character more before it goes on: scanning resumes
    at the second character behind the comment, and the first, [c1], is
    never looked at.  (Stated for a lexer that has logged no token, as at
    the start of the text.) *)
Theorem block_comment_swallows_next_character (lx : Lexer) (sep : ascii)
    (seg0 : list Piece) (rest : list (ascii * list Piece)) (c1 c2 : ascii)
    (tail : list ascii) (n : nat) :
  _peek lx = Some (sym0 sy) →
  pending (_istream lx) = List.tl (comment_text sy sep seg0 rest (c1 :: c2 :: tail)) →
  _eof_reached (_istream lx) = false →
  _logged_token lx = 0 →
  plain sy sep = true →
  plain_segment sy seg0 = true →
  plain_rest sy rest = true →
  depth_ok (1 + opens seg0) rest →
  0 < newlines seg0 + rest_newlines rest →
  c1 ≠ TAB ∧ c1 ≠ LF ∧ c1 ≠ CR →
  c2 ≠ TAB ∧ c2 ≠ LF ∧ c2 ≠ CR →
  (comment_fuel seg0 rest ≤ n)%nat →
  scan (S n) lx = scan n (move lx (newlines seg0 + rest_newlines rest) c2 tail).
Proof.
  intros Hpeek Hpending Heof Hlogged Hsep Hseg0 Hrest Hdepth Hnl
    (H1t & H1l & H1c) (H2t & H2l & H2c) Hn.
  pose proof (nesting_comment_runs lx sep seg0 rest (c1 :: c2 :: tail) n Hpeek
                Hpending Heof Hsep Hseg0 Hrest Hdepth Hn) as Hruns.
  destruct symbols_spec as (_ & _ & _ & H3 & (H0t & H0l & H0c) & _).
  unfold comment_fuel in Hn. destruct n as [|n]; [lia|].
  rewrite scan_enters_comment;
    [|done|unfold peek; by rewrite Hpending].
  rewrite Hruns. apply Z.ltb_lt in Hnl. rewrite Hnl.
  rewrite H3. rewrite !advance_move by done.
  unfold after_block_comment. cbn [_logged_token move]. rewrite Hlogged.
  cbn [Z.eqb negb]. by rewrite advance_move.
Qed.
End CommentFacts.

(** [#< a], a line feed, [ >#var]: the scan goes on from [ar]. *)
Lemma block_comment_swallows_next_character_witness :
  (hash_comment = hash_comment ∨ hash_comment = slash_comment) ∧
  _peek (advance (lex example_line_comment)) = Some (sym0 hash_comment) ∧
  pending (_istream (advance (lex example_line_comment))) =
    List.tl (comment_text hash_comment " " [Plain "a"; Newline " "] []
               ("v"%char :: "a"%char :: ["r"%char])) ∧
  _eof_reached (_istream (advance (lex example_line_comment))) = false ∧
  _logged_token (advance (lex example_line_comment)) = 0 ∧
  plain hash_comment " " = true ∧
  plain_segment hash_comment [Plain "a"; Newline " "] = true ∧
  plain_rest hash_comment [] = true ∧
  depth_ok (1 + opens [Plain "a"; Newline " "]) [] ∧
  0 < newlines [Plain "a"; Newline " "] + rest_newlines [] ∧
  ("v"%char ≠ TAB ∧ "v"%char ≠ LF ∧ "v"%char ≠ CR) ∧
  ("a"%char ≠ TAB ∧ "a"%char ≠ LF ∧ "a"%char ≠ CR) ∧
  (comment_fuel [Plain "a"; Newline " "] [] ≤ 8)%nat ∧
  scan 9 (advance (lex example_line_comment)) =
    scan 8 (move (advance (lex example_line_comment))
              (newlines [Plain "a"; Newline " "] + rest_newlines []) "a" ["r"%char]).
Proof.
  assert (Hdepth : depth_ok (1 + opens [Plain "a"; Newline " "]) []) by reflexivity.
  assert (Hnl : 0 < newlines [Plain "a"; Newline " "] + rest_newlines [])
    by (cbn; lia).
  assert (Hfuel : (comment_fuel [Plain "a"; Newline " "] [] ≤ 8)%nat)
    by (vm_compute; lia).
  assert (Hv : "v"%char ≠ TAB ∧ "v"%char ≠ LF ∧ "v"%char ≠ CR) by done.
  assert (Ha : "a"%char ≠ TAB ∧ "a"%char ≠ LF ∧ "a"%char ≠ CR) by done.
  split_and!; [by left|reflexivity..|exact Hdepth|exact Hnl|apply Hv|apply Hv|apply Hv
              |apply Ha|apply Ha|apply Ha|exact Hfuel|].
  exact (block_comment_swallows_next_character hash_comment (or_introl eq_refl)
           (advance (lex example_line_comment)) " " [Plain "a"; Newline " "] []
           "v" "a" ["r"%char] 8 eq_refl eq_refl eq_refl eq_refl eq_refl eq_refl
           eq_refl Hdepth Hnl Hv Ha Hfuel).
Defined.


(** The same from the text: [var] behind the comment comes back as the
    identifier [ar], on line 2. *)
Example scan_after_comment_with_line_feed :
  (λ r, (r.1, _line r.2)) <$> scan 40 (lex example_line_comment)
    = Some (Id 15 "ar", 2).
Proof. vm_compute. reflexivity. Qed.

(** With a blank behind the comment it is the blank that is lost, and
    [var] is found. *)
Example scan_after_comment_with_line_feed_and_blank :
  fst <$> scan 40 (lex "/* a
 */ var") = Some (Id 15 "var").
Proof. vm_compute. reflexivity. Qed.

(** The example of the specification with the closing delimiters of the
    lexer, [>#]: [scan] goes on behind the comment and returns [var], an
    identifier ([var] is not among the reserved words of the table). *)
Example scan_example_comment :
  fst <$> scan 40 (lex example_comment) = Some (Id 15 "var").
Proof. vm_compute. reflexivity. Qed.

(** Two line feeds inside a nested comment with a blank behind it: the
    token after it is found and the line counter stands at 3. *)
Example scan_comment_with_line_feeds :
  (λ r, (r.1, _line r.2)) <$>
    scan 40 (lex "/* a
 /* b
 c */ d */ x") = Some (Id 15 "x", 3).
Proof. vm_compute. reflexivity. Qed.

(** Openers that touch: the third is not counted, the comment ends one
    closing delimiter early and [>] comes back as a token. *)
Example scan_adjacent_openers :
  fst <$> scan 40 (lex "#<#<#< a >#>#>#") = Some (Token_ 15 (Tag_of_char ">")).
Proof. vm_compute. reflexivity. Qed.

(** [/*/]: the star of the opening delimiter is taken for the star of a
    closing one, the comment ends at once and its text is scanned. *)
Example scan_slash_star_slash :
  fst <$> scan 40 (lex "/*/ x */ y") = Some (Id 15 "x").
Proof. vm_compute. reflexivity. Qed.

(** ** Parser: [match] *)

Section ParserFacts.
Context {L : Type} {src : TokenSource L}.

Lemma Tag_eq_refl t : Tag_eq t t = true.
Proof. apply Z.eqb_refl. Qed.

Lemma Tag_eq_false a b : Tag_value a ≠ Tag_value b → Tag_eq a b = false.
Proof. apply Z.eqb_neq. Qed.

Lemma bind_Done {A B} (m : M L A) (k : A → M L B) p a p' :
  m p = Done a p' → bind m k p = k a p'.
Proof. intros Hm. unfold bind. by rewrite Hm. Qed.

(** C9. When the lookahead's tag differs from the expected one, [match]
    raises [ParseError()] with no argument at all: the exception names
    neither the expected tag nor a line number, whatever they are.  The
    parser is left as it was. *)
Theorem match_failure_is_bare (t : Tag) (p : Parser L) :
  Tag_eq t (Token_tag (_lookahead p)) = false →
  match_ t p = Raised (ParseError []) p.
Proof. intros Hne. unfold match_. by rewrite Hne. Qed.

Lemma match_advances (t : Tag) (p : Parser L) tok l' :
  Tag_eq t (Token_tag (_lookahead p)) = true →
  source_scan (_lexer p) = Some (tok, l') →
  match_ t p = Done tt (mkParser l' tok (_sym_table p)).
Proof. intros Heq Hscan. unfold match_. by rewrite Heq, Hscan. Qed.

Lemma match_sees (t : Tag) (p : Parser L) tok l' :
  Token_tag (_lookahead p) = t →
  source_scan (_lexer p) = Some (tok, l') →
  match_ t p = Done tt (mkParser l' tok (_sym_table p)).
Proof. intros <-. apply match_advances, Tag_eq_refl. Qed.

(** What [match] leaves of the scope: it never touches it, and a failing
    [match] leaves the whole parser as it was. *)
Lemma match_outcome (t : Tag) (p : Parser L) :
  match match_ t p with
  | Done _ p' => _sym_table p' = _sym_table p
  | Raised e p' => e = ParseError [] ∧ p' = p
  | Timeout => True
  end.
Proof.
  unfold match_. destruct (Tag_eq _ _); [|done].
  by destruct (source_scan (_lexer p)) as [[tok l']|].
Qed.

(** *** [factor] *)

Lemma sign_eq_str (op : Token) (c s : ascii) :
  Token_tag op = Tag_of_char c →
  Token_eq_str op (String s EmptyString) = Ascii.eqb c s.
Proof.
  intros Htag. unfold Token_eq_str, Tag_eq_str. rewrite Htag. cbn [Tag_name Tag_of_char].
  cbn [String.eqb]. by destruct (Ascii.eqb c s).
Qed.

(** [factor] behind a sign: what is left to do, with the modifier of the
    sign, on the token after it. *)
Lemma factor_after_sign (p : Parser L) (c : ascii) (tok : Token) (l1 : L) :
  c = "+"%char ∨ c = "-"%char →
  Token_tag (_lookahead p) = Tag_of_char c →
  source_scan (_lexer p) = Some (tok, l1) →
  factor p =
    (if Tag_eq (Token_tag tok) Tags.NUM then
       match Token_value tok with
       | inl e => raise e
       | inr v =>
           bind (match_ Tags.NUM)
             (λ _, ret (Literal (VInt (v * (if Ascii.eqb c "-" then -1 else 1)))))
       end
     else raise (no_attribute "STR_LIT")) (mkParser l1 tok (_sym_table p)).
Proof.
  intros Hc Htag Hscan. unfold factor.
  unfold bind at 1, lookahead at 1.
  rewrite !(sign_eq_str _ c) by done.
  destruct Hc as [-> | ->]; cbn [Ascii.eqb Bool.eqb andb]; cbv iota;
    unfold bind at 1; unfold bind at 1;
    rewrite (match_sees _ p tok l1) by done;
    unfold ret at 1; unfold bind at 1, lookahead; cbn [_lookahead];
    (destruct (Tag_eq (Token_tag tok) Tags.NUM); [done|]);
    by unfold bind, Tags_undefined, raise.
Qed.

Lemma factor_unsigned (p : Parser L) :
  Token_eq_str (_lookahead p) "+" = false →
  Token_eq_str (_lookahead p) "-" = false →
  factor p =
    (if Tag_eq (Token_tag (_lookahead p)) Tags.NUM then
       match Token_value (_lookahead p) with
       | inl e => raise e
       | inr v => bind (match_ Tags.NUM) (λ _, ret (Literal (VInt (v * 1))))
       end
     else raise (no_attribute "STR_LIT")) p.
Proof.
  intros Hplus Hminus. unfold factor.
  unfold bind at 1, lookahead at 1. rewrite Hplus, Hminus.
  unfold bind at 1. unfold ret at 1. unfold bind at 1, lookahead.
  destruct (Tag_eq (Token_tag (_lookahead p)) Tags.NUM); [done|].
  by unfold bind, Tags_undefined, raise.
Qed.

(** What the claim has right: a sign before a number is folded into the
    literal, and a number without a sign parses. *)
Lemma factor_signed_number (p : Parser L) (c : ascii)
    (o : nat) (v : Z) (l1 l2 : L) (tok : Token) :
  c = "+"%char ∨ c = "-"%char →
  Token_tag (_lookahead p) = Tag_of_char c →
  source_scan (_lexer p) = Some (Num o v, l1) →
  source_scan l1 = Some (tok, l2) →
  factor p =
    Done (Literal (VInt (if Ascii.eqb c "-" then - v else v)))
         (mkParser l2 tok (_sym_table p)).
Proof.
  intros Hc Htag Hs1 Hs2.
  rewrite (factor_after_sign p c (Num o v) l1) by done.
  cbn [Token_tag Token_value]. rewrite Tag_eq_refl. unfold bind.
  rewrite (match_sees _ _ tok l2) by done. unfold ret.
  destruct Hc as [-> | ->]; cbn [Ascii.eqb Bool.eqb andb]; do 3 f_equal; lia.
Qed.


(** C4. [factor] accepts numbers only.  Whatever else stands where the
    operand is expected (an identifier, a type name, any other token, the
    end marker), the test for a number fails and the next test reads
    [Tags.STR_LIT], which [Tags] does not have: [factor] raises
    [AttributeError].  Without a sign it leaves the parser as it was; behind
    a sign it has consumed the sign and stands on the token after it.  So an
    unsigned identifier is not parsed, and a signed one fails with the same
    [AttributeError] as every other operand, not with a syntax error that
    names the sign. *)
Theorem factor_accepts_numbers_only :
  (∀ p : Parser L,
     Token_eq_str (_lookahead p) "+" = false →
     Token_eq_str (_lookahead p) "-" = false →
     Tag_eq (Token_tag (_lookahead p)) Tags.NUM = false →
     factor p = Raised (no_attribute "STR_LIT") p) ∧
  (∀ (p : Parser L) (c : ascii) (tok : Token) (l1 : L),
     c = "+"%char ∨ c = "-"%char →
     Token_tag (_lookahead p) = Tag_of_char c →
     source_scan (_lexer p) = Some (tok, l1) →
     Tag_eq (Token_tag tok) Tags.NUM = false →
     factor p = Raised (no_attribute "STR_LIT") (mkParser l1 tok (_sym_table p))).
Proof.
  split.
  - intros p Hplus Hminus Hnum. rewrite factor_unsigned by done. by rewrite Hnum.
  - intros p c tok l1 Hc Htag Hscan Hnum.
    rewrite (factor_after_sign p c tok l1) by done. by rewrite Hnum.
Qed.

(** *** [opers] *)

Lemma emits_app_inv (a : list Token) : ∀ (l : L) b l',
  emits l (a ++ b) l' → ∃ l1, emits l a l1 ∧ emits l1 b l'.
Proof.
  induction a as [|t a IH]; intros l b l' Hemits; cbn [app] in Hemits.
  - exists l. split; [constructor|done].
  - inversion Hemits as [|? ? l0 ? ? Hscan Hrest]; subst.
    destruct (IH _ _ _ Hrest) as (l1 & Ha & Hb).
    exists l1. split; [by econstructor|done].
Qed.





(** *** [stmts] and [block] *)

Lemma stmts_loop_unfold n lst :
  stmts_loop (L := L) (S n) lst =
    (la ← lookahead;
     if Token_eq_str la ";" then
       match_ (Tag_of_char ";") ;;
       stmts_loop n lst
     else if Tag_eq_str (Token_tag la) "{" then
       node ← block n;
       stmts_loop n (lst ++ [node])
     else
       VAR ← Tags_undefined "VAR";
       if Tag_eq (Token_tag la) VAR then
         node ← var_decl n;
         stmts_loop n (lst ++ [node])
       else
         SET ← Tags_undefined "SET";
         if Tag_eq (Token_tag la) SET then
           node ← assignment n;
           stmts_loop n (lst ++ [node])
         else
           PRINT ← Tags_undefined "PRINT";
           if Tag_eq (Token_tag la) PRINT then
             node ← print_stmt n;
             stmts_loop n (lst ++ [node])
           else ret lst)%parser.
Proof. reflexivity. Qed.

Lemma block_unfold n :
  block (L := L) (S n) =
    (match_ (Tag_of_char "{") ;;
     p ← get;
     let saved_table := _sym_table p in
     put_sym_table (SymTable_init (Some saved_table)) ;;
     comando_dos_blocos ← stmts_loop n [];
     la ← lookahead;
     if Token_ne_str la "}" then
       ln ← line;
       raise (ParseError ["Erro na linha " +:+ pretty ln +:+ ":" +:+
                          "era esperado '}' no final do bloco."])
     else
       match_ (Tag_of_char "}") ;;
       put_sym_table saved_table ;;
       ret (Block comando_dos_blocos))%parser.
Proof. reflexivity. Qed.

(** At a token that is neither [;] nor [{], [stmts] reads [Tags.VAR] and
    raises, the parser left as it was. *)
Lemma stmts_loop_stops n lst (p : Parser L) :
  starts_nothing (_lookahead p) →
  stmts_loop (S n) lst p = Raised (no_attribute "VAR") p.
Proof.
  intros [Hsemi Hbrace]. rewrite stmts_loop_unfold.
  unfold bind at 1, lookahead. by rewrite Hsemi, Hbrace.
Qed.

(** Neither [stmts] nor [block] ever returns; and when they raise, the
    scope is the one they were entered with under a pile of empty scopes,
    one for each block that was open. *)
Lemma stmts_block_outcomes n :
  (∀ lst (p : Parser L),
     match stmts_loop n lst p with
     | Done _ _ => False
     | Raised _ p' => ∃ k, _sym_table p' = pile k (_sym_table p)
     | Timeout => True
     end) ∧
  (∀ p : Parser L,
     match block n p with
     | Done _ _ => False
     | Raised _ p' => p' = p ∨ ∃ k, _sym_table p' = pile (S k) (_sym_table p)
     | Timeout => True
     end).
Proof.
  induction n as [|n [IHs IHb]]; [done|]. split.
  - intros lst p. rewrite stmts_loop_unfold. unfold bind at 1, lookahead.
    destruct (Token_eq_str (_lookahead p) ";").
    + unfold bind. pose proof (match_outcome (Tag_of_char ";") p) as Hm.
      destruct (match_ (Tag_of_char ";") p) as [[] p1|e p1|]; [| |done].
      * specialize (IHs lst p1). rewrite Hm in IHs. exact IHs.
      * destruct Hm as [_ ->]. by exists 0%nat.
    + destruct (Tag_eq_str (Token_tag (_lookahead p)) "{").
      * unfold bind. specialize (IHb p).
        destruct (block n p) as [node p1|e p1|]; [done| |done].
        destruct IHb as [-> | [k Hk]]; [by exists 0%nat|by exists (S k)].
      * by exists 0%nat.
  - intros p. rewrite block_unfold. unfold bind at 1.
    pose proof (match_outcome (Tag_of_char "{") p) as Hm.
    destruct (match_ (Tag_of_char "{") p) as [[] p1|e p1|]; [| |done].
    + unfold bind at 1, get. unfold bind at 1, put_sym_table. rewrite Hm.
      unfold bind at 1.
      set (p2 := mkParser _ _ (SymTable_init (Some (_sym_table p)))).
      specialize (IHs [] p2).
      destruct (stmts_loop n [] p2) as [a p3|e p3|]; [done| |done].
      destruct IHs as [k Hk]. right. exists k. rewrite Hk. cbn [_sym_table p2].
      clear. induction k as [|k IH]; [done|]. cbn [pile]. by rewrite IH.
    + destruct Hm as [_ ->]. by left.
Qed.

Lemma find_pile k st name : find (pile k st) name = find st name.
Proof.
  induction k as [|k IH]; [done|]. cbn [pile SymTable_init find].
  by rewrite lookup_empty.
Qed.


Lemma start_outcome n (p : Parser L) :
  match start n p with
  | Done _ _ => False
  | Raised _ p' => ∃ k, _sym_table p' = pile k (_sym_table p)
  | Timeout => True
  end.
Proof.
  unfold start. destruct (source_scan (_lexer p)) as [[tok l']|]; [|done].
  unfold bind at 1, program, stmts. unfold bind at 1.
  pose proof (proj1 (stmts_block_outcomes n) [] (mkParser l' tok (_sym_table p))) as Hs.
  by destruct (stmts_loop n [] _) as [a p1|e p1|].
Qed.

(** C1. No declaration ever succeeds, so there is never a second one to
    refuse.  [var_decl] raises [AttributeError] on its first line, at the
    read of [Tags.VAR], before it has looked at a token; and whatever the
    tokens, a run of [start] ends with the scope it began with, under empty
    scopes only: [find] gives for every name what it gave before, and no
    name has been entered anywhere. *)
Theorem no_declaration_succeeds (n : nat) (p : Parser L) :
  var_decl n p = Raised (no_attribute "VAR") p ∧
  (∀ st', final_scope (start n p) = Some st' →
     (∃ k, st' = pile k (_sym_table p)) ∧
     ∀ name, find st' name = find (_sym_table p) name).
Proof.
  split; [done|]. intros st' Hfinal.
  pose proof (start_outcome n p) as Hstart.
  destruct (start n p) as [a p'|e p'|]; [done| |done].
  cbn in Hfinal. injection Hfinal as <-. destruct Hstart as [k Hk].
  split; [by exists k|]. intros name. by rewrite Hk, find_pile.
Qed.

(** C2. [start] never returns.  The loop of [stmts] can only be left through
    its last line, behind the test against [Tags.VAR]; [Tags] has no such
    attribute, so at the first token that is neither [;] nor [{] (the [}]
    of a pair of braces, the end of the text) the read raises
    [AttributeError], and the parser is left where it was.  No text, a text
    of well-nested braces included, yields a [Program]. *)
Theorem start_never_returns (n : nat) (p : Parser L) :
  value_of (start n p) = None ∧
  (∀ lst, starts_nothing (_lookahead p) →
     stmts_loop (S n) lst p = Raised (no_attribute "VAR") p) ∧
  (∀ lst, value_of (stmts_loop n lst p) = None) ∧
  value_of (block n p) = None.
Proof.
  split_and!.
  - pose proof (start_outcome n p) as Hstart. by destruct (start n p).
  - intros lst. apply stmts_loop_stops.
  - intros lst. pose proof (proj1 (stmts_block_outcomes n) lst p) as Hs.
    by destruct (stmts_loop n lst p).
  - pose proof (proj2 (stmts_block_outcomes n) p) as Hb. by destruct (block n p).
Qed.

End ParserFacts.

(** ** Examples on recorded tokens and on texts *)


(** The same through the lexer, from the text. *)
Example opers_on_text :
  (Parser_primed 3 "1 - 2 - 3" ≫= λ p,
     value_of (opers (src := lexer_source 3) 3 p)) =
  Some (BinOp (BinOp (Literal (VInt 1)) "-" (Literal (VInt 2))) "-"
          (Literal (VInt 3))).
Proof. vm_compute. reflexivity. Qed.

(** [x] and [- x] *)
Lemma factor_accepts_numbers_only_witness :
  factor (src := replay_source) (on_tokens (Id 0 "x") [] (SymTable_init None)) =
    Raised (no_attribute "STR_LIT") (on_tokens (Id 0 "x") [] (SymTable_init None)) ∧
  factor (src := replay_source)
    (on_tokens (char_token "-") [Id 0 "x"] (SymTable_init None)) =
    Raised (no_attribute "STR_LIT") (on_tokens (Id 0 "x") [] (SymTable_init None)).
Proof.
  split.
  - exact (proj1 (factor_accepts_numbers_only (src := replay_source))
             (on_tokens (Id 0 "x") [] (SymTable_init None)) eq_refl eq_refl eq_refl).
  - exact (proj2 (factor_accepts_numbers_only (src := replay_source))
             (on_tokens (char_token "-") [Id 0 "x"] (SymTable_init None))
             "-"%char (Id 0 "x") [] (or_intror eq_refl) eq_refl eq_refl eq_refl).
Defined.

(** The same through the lexer, from the texts [x] and [-x]; from [-5] the
    literal with the sign folded in. *)
Example factor_on_texts :
  (Parser_primed 3 "x" ≫= λ p, failure (factor (src := lexer_source 3) p)) =
    Some (no_attribute "STR_LIT") ∧
  (Parser_primed 3 "-x" ≫= λ p, failure (factor (src := lexer_source 3) p)) =
    Some (no_attribute "STR_LIT") ∧
  (Parser_primed 3 "-5" ≫= λ p, value_of (factor (src := lexer_source 3) p)) =
    Some (Literal (VInt (-5))).
Proof. split_and!; vm_compute; reflexivity. Qed.

(** The two declarations of the claim, from the text: the lexer has no
    keywords and hands [var] out as an identifier; [stmts] raises at it, and
    nothing is declared. *)
Example start_on_declarations :
  let run := start (src := lexer_source 6) 6
               (Parser_init (lex "var x : int = 1; var x : int = 2;") 0) in
  failure run = Some (no_attribute "VAR") ∧
  final_scope run = Some (SymTable_init None).
Proof. split; vm_compute; reflexivity. Qed.

(** The texts [{}] and [{{}{}}{}], and the empty text: [start] raises at the
    first [}] (at the end marker for the empty text), and the parser is left
    inside the blocks that were open. *)
Example start_on_braces :
  (let run := start (src := lexer_source 3) 4 (Parser_init (lex "{}") 0) in
   failure run = Some (no_attribute "VAR") ∧
   final_scope run = Some (pile 1 (SymTable_init None))) ∧
  (let run := start (src := lexer_source 3) 6 (Parser_init (lex "{{}{}}{}") 0) in
   failure run = Some (no_attribute "VAR") ∧
   final_scope run = Some (pile 2 (SymTable_init None))) ∧
  (let run := start (src := lexer_source 3) 2 (Parser_init (lex "") 0) in
   failure run = Some (no_attribute "VAR") ∧
   final_scope run = Some (SymTable_init None)).
Proof. cbv zeta. split_and!; vm_compute; reflexivity. Qed.

(** [match(Tag(";"))] with [}] under the lookahead. *)
Lemma match_failure_is_bare_witness :
  Tag_eq (Tag_of_char ";")
    (Token_tag
       (_lookahead (on_tokens (char_token "}") [] (SymTable_init None)))) = false ∧
  match_ (src := replay_source) (Tag_of_char ";")
    (on_tokens (char_token "}") [] (SymTable_init None)) =
    Raised (ParseError []) (on_tokens (char_token "}") [] (SymTable_init None)).
Proof.
  split; [reflexivity|].
  exact (match_failure_is_bare (src := replay_source)
           (Tag_of_char ";") (on_tokens (char_token "}") [] (SymTable_init None))
           eq_refl).
Defined.

(** Two failures of [match], with different expected tags, at different
    lines of the text: the exceptions are the same. *)
Example match_failures_alike :
  (Parser_primed 3 "}" ≫= λ p,
     Some (source_line (TokenSource := lexer_source 3) (_lexer p),
           failure (match_ (src := lexer_source 3)
                      (Tag_of_char ";") p))) =
  Some (1, Some (ParseError [])) ∧
  (Parser_primed 5 "

{" ≫= λ p,
     Some (source_line (TokenSource := lexer_source 3) (_lexer p),
           failure (match_ (src := lexer_source 3) Tags.ID p))) =
  Some (4, Some (ParseError [])).
Proof. split; vm_compute; reflexivity. Qed.

(** * Further properties *)

(** ** Symbol table: [insert] *)

(** X1. [insert] of a name the current dict does not hold returns [True],
    whatever the enclosing scopes hold; [find] then gives the new symbol
    for that name and what it gave before for every other name, and the
    enclosing scope stays the same. *)
Theorem insert_then_find (st : SymTable) (id : string) (symbol : Symbol) :
  table st !! id = None →
  (insert_symbol st id symbol).1 = true ∧
  find (insert_symbol st id symbol).2 id = Some symbol ∧
  (∀ id', id' ≠ id → find (insert_symbol st id symbol).2 id' = find st id') ∧
  previous (insert_symbol st id symbol).2 = previous st.
Proof.
  intros Hnew. unfold insert_symbol. rewrite Hnew. cbn.
  split_and!; [done|by rewrite lookup_insert_eq| |done].
  intros id' Hne. rewrite lookup_insert_ne by done. by destruct st.
Qed.

Lemma insert_then_find_witness :
  table scope_with_x !! "y" = None ∧
  (insert_symbol scope_with_x "y" (mkSymbol "y" "float")).1 = true ∧
  find (insert_symbol scope_with_x "y" (mkSymbol "y" "float")).2 "y"
    = Some (mkSymbol "y" "float") ∧
  (∀ id', id' ≠ "y" →
     find (insert_symbol scope_with_x "y" (mkSymbol "y" "float")).2 id'
       = find scope_with_x id') ∧
  previous (insert_symbol scope_with_x "y" (mkSymbol "y" "float")).2
    = previous scope_with_x.
Proof.
  split; [reflexivity|].
  exact (insert_then_find scope_with_x "y" (mkSymbol "y" "float") eq_refl).
Defined.

(** X2. [insert] of a name the current dict already holds returns [False] and
    changes nothing: the symbol declared first stays, the new one is
    dropped. *)
Theorem insert_duplicate_keeps_first (st : SymTable) (id : string)
    (first symbol : Symbol) :
  table st !! id = Some first →
  insert_symbol st id symbol = (false, st) ∧
  find (insert_symbol st id symbol).2 id = Some first.
Proof.
  intros Hheld. unfold insert_symbol. rewrite Hheld. cbn.
  split; [done|]. destruct st as [t prev]. cbn in *. by rewrite Hheld.
Qed.

Lemma insert_duplicate_keeps_first_witness :
  table scope_with_x !! "x" = Some (mkSymbol "x" "int") ∧
  insert_symbol scope_with_x "x" (mkSymbol "x" "char") = (false, scope_with_x) ∧
  find (insert_symbol scope_with_x "x" (mkSymbol "x" "char")).2 "x"
    = Some (mkSymbol "x" "int").
Proof.
  split; [reflexivity|].
  exact (insert_duplicate_keeps_first scope_with_x "x" (mkSymbol "x" "int")
           (mkSymbol "x" "char") eq_refl).
Defined.

(** ** The character source by position *)

Lemma lookup_drop_head {A} (l : list A) (i : nat) : head (drop i l) = l !! i.
Proof.
  revert i. induction l as [|x l IH]; intros [|i]; cbn; by try apply IH.
Qed.

(** X3. The lexer's view of the stream is sound: [get_char] and [peek()] of
    istream.py, which work on the whole text and a position, do to the text
    still pending what the stream of the lexer does. *)
Theorem pending_text_suffices (s : Istream.InputStream) :
  get_char (pending_of s) =
    ((Istream.get_char s).1, pending_of (Istream.get_char s).2) ∧
  Istream.peek s 0 = Peeked (peek (pending_of s)).
Proof.
  destruct s as [src pos eof]. unfold pending_of, get_char, peek, Istream.get_char,
    Istream.peek. cbn [Istream._source_code Istream._position Istream._eof_reached
    pending _eof_reached].
  rewrite Z.add_0_r. rewrite lookup_drop_head.
  destruct (Nat.ltb_spec pos (length src)) as [Hlt|Hge].
  - destruct (lookup_lt_is_Some_2 src pos Hlt) as [c Hc].
    rewrite (drop_S _ c _ Hc). cbn. rewrite Hc. split; [done|].
    destruct (Z.ltb_spec (Z.of_nat pos) (Z.of_nat (length src))); [|lia].
    unfold str_index. destruct (Z.leb_spec 0 (Z.of_nat pos)); [|lia].
    by rewrite Nat2Z.id, Hc.
  - rewrite !drop_ge by done. cbn. rewrite (lookup_ge_None_2 src pos) by done.
    split; [done|].
    by destruct (Z.ltb_spec (Z.of_nat pos) (Z.of_nat (length src))); [lia|].
Qed.

Lemma get_chars_from (k : nat) : ∀ src pos eof,
  (pos ≤ length src)%nat →
  Istream.get_chars k (Istream.mkInputStream src pos eof) =
    ((Some <$> take k (drop pos src)) ++ replicate (k - (length src - pos)) None,
     Istream.mkInputStream src ((pos + k) `min` length src)
       (eof || bool_decide (length src < pos + k)%nat)).
Proof.
  induction k as [|k IH]; intros src pos eof Hpos.
  - cbn. rewrite Nat.add_0_r, Nat.min_l by done.
    rewrite bool_decide_eq_false_2 by lia. by rewrite orb_false_r.
  - cbn [Istream.get_chars]. unfold Istream.get_char.
    cbn [Istream._source_code Istream._position Istream._eof_reached].
    destruct (Nat.ltb_spec pos (length src)) as [Hlt|Hge].
    + destruct (lookup_lt_is_Some_2 src pos Hlt) as [c Hc].
      rewrite IH by lia. rewrite (drop_S _ c _ Hc), Hc. cbn [take fmap list_fmap app].
      replace (S k - (length src - pos))%nat with (k - (length src - S pos))%nat by lia.
      replace ((pos + S k) `min` length src)%nat
        with ((S pos + k) `min` length src)%nat by lia.
      by rewrite (bool_decide_ext (length src < pos + S k)%nat
                    (length src < S pos + k)%nat) by lia.
    + rewrite IH by done. rewrite drop_ge by done. rewrite !take_nil. cbn [fmap list_fmap app].
      replace (S k - (length src - pos))%nat with (S (k - (length src - pos)))%nat by lia.
      cbn [replicate].
      replace ((pos + S k) `min` length src)%nat
        with ((pos + k) `min` length src)%nat by lia.
      rewrite (bool_decide_eq_true_2 (length src < pos + S k)%nat) by lia.
      by rewrite orb_true_r.
Qed.

(** X4. Reading a text from its start: the first calls of [get_char] hand out
    its characters in order, every later call the empty string.  The end
    flag is raised by the first call that finds nothing left, not by the one
    that hands out the last character, and the position never passes the
    length of the text. *)
Theorem get_chars_reads_text (text : string) (k : nat) :
  Istream.get_chars k (Istream.InputStream_init text) =
    ((Some <$> take k (list_ascii_of_string text))
       ++ replicate (k - length (list_ascii_of_string text)) None,
     Istream.mkInputStream (list_ascii_of_string text)
       (k `min` length (list_ascii_of_string text))
       (bool_decide (length (list_ascii_of_string text) < k)%nat)).
Proof.
  unfold Istream.InputStream_init. rewrite get_chars_from by lia.
  by rewrite Nat.sub_0_r.
Qed.

Lemma peek_step (s : Istream.InputStream) (k : nat) :
  Istream.peek s (Z.of_nat (S k)) = Istream.peek (Istream.get_char s).2 (Z.of_nat k).
Proof.
  destruct s as [src pos eof]. unfold Istream.peek, Istream.get_char.
  cbn [Istream._source_code Istream._position Istream._eof_reached].
  destruct (Nat.ltb_spec pos (length src)) as [Hlt|Hge];
    cbn [snd Istream._source_code Istream._position].
  - by replace (Z.of_nat pos + Z.of_nat (S k)) with (Z.of_nat (S pos) + Z.of_nat k) by lia.
  - destruct (Z.ltb_spec (Z.of_nat pos + Z.of_nat (S k)) (Z.of_nat (length src))); [lia|].
    by destruct (Z.ltb_spec (Z.of_nat pos + Z.of_nat k) (Z.of_nat (length src))); [lia|].
Qed.

(** X5. [peek(k)] for [k] at or above zero never raises and tells what the call
    of [get_char] after [k] further ones will return: the character [k]
    places ahead, or the empty string when the text ends before it. *)
Theorem peek_foresees_get_char (s : Istream.InputStream) (k : nat) :
  Istream.peek s (Z.of_nat k) =
    Peeked (Istream.get_char (Istream.get_chars k s).2).1.
Proof.
  revert s. induction k as [|k IH]; intros s.
  - cbn [Istream.get_chars snd]. destruct s as [src pos eof].
    unfold Istream.peek, Istream.get_char.
    cbn [Istream._source_code Istream._position Istream._eof_reached].
    rewrite Z.add_0_r.
    destruct (Nat.ltb_spec pos (length src)) as [Hlt|Hge].
    + destruct (lookup_lt_is_Some_2 src pos Hlt) as [c Hc].
      destruct (Z.ltb_spec (Z.of_nat pos) (Z.of_nat (length src))); [|lia].
      unfold str_index. destruct (Z.leb_spec 0 (Z.of_nat pos)); [|lia].
      by rewrite Nat2Z.id, Hc.
    + by destruct (Z.ltb_spec (Z.of_nat pos) (Z.of_nat (length src))); [lia|].
  - rewrite peek_step, IH. cbn [Istream.get_chars].
    destruct (Istream.get_char s) as [c s1]. cbn [snd].
    by destruct (Istream.get_chars k s1) as [cs s2].
Qed.

(** X6. [peek] does not guard against an offset that reaches before the start
    of the text.  There the index is negative and Python counts it from the
    end: the call returns a character from the end of the text, or raises
    [IndexError] when the offset reaches further back than the text is long;
    it does not return the empty string. *)
Theorem peek_before_start (s : Istream.InputStream) (offset : Z) :
  Z.of_nat (Istream._position s) + offset < 0 →
  let pos := Z.of_nat (Istream._position s) + offset in
  let len := Z.of_nat (length (Istream._source_code s)) in
  if 0 <=? len + pos
  then ∃ c, Istream._source_code s !! Z.to_nat (len + pos) = Some c ∧
            Istream.peek s offset = Peeked (Some c)
  else Istream.peek s offset = IndexError.
Proof.
  intros Hneg pos len. unfold Istream.peek. fold pos len.
  destruct (Z.ltb_spec pos len); [|lia].
  unfold str_index. fold len. destruct (Z.leb_spec 0 pos); [lia|].
  destruct (Z.leb_spec 0 (len + pos)) as [Hin|Hout]; [|done].
  destruct (lookup_lt_is_Some_2 (Istream._source_code s) (Z.to_nat (len + pos)))
    as [c Hc]; [lia|].
  exists c. by rewrite Hc.
Qed.

Lemma peek_before_start_witness :
  Z.of_nat (Istream._position (Istream.InputStream_init "abc")) + -1 < 0 ∧
  (∃ c, Istream._source_code (Istream.InputStream_init "abc") !! Z.to_nat (3 + -1)
          = Some c ∧
        Istream.peek (Istream.InputStream_init "abc") (-1) = Peeked (Some c)).
Proof.
  split; [reflexivity|].
  exact (peek_before_start (Istream.InputStream_init "abc") (-1) eq_refl).
Defined.

Lemma tui_get_char_silent (t : TuiIstream.TuiInputStream) :
  Istream.get_char (silent t) =
    ((TuiIstream.get_char t).1, silent (TuiIstream.get_char t).2) ∧
  TuiIstream.echoed (TuiIstream.get_char t).2 =
    TuiIstream.echoed t ++ option_list (TuiIstream.get_char t).1.
Proof.
  destruct t as [src pos ech eof]. unfold silent, Istream.get_char, TuiIstream.get_char.
  cbn [Istream._source_code Istream._position Istream._eof_reached
       TuiIstream._source_code TuiIstream._position TuiIstream._eof_reached
       TuiIstream.echoed].
  destruct (pos <? length src)%nat; cbn; [done|]. by rewrite app_nil_r.
Qed.

Lemma tui_get_chars_silent (k : nat) : ∀ t : TuiIstream.TuiInputStream,
  Istream.get_chars k (silent t) =
    ((TuiIstream.get_chars k t).1, silent (TuiIstream.get_chars k t).2) ∧
  TuiIstream.echoed (TuiIstream.get_chars k t).2 =
    TuiIstream.echoed t ++ omap id (TuiIstream.get_chars k t).1.
Proof.
  induction k as [|k IH]; intros t.
  - cbn. by rewrite app_nil_r.
  - cbn [Istream.get_chars TuiIstream.get_chars].
    destruct (tui_get_char_silent t) as [Hone Hecho]. rewrite Hone.
    destruct (TuiIstream.get_char t) as [c t1]. cbn [fst snd] in *.
    destruct (IH t1) as [Hrest Hechoes]. rewrite Hrest.
    destruct (TuiIstream.get_chars k t1) as [cs t2]. cbn [fst snd] in *.
    split; [done|]. rewrite Hechoes, Hecho, <- app_assoc. by destruct c.
Qed.

(** X7. [TuiInputStream] hands out what [InputStream] hands out, and its echo
    function is called with exactly the characters handed out, in order:
    not by [peek], and not at the end of the text. *)
Theorem tui_echoes_what_it_hands_out (text : string) (k : nat) :
  (TuiIstream.get_chars k (TuiIstream.TuiInputStream_init text)).1 =
    (Istream.get_chars k (Istream.InputStream_init text)).1 ∧
  silent (TuiIstream.get_chars k (TuiIstream.TuiInputStream_init text)).2 =
    (Istream.get_chars k (Istream.InputStream_init text)).2 ∧
  TuiIstream.echoed (TuiIstream.get_chars k (TuiIstream.TuiInputStream_init text)).2 =
    take k (list_ascii_of_string text).
Proof.
  destruct (tui_get_chars_silent k (TuiIstream.TuiInputStream_init text))
    as [Hsilent Hecho].
  change (silent (TuiIstream.TuiInputStream_init text))
    with (Istream.InputStream_init text) in Hsilent.
  rewrite Hsilent. split_and!; [done..|].
  rewrite Hecho. cbn [TuiIstream.echoed TuiIstream.TuiInputStream_init app].
  apply (f_equal fst) in Hsilent. cbn [fst] in Hsilent. rewrite <- Hsilent.
  rewrite get_chars_reads_text. cbn [fst].
  generalize (list_ascii_of_string text) as cs. intros cs.
  rewrite omap_app.
  assert (Hnone : ∀ j, omap id (replicate j (@None ascii)) = []).
  { induction j as [|j IHj]; [done|]. cbn. apply IHj. }
  rewrite Hnone, app_nil_r.
  generalize (take k cs) as l. induction l as [|c l IHl]; [done|].
  cbn. by rewrite IHl.
Qed.
(** ** [_get_next_char] *)

Lemma next_char_from_spec src : ∀ line,
  (next_char_from src line).1.1 ≠ Some TAB ∧
  (next_char_from src line).2 =
    line + (if is_char (next_char_from src line).1.1 LF then 1 else 0) ∧
  ((next_char_from src line).1.1 = None ↔ Forall (λ c, c = TAB) src).
Proof.
  induction src as [|c rest IH]; intros line; cbn [next_char_from].
  - cbn. split_and!; [done|lia|done].
  - destruct (Ascii.eqb_spec c TAB) as [->|Htab].
    + destruct (IH line) as (Hno & Hline & Hend). split_and!; [done..|].
      rewrite Hend. split; [by constructor|]. by intros [_ ?]%Forall_cons.
    + destruct (Ascii.eqb c LF || _) eqn:Hlf; cbn [fst snd is_char].
      * split_and!; [done|done|]. split; [done|]. by intros [? _]%Forall_cons.
      * apply orb_false_iff in Hlf as [Hlf _]. rewrite Hlf.
        split_and!; [congruence|lia|].
        split; [done|]. by intros [? _]%Forall_cons.
Qed.

(** X8. [_get_next_char] never hands out a tab; it counts a line exactly when it
    hands out a line feed; and it hands out the empty string exactly when
    the stream has reported its end or holds nothing but tabs. *)
Theorem get_next_char_counts_lines (lx : Lexer) :
  (_get_next_char lx).1 ≠ Some TAB ∧
  _line (_get_next_char lx).2 =
    _line lx + (if is_char (_get_next_char lx).1 LF then 1 else 0) ∧
  ((_get_next_char lx).1 = None ↔
     _eof_reached (_istream lx) = true ∨
     Forall (λ c, c = TAB) (pending (_istream lx))).
Proof.
  unfold _get_next_char. destruct (_eof_reached (_istream lx)) eqn:Heof.
  - cbn. split_and!; [done|lia|]. split; auto.
  - pose proof (next_char_from_spec (pending (_istream lx)) (_line lx))
      as (Hno & Hline & Hend).
    destruct (next_char_from _ _) as [[c s] line']. cbn in *.
    split_and!; [done..|]. rewrite Hend. split; [auto|]. by intros [?|?].
Qed.

(** ** Tabs *)

Lemma advance_skips_tab lx k c rest :
  advance (move lx k c (TAB :: rest)) = advance (move lx k c rest).
Proof. reflexivity. Qed.

Lemma digit_plain c :
  isdigit c = true →
  isspace c = false ∧ isalpha c = false ∧ Ascii.eqb c "\" = false ∧
  c ≠ TAB ∧ c ≠ LF ∧ c ≠ CR.
Proof. by destruct c as [[] [] [] [] [] [] [] []]. Qed.

Lemma read_alphas_tab w : ∀ n id_str lx k c rest,
  isalpha c = true → Forall (λ d, isalpha d = true) w →
  read_alphas n id_str (move lx k c (w ++ TAB :: rest)) =
  read_alphas n id_str (move lx k c (w ++ rest)).
Proof.
  induction w as [|d w IH]; intros [|n] id_str lx k c rest Hc Hw; try done;
    cbn [app read_alphas _peek move]; rewrite Hc.
  - by rewrite <- (advance_skips_tab lx k c rest).
  - apply Forall_cons in Hw as [Hd Hw].
    destruct (alpha_plain d Hd) as (_ & _ & _ & Htab & Hlf & Hcr).
    fold (move lx k c (d :: w ++ TAB :: rest)). fold (move lx k c (d :: w ++ rest)).
    rewrite !advance_move by done. by apply IH.
Qed.

Lemma read_digits_tab w : ∀ n num_str lx k c rest,
  isdigit c = true → Forall (λ d, isdigit d = true) w →
  read_digits n num_str (move lx k c (w ++ TAB :: rest)) =
  read_digits n num_str (move lx k c (w ++ rest)).
Proof.
  induction w as [|d w IH]; intros [|n] num_str lx k c rest Hc Hw; try done;
    cbn [app read_digits _peek move]; rewrite Hc.
  - by rewrite <- (advance_skips_tab lx k c rest).
  - apply Forall_cons in Hw as [Hd Hw].
    destruct (digit_plain d Hd) as (_ & _ & _ & Htab & Hlf & Hcr).
    fold (move lx k c (d :: w ++ TAB :: rest)). fold (move lx k c (d :: w ++ rest)).
    rewrite !advance_move by done. by apply IH.
Qed.

(** X10. A tab does not end a word or a number: [_get_next_char] drops it, so
    the letters (or digits) on both sides of it are read as one token, as if
    the tab were not there. *)
Theorem tab_does_not_end_token (n : nat) (lx : Lexer) (k : Z) (c : ascii)
    (w rest : list ascii) :
  (isalpha c = true ∧ Forall (λ d, isalpha d = true) w) ∨
  (isdigit c = true ∧ Forall (λ d, isdigit d = true) w) →
  scan n (move lx k c (w ++ TAB :: rest)) = scan n (move lx k c (w ++ rest)).
Proof.
  intros Hrun. destruct n as [|n]; [done|]. cbn [scan]. f_equal.
  unfold scan_pass, line_continuation. cbn [_peek move is_char].
  destruct Hrun as [[Hc Hw]|[Hc Hw]].
  - destruct (alpha_plain c Hc) as (Hsp & Hdg & Hback & _).
    rewrite Hback. cbn [andb or_next].
    destruct n as [|n]; [done|]. cbn [skip_spaces _peek move holds].
    rewrite Hsp. cbn [or_next].
    unfold scan_number. cbn [_peek move holds]. rewrite Hdg. cbn [or_next].
    unfold scan_word. cbn [_peek move holds]. rewrite Hc.
    fold (move lx k c (w ++ TAB :: rest)). fold (move lx k c (w ++ rest)).
    by rewrite read_alphas_tab.
  - destruct (digit_plain c Hc) as (Hsp & Hal & Hback & _).
    rewrite Hback. cbn [andb or_next].
    destruct n as [|n]; [done|]. cbn [skip_spaces _peek move holds].
    rewrite Hsp. cbn [or_next].
    unfold scan_number. cbn [_peek move holds]. rewrite Hc.
    fold (move lx k c (w ++ TAB :: rest)). fold (move lx k c (w ++ rest)).
    rewrite !read_digits_tab by done.
    destruct (read_digits (S n) "" (move lx k c (w ++ rest))) as [[num_str lx1]|]; done.
Qed.
(** ** Numbers *)

Lemma advance_next_oid lx : next_oid (advance lx) = next_oid lx.
Proof.
  unfold advance, _get_next_char. destruct (_eof_reached _); [done|].
  by destruct (next_char_from _ _) as [[c st] line'].
Qed.

(** The digits [d :: ds] are read up to the character that is no digit. *)
Lemma read_digits_run ds : ∀ n num_str lx k d rest,
  isdigit d = true →
  Forall (λ c, isdigit c = true) ds →
  holds isdigit (_peek (advance (move lx k (List.last ds d) rest))) = false →
  (length ds + 2 ≤ n)%nat →
  read_digits n num_str (move lx k d (ds ++ rest)) =
    Some (num_str +:+ string_of_list_ascii (d :: ds),
          advance (move lx k (List.last ds d) rest)).
Proof.
  induction ds as [|e ds IH]; intros n num_str lx k d rest Hd Hds Hstop Hn;
    cbn [length] in Hn.
  - destruct n as [|[|n]]; [lia..|]. cbn [app List.last] in *.
    cbn [read_digits _peek move]. rewrite Hd.
    change (_peek (mkLexer ?a ?b ?c ?d ?e ?f ?g)) with c.
    destruct (_peek (advance (move lx k d rest))) as [stop|] eqn:Hpeek.
    + cbn [holds] in Hstop. by rewrite Hstop.
    + done.
  - destruct n as [|n]; [lia|].
    apply Forall_cons in Hds as [He Hds].
    destruct (digit_plain e He) as (_ & _ & _ & Htab & Hlf & Hcr).
    cbn [app read_digits _peek move]. rewrite Hd.
    fold (move lx k d (e :: ds ++ rest)). rewrite advance_move by done.
    rewrite last_after in Hstop |- *.
    rewrite (IH n (snoc num_str d) lx k e rest) by (done || lia).
    by rewrite snoc_append.
Qed.

Lemma pretty_N_char_digit x :
  (x < 10)%N →
  isdigit (pretty_N_char x) = true ∧ ord (pretty_N_char x) - 48 = Z.of_N x.
Proof.
  intros Hx.
  assert (x = 0 ∨ x = 1 ∨ x = 2 ∨ x = 3 ∨ x = 4 ∨ x = 5 ∨ x = 6 ∨ x = 7
          ∨ x = 8 ∨ x = 9)%N as Hcases by lia.
  repeat destruct Hcases as [->|Hcases]; try subst x; by vm_compute.
Qed.

Lemma int_from_pretty_N_go x : ∀ s,
  int_from 0 (pretty_N_go x s) = int_from (Z.of_N x) s.
Proof.
  induction (N.lt_wf_0 x) as [x _ IH]; intros s.
  assert (x = 0 ∨ 0 < x)%N as [->|Hpos] by lia; [done|].
  rewrite pretty_N_go_step by done.
  rewrite IH by (by apply N.div_lt). cbn [int_from].
  destruct (pretty_N_char_digit (x `mod` 10)%N) as [_ ->];
    [by apply N.mod_lt|].
  f_equal. pose proof (N.div_mod x 10). lia.
Qed.

Lemma int_pretty (v : N) : int (pretty v) = Z.of_N v.
Proof.
  unfold pretty, pretty_N, int. case_decide as Hv; [by subst|].
  by rewrite int_from_pretty_N_go.
Qed.

Lemma pretty_N_go_digits x : ∀ s,
  Forall (λ c, isdigit c = true) (list_ascii_of_string s) →
  Forall (λ c, isdigit c = true) (list_ascii_of_string (pretty_N_go x s)).
Proof.
  induction (N.lt_wf_0 x) as [x _ IH]; intros s Hs.
  assert (x = 0 ∨ 0 < x)%N as [->|Hpos] by lia; [done|].
  rewrite pretty_N_go_step by done. apply IH; [by apply N.div_lt|].
  cbn. constructor; [|done].
  by apply pretty_N_char_digit, N.mod_lt.
Qed.

Lemma pretty_digits (v : N) :
  Forall (λ c, isdigit c = true) (list_ascii_of_string (pretty v)).
Proof.
  unfold pretty, pretty_N. case_decide.
  - by repeat constructor.
  - apply pretty_N_go_digits. constructor.
Qed.

(** X11. A number written out in decimal comes back as itself: on the decimal
    spelling of [v], no longer than the 4300 digits that [int()] accepts and
    followed in an ASCII text by something that is neither a digit nor a
    dot, [scan] returns [Num(v)] and stops behind the last digit. *)
Theorem scan_decimal_round_trip (v : N) (d : ascii) (ds rest : list ascii)
    (lx : Lexer) (k : Z) (n : nat) :
  list_ascii_of_string (pretty v) = d :: ds →
  Z.of_nat (length (d :: ds)) ≤ max_str_digits →
  ascii_text rest →
  holds isdigit (_peek (advance (move lx k (List.last ds d) rest))) = false →
  is_char (_peek (advance (move lx k (List.last ds d) rest))) "." = false →
  (length ds + 2 ≤ n)%nat →
  scan (S n) (move lx k d (ds ++ rest)) =
    Some (Num (next_oid lx) (Z.of_N v),
          set_logged 1 (snd (fresh (advance (move lx k (List.last ds d) rest))))).
Proof.
  intros Htext _ _ Hstop Hdot Hn.
  pose proof (pretty_digits v) as Hdigits. rewrite Htext in Hdigits.
  apply Forall_cons in Hdigits as [Hd Hds].
  destruct (digit_plain d Hd) as (Hsp & _ & Hback & _).
  cbn [scan]. unfold scan_pass, line_continuation.
  cbn [_peek move is_char]. rewrite Hback. cbn [andb or_next].
  destruct n as [|n]; [lia|]. cbn [skip_spaces _peek move holds].
  rewrite Hsp. cbn [or_next].
  unfold scan_number. cbn [_peek move holds]. rewrite Hd.
  fold (move lx k d (ds ++ rest)).
  rewrite (read_digits_run ds (S n) "" lx k d rest) by done.
  rewrite Hdot. cbn [negb String.append or_next]. unfold fresh. cbn [or_next snd].
  rewrite advance_next_oid. cbn [next_oid move].
  change ("" +:+ string_of_list_ascii (d :: ds)) with (string_of_list_ascii (d :: ds)).
  by rewrite <- Htext, string_of_list_ascii_of_string, int_pretty.
Qed.

(** X12. A number with a fraction yields no token at all: after the digits, the
    dot and the digits of the fraction, [scan] goes on with what follows as
    if the number had not been there. *)
Theorem scan_drops_fraction (n : nat) (lx : Lexer) (k : Z) (d : ascii)
    (ds fs : list ascii) (c : ascii) (rest : list ascii) :
  isdigit d = true →
  Forall (λ e, isdigit e = true) ds →
  Forall (λ e, isdigit e = true) fs →
  isdigit c = false → isspace c = false → c ≠ "\"%char →
  (length ds + length fs + 3 ≤ n)%nat →
  scan (S n) (move lx k d (ds ++ "."%char :: fs ++ c :: rest)) =
  scan (S n) (move lx k c rest).
Proof.
  intros Hd Hds Hfs Hc Hsp Hback Hn.
  assert (Hplain : c ≠ TAB ∧ c ≠ LF ∧ c ≠ CR).
  { split_and!; intros ->; done. }
  destruct Hplain as (Htab & Hlf & Hcr).
  destruct (digit_plain d Hd) as (Hdsp & _ & Hdback & _).
  apply Ascii.eqb_neq in Hback.
  cbn [scan]. f_equal. unfold scan_pass, line_continuation.
  cbn [_peek move is_char]. rewrite Hdback, Hback. cbn [andb or_next].
  destruct n as [|n]; [lia|]. cbn [skip_spaces _peek move holds].
  rewrite Hdsp, Hsp. cbn [or_next].
  unfold scan_number at 2. cbn [_peek move holds]. rewrite Hc. cbn [or_next].
  unfold scan_number. cbn [_peek move holds]. rewrite Hd.
  fold (move lx k d (ds ++ "."%char :: fs ++ c :: rest)).
  rewrite (read_digits_run ds (S n) "" lx k d ("."%char :: fs ++ c :: rest));
    [|done|done|by rewrite advance_move|lia].
  rewrite advance_move by done. cbn [_peek move is_char negb].
  change (Ascii.eqb "." ".") with true. cbv iota.
  fold (move lx k "."%char (fs ++ c :: rest)).
  destruct fs as [|f fs].
  - cbn [app]. rewrite advance_move by done.
    cbn [read_digits _peek move]. rewrite Hc. done.
  - apply Forall_cons in Hfs as [Hf Hfs].
    destruct (digit_plain f Hf) as (_ & _ & _ & Hftab & Hflf & Hfcr).
    cbn [app]. rewrite advance_move by done.
    rewrite (read_digits_run fs (S n) _ lx k f (c :: rest));
      [|done|done|rewrite advance_move by done; cbn; by rewrite Hc
       |cbn [length] in Hn; lia].
    by rewrite advance_move by done.
Qed.

Lemma tab_does_not_end_token_witness :
  ((isalpha "a" = true ∧ Forall (λ d, isalpha d = true) ["b"%char]) ∨
   (isdigit "a" = true ∧ Forall (λ d, isdigit d = true) ["b"%char])) ∧
  scan 5 (move (lex "") 0 "a" (["b"%char] ++ TAB :: ["c"; ";"]%char)) =
  scan 5 (move (lex "") 0 "a" (["b"%char] ++ ["c"; ";"]%char)).
Proof.
  assert (Hrun : (isalpha "a" = true ∧ Forall (λ d, isalpha d = true) ["b"%char]) ∨
                 (isdigit "a" = true ∧ Forall (λ d, isdigit d = true) ["b"%char])).
  { left. split; [reflexivity|]. repeat constructor. }
  split; [exact Hrun|].
  exact (tab_does_not_end_token 5 (lex "") 0 "a" ["b"%char] ["c"; ";"]%char Hrun).
Defined.

Lemma scan_decimal_round_trip_witness :
  list_ascii_of_string (pretty 407%N) = "4"%char :: ["0"; "7"]%char ∧
  Z.of_nat (length ("4"%char :: ["0"; "7"]%char)) ≤ max_str_digits ∧
  ascii_text [";"%char] ∧
  holds isdigit
    (_peek (advance (move (lex "") 0 (List.last ["0"; "7"]%char "4"%char) [";"%char])))
    = false ∧
  is_char
    (_peek (advance (move (lex "") 0 (List.last ["0"; "7"]%char "4"%char) [";"%char])))
    "." = false ∧
  (length ["0"; "7"]%char + 2 ≤ 4)%nat ∧
  scan 5 (move (lex "") 0 "4" (["0"; "7"]%char ++ [";"%char])) =
    Some (Num (next_oid (lex "")) (Z.of_N 407),
          set_logged 1
            (snd (fresh (advance (move (lex "") 0
                                    (List.last ["0"; "7"]%char "4"%char) [";"%char]))))).
Proof.
  assert (Hn : (length ["0"; "7"]%char + 2 ≤ 4)%nat) by (cbn; lia).
  assert (Hlimit : Z.of_nat (length ("4"%char :: ["0"; "7"]%char)) ≤ max_str_digits)
    by (apply Z.leb_le; reflexivity).
  assert (Hascii : ascii_text [";"%char])
    by (repeat constructor; apply Z.ltb_lt; reflexivity).
  split_and!; [reflexivity|exact Hlimit|exact Hascii|reflexivity|reflexivity|exact Hn|].
  exact (scan_decimal_round_trip 407 "4" ["0"; "7"]%char [";"%char] (lex "") 0 4
           eq_refl Hlimit Hascii eq_refl eq_refl Hn).
Defined.

Lemma scan_drops_fraction_witness :
  isdigit "3" = true ∧
  Forall (λ e, isdigit e = true) [] ∧
  Forall (λ e, isdigit e = true) ["1"; "4"]%char ∧
  isdigit ";" = false ∧ isspace ";" = false ∧ ";"%char ≠ "\"%char ∧
  (length (@nil ascii) + length ["1"; "4"]%char + 3 ≤ 5)%nat ∧
  scan 6 (move (lex "") 0 "3" ([] ++ "."%char :: ["1"; "4"]%char ++ ";"%char :: [])) =
  scan 6 (move (lex "") 0 ";" []).
Proof.
  assert (Hfs : Forall (λ e, isdigit e = true) ["1"; "4"]%char)
    by (repeat constructor).
  assert (Hne : ";"%char ≠ "\"%char) by discriminate.
  assert (Hn : (length (@nil ascii) + length ["1"; "4"]%char + 3 ≤ 5)%nat)
    by (cbn; lia).
  split_and!; [reflexivity|constructor|exact Hfs|reflexivity|reflexivity|exact Hne
              |exact Hn|].
  exact (scan_drops_fraction 5 (lex "") 0 "3" [] ["1"; "4"]%char ";" []
           eq_refl (List.Forall_nil _) Hfs eq_refl eq_refl Hne Hn).
Defined.
(** ** Line ends *)

(** X13. A line feed that follows an expression is a statement end: when the
    flag [EXPRESSION] of [_logged_token] is up (a word, a number or an
    operator other than [{ } , ;] was returned since the last line feed),
    [scan] returns a token [;] in place of the line feed, reads on by one
    character, clears [_logged_token], and leaves [line] as it was. *)
Theorem line_feed_ends_expression (n : nat) (lx : Lexer) :
  _peek lx = Some LF →
  Z.land (_logged_token lx) LoggedToken.EXPRESSION ≠ 0 →
  scan (S (S n)) lx =
    Some (Token_ (next_oid lx) (Tag_of_char ";"),
          set_logged LoggedToken.NONE (snd (fresh (advance lx)))) ∧
  _cached_line (set_logged LoggedToken.NONE (snd (fresh (advance lx))))
    = _cached_line lx.
Proof.
  intros Hpeek Hflag. split.
  - cbn [scan]. unfold scan_pass, line_continuation. rewrite Hpeek.
    cbn [is_char]. change (Ascii.eqb LF "\") with false.
    cbn [andb or_next skip_spaces]. rewrite Hpeek. cbn [holds is_char].
    change (isspace LF) with true. change (Ascii.eqb LF LF) with true. cbv iota.
    unfold _log_line_interrupt.
    apply Z.eqb_neq in Hflag. rewrite Hflag. cbn [negb].
    unfold fresh. cbn [or_next Token_of_str]. by rewrite advance_next_oid.
  - unfold advance, _get_next_char. destruct (_eof_reached _); [done|].
    by destruct (next_char_from _ _) as [[c st] line'].
Qed.

Lemma line_feed_ends_expression_witness :
  _peek (set_logged 1 (move (lex "") 1 LF ["y"%char])) = Some LF ∧
  Z.land (_logged_token (set_logged 1 (move (lex "") 1 LF ["y"%char])))
    LoggedToken.EXPRESSION ≠ 0 ∧
  scan 2 (set_logged 1 (move (lex "") 1 LF ["y"%char])) =
    Some (Token_ (next_oid (set_logged 1 (move (lex "") 1 LF ["y"%char])))
            (Tag_of_char ";"),
          set_logged LoggedToken.NONE
            (snd (fresh (advance (set_logged 1 (move (lex "") 1 LF ["y"%char])))))) ∧
  _cached_line
    (set_logged LoggedToken.NONE
       (snd (fresh (advance (set_logged 1 (move (lex "") 1 LF ["y"%char]))))))
    = _cached_line (set_logged 1 (move (lex "") 1 LF ["y"%char])).
Proof.
  assert (Hflag : Z.land (_logged_token (set_logged 1 (move (lex "") 1 LF ["y"%char])))
                    LoggedToken.EXPRESSION ≠ 0) by discriminate.
  split; [reflexivity|]. split; [exact Hflag|].
  exact (line_feed_ends_expression 0 (set_logged 1 (move (lex "") 1 LF ["y"%char]))
           eq_refl Hflag).
Defined.

(** The line feed that ends [x] comes back as [;], also when a brace stands
    between them; the line feed after the brace alone does not. *)
Example scan_line_ends :
  fst <$> scan_times 9 6 (lex (String "x" (String " " (String "{" (String LF
                                 (String "}" (String LF "y"))))))) =
  Some [Id 15 "x"; Token_ 16 (Tag_of_char "{"); Token_ 17 (Tag_of_char ";");
        Token_ 18 (Tag_of_char "}"); Id 19 "y"; end_marker 20].
Proof. vm_compute. reflexivity. Qed.

(** X14. A backslash directly before a line feed joins two lines: both are
    skipped, the line is counted, no [;] is made of the line feed.  But the
    test stands at the head of a pass of [scan] only: when blanks come before
    the backslash, the pass has left the test behind by the time it reaches
    it, and the backslash comes back as an operator token. *)
Theorem line_continuation_needs_no_blank (n : nat) (lx : Lexer) (k : Z)
    (rest : list ascii) :
  scan (S n) (move lx k "\" (LF :: rest)) =
    scan n (advance (move lx (k + 1) LF rest)) ∧
  scan (S (S (S n))) (move lx k " " ("\"%char :: LF :: rest)) =
    Some (Token_ (next_oid lx) (Tag_of_char "\"),
          advance (punctuation_seen "\" (move lx k "\" (LF :: rest)))).
Proof.
  split.
  - cbn [scan]. unfold scan_pass, line_continuation. cbn [_peek move is_char].
    change (Ascii.eqb "\" "\") with true.
    change (is_char (peek (_istream (move lx k "\" (LF :: rest)))) LF) with true.
    cbn [andb or_next]. fold (move lx k "\"%char (LF :: rest)).
    by rewrite advance_move_LF.
  - cbn [scan]. unfold scan_pass, line_continuation. cbn [_peek move is_char].
    change (Ascii.eqb " " "\") with false. cbn [andb or_next skip_spaces].
    cbn [_peek move holds is_char]. change (isspace " ") with true.
    change (Ascii.eqb " " LF) with false. cbv iota.
    fold (move lx k " "%char ("\"%char :: LF :: rest)).
    rewrite advance_move by done. cbn [_peek move holds].
    change (isspace "\") with false. cbn [or_next].
    unfold scan_number. cbn [_peek move holds]. change (isdigit "\") with false.
    cbn [or_next]. unfold scan_word. cbn [_peek move holds].
    change (isalpha "\") with false. cbn [or_next].
    unfold hash_comments. cbn [_peek move is_char].
    change (Ascii.eqb "\" "#") with false. cbn [or_next].
    unfold slash_comments. cbn [_peek move is_char].
    change (Ascii.eqb "\" "/") with false.
    fold (move lx k "\"%char (LF :: rest)). reflexivity.
Qed.

(** ** Line comments *)

Lemma scan_unfold n lx :
  scan (S n) lx =
    match scan_pass n lx with
    | None => None
    | Some (Return t lx') => Some (t, lx')
    | Some (Continue lx') => scan n lx'
    end.
Proof. reflexivity. Qed.

Lemma skip_line_body body : ∀ n lx k c rest,
  c ≠ LF →
  Forall (λ b, b ≠ LF ∧ b ≠ CR) body →
  (length body + 2 ≤ n)%nat →
  skip_line n (move lx k c (body ++ LF :: rest)) = Some (move lx (k + 1) LF rest).
Proof.
  induction body as [|b body IH]; intros n lx k c rest Hc Hbody Hn;
    cbn [length] in Hn; (destruct n as [|n]; [lia|]);
    cbn [app skip_line _peek move]; apply Ascii.eqb_neq in Hc as Hc'; rewrite Hc'.
  - fold (move lx k c (LF :: rest)). rewrite advance_move_LF.
    destruct n as [|n]; [lia|]. reflexivity.
  - apply Forall_cons in Hbody as [[Hlf Hcr] Hbody].
    fold (move lx k c (b :: body ++ LF :: rest)).
    destruct (Ascii.eqb_spec b TAB) as [->|Htab].
    + rewrite advance_skips_tab.
      specialize (IH (S n) lx k c rest Hc Hbody). cbn [skip_line _peek move] in IH.
      rewrite Hc' in IH. apply IH. lia.
    + rewrite advance_move by done. apply IH; [done|done|lia].
Qed.

(** X15. A line comment, [# ...] or [// ...], runs up to the line feed and does
    not swallow it: the line feed is dealt with as a line end, so it comes
    back as [;] after an expression, and otherwise scanning goes on behind
    it. *)
Theorem line_comment_keeps_line_end (n : nat) (lx : Lexer) (k : Z)
    (body rest : list ascii) :
  Forall (λ b, b ≠ LF ∧ b ≠ CR) body →
  (length body + 3 ≤ n)%nat →
  (head body ≠ Some "<"%char →
   scan (S n) (move lx k "#" (body ++ LF :: rest)) =
     match _log_line_interrupt (move lx (k + 1) LF rest) with
     | (Some t, lx1) => Some (t, lx1)
     | (None, lx1) => scan n (advance lx1)
     end) ∧
  scan (S n) (move lx k "/" ("/"%char :: body ++ LF :: rest)) =
    match _log_line_interrupt (move lx (k + 1) LF rest) with
    | (Some t, lx1) => Some (t, lx1)
    | (None, lx1) => scan n (advance lx1)
    end.
Proof.
  intros Hbody Hn. rewrite !scan_unfold. destruct n as [|n]; [lia|]. split.
  - intros Hhead. unfold scan_pass, line_continuation.
    cbn [_peek move is_char]. change (Ascii.eqb "#" "\") with false.
    cbn [andb or_next skip_spaces _peek move holds].
    change (isspace "#") with false. cbn [or_next].
    unfold scan_number. cbn [_peek move holds]. change (isdigit "#") with false.
    cbn [or_next]. unfold scan_word. cbn [_peek move holds].
    change (isalpha "#") with false. cbn [or_next].
    unfold hash_comments, peek. cbn [_peek move is_char _istream pending].
    change (Ascii.eqb "#" "#") with true. cbv iota.
    assert (Hnot : is_char (head (body ++ LF :: rest)) "<" = false).
    { destruct body as [|b body]; [done|]. cbn in *.
      apply Ascii.eqb_neq. congruence. }
    rewrite Hnot. fold (move lx k "#"%char (body ++ LF :: rest)).
    rewrite skip_line_body; [|done|done|lia].
    unfold after_line_comment. cbn [_peek move is_char].
    change (Ascii.eqb LF LF) with true. cbv iota.
    fold (move lx (k + 1) LF rest).
    by destruct (_log_line_interrupt (move lx (k + 1) LF rest)) as [[t|] lx1].
  - unfold scan_pass, line_continuation.
    cbn [_peek move is_char]. change (Ascii.eqb "/" "\") with false.
    cbn [andb or_next skip_spaces _peek move holds].
    change (isspace "/") with false. cbn [or_next].
    unfold scan_number. cbn [_peek move holds]. change (isdigit "/") with false.
    cbn [or_next]. unfold scan_word. cbn [_peek move holds].
    change (isalpha "/") with false. cbn [or_next].
    unfold hash_comments. cbn [_peek move is_char].
    change (Ascii.eqb "/" "#") with false. cbn [or_next].
    unfold slash_comments, peek. cbn [_peek move is_char _istream pending head].
    change (Ascii.eqb "/" "/") with true. cbv iota.
    fold (move lx k "/"%char ("/"%char :: body ++ LF :: rest)).
    change ("/"%char :: body ++ LF :: rest) with (("/"%char :: body) ++ LF :: rest).
    rewrite (skip_line_body ("/"%char :: body)); [|done| |cbn [length]; lia].
    2: { constructor; [done|done]. }
    unfold after_line_comment. cbn [_peek move is_char].
    change (Ascii.eqb LF LF) with true. cbv iota.
    fold (move lx (k + 1) LF rest).
    by destruct (_log_line_interrupt (move lx (k + 1) LF rest)) as [[t|] lx1].
Qed.

Lemma line_comment_keeps_line_end_witness :
  Forall (λ b, b ≠ LF ∧ b ≠ CR) [" "; "c"]%char ∧
  (length [" "; "c"]%char + 3 ≤ 5)%nat ∧
  (head [" "; "c"]%char ≠ Some "<"%char →
   scan 6 (move (set_logged 1 (lex "")) 0 "#" ([" "; "c"]%char ++ LF :: ["y"%char])) =
     match _log_line_interrupt (move (set_logged 1 (lex "")) (0 + 1) LF ["y"%char]) with
     | (Some t, lx1) => Some (t, lx1)
     | (None, lx1) => scan 5 (advance lx1)
     end) ∧
  scan 6 (move (set_logged 1 (lex "")) 0 "/"
            ("/"%char :: [" "; "c"]%char ++ LF :: ["y"%char])) =
    match _log_line_interrupt (move (set_logged 1 (lex "")) (0 + 1) LF ["y"%char]) with
    | (Some t, lx1) => Some (t, lx1)
    | (None, lx1) => scan 5 (advance lx1)
    end.
Proof.
  assert (Hbody : Forall (λ b, b ≠ LF ∧ b ≠ CR) [" "; "c"]%char)
    by (repeat constructor; discriminate).
  assert (Hn : (length [" "; "c"]%char + 3 ≤ 5)%nat) by (cbn; lia).
  split; [exact Hbody|]. split; [exact Hn|].
  exact (line_comment_keeps_line_end 5 (set_logged 1 (lex "")) 0 [" "; "c"]%char
           ["y"%char] Hbody Hn).
Defined.
(** ** Termination of [scan] *)

(** The text ahead gets shorter: it is the measure of every loop of the
    lexer; and it stays free of block-comment openers. *)

Lemma no_block_open_tail c cs : no_block_open (c :: cs) = true → no_block_open cs = true.
Proof. cbn [no_block_open]. by intros [_ ?]%andb_true_iff. Qed.

Lemma no_block_open_LF c cs :
  no_block_open (c :: cs) = true → no_block_open (LF :: cs) = true.
Proof. cbn [no_block_open]. by intros [_ ->]%andb_true_iff. Qed.

Lemma no_block_open_hash cs :
  no_block_open ("#"%char :: cs) = true → is_char (head cs) "<" = false.
Proof.
  cbn [no_block_open]. intros [H _]%andb_true_iff.
  apply negb_true_iff, orb_false_iff in H as [H _]. done.
Qed.

Lemma no_block_open_slash cs :
  no_block_open ("/"%char :: cs) = true → is_char (head cs) "*" = false.
Proof.
  cbn [no_block_open]. intros [H _]%andb_true_iff.
  apply negb_true_iff, orb_false_iff in H as [_ H]. done.
Qed.

Lemma next_char_from_ahead src : ∀ line,
  (length (option_list (next_char_from src line).1.1
           ++ pending (next_char_from src line).1.2) ≤ length src)%nat ∧
  (no_block_open src = true →
   no_block_open (option_list (next_char_from src line).1.1
                  ++ pending (next_char_from src line).1.2) = true).
Proof.
  induction src as [|c rest IH]; intros line; cbn [next_char_from].
  - cbn. split; [lia|done].
  - destruct (Ascii.eqb c TAB).
    + destruct (IH line) as [Hlen Hcalm]. split; [cbn [length]; lia|].
      intros Hsrc. by apply Hcalm, (no_block_open_tail c).
    + destruct (Ascii.eqb c LF || _); unfold option_list;
        cbn [fst snd pending length app option_rect].
      * split; [lia|]. apply no_block_open_LF.
      * split; [lia|done].
Qed.

Lemma advance_ahead lx :
  (size (advance lx) ≤ length (pending (_istream lx)))%nat ∧
  (no_block_open (pending (_istream lx)) = true → calm (advance lx)).
Proof.
  unfold size, calm, advance, _get_next_char, text_ahead.
  destruct (_eof_reached (_istream lx)).
  - cbn. split; [lia|done].
  - pose proof (next_char_from_ahead (pending (_istream lx)) (_line lx)) as Hnext.
    by destruct (next_char_from _ _) as [[c st] line'].
Qed.

Lemma advance_progress lx c :
  _peek lx = Some c → calm lx → progress lx (advance lx).
Proof.
  intros Hpeek Hcalm. destruct (advance_ahead lx) as [Hlen Hkeeps].
  unfold progress, calm, size in *. unfold text_ahead at 2. unfold text_ahead in Hcalm.
  rewrite Hpeek in Hcalm |- *. unfold option_list in *.
  cbn [option_rect app length] in *. split; [lia|].
  by apply Hkeeps, (no_block_open_tail c).
Qed.

Lemma progress_trans lx1 lx2 lx3 :
  progress lx1 lx2 → progress lx2 lx3 → progress lx1 lx3.
Proof. unfold progress. intros [? ?] [? ?]. split; [lia|done]. Qed.

Lemma line_interrupt_ahead lx :
  match _log_line_interrupt lx with
  | (Some _, lx1) => text_ahead lx1 = text_ahead (advance lx)
  | (None, lx1) => text_ahead lx1 = text_ahead lx
  end.
Proof. unfold _log_line_interrupt. by repeat destruct (negb _). Qed.

Lemma onward_after lx lx1 r :
  lx1 = lx ∨ progress lx lx1 → onward lx1 r → onward lx r.
Proof.
  intros [->|Hstep]; [done|].
  destruct r as [[t lx'|lx']|lx']; cbn; intros Hr.
  - by eapply progress_trans.
  - by eapply progress_trans.
  - destruct Hr as [->|Hr]; [by right|]. right. by eapply progress_trans.
Qed.

Lemma skip_spaces_returns n : ∀ lx,
  calm lx → (size lx < n)%nat →
  ∃ r, skip_spaces n lx = Some r ∧ onward lx r.
Proof.
  induction n as [|n IH]; intros lx Hcalm Hn; [lia|]. cbn [skip_spaces].
  destruct (_peek lx) as [c|] eqn:Hpeek; cbn [holds];
    [|eexists; split; [done|by left]].
  destruct (isspace c); [|eexists; split; [done|by left]].
  pose proof (advance_progress lx c Hpeek Hcalm) as Hadv.
  assert (Hnext : ∀ lx1, text_ahead lx1 = text_ahead lx → _peek lx1 = Some c →
            ∃ r, skip_spaces n (advance lx1) = Some r ∧ onward lx r).
  { intros lx1 Hsame Hpeek1.
    assert (Hstep : progress lx (advance lx1)).
    { destruct (advance_progress lx1 c Hpeek1) as [Hlt Hc];
        [unfold calm; by rewrite Hsame|].
      split; [|done]. unfold size in *. by rewrite <- Hsame. }
    destruct (IH (advance lx1)) as (r & Hr & Hon);
      [apply Hstep|destruct Hstep; lia|].
    exists r. split; [done|]. eapply onward_after; [right; exact Hstep|done]. }
  destruct (is_char (Some c) LF).
  - pose proof (line_interrupt_ahead lx) as Hint.
    assert (Hpeek1 : ∀ lx1, _log_line_interrupt lx = (None, lx1) → _peek lx1 = Some c).
    { unfold _log_line_interrupt. destruct (negb _); [done|].
      destruct (negb _); intros lx1 [= <-]; done. }
    destruct (_log_line_interrupt lx) as [[t|] lx1].
    + eexists. split; [done|]. cbn. unfold progress, calm, size in *.
      by rewrite Hint.
    + apply Hnext; auto.
  - by apply Hnext.
Qed.

Lemma read_digits_returns n : ∀ num_str lx,
  calm lx → (size lx < n)%nat →
  ∃ r, read_digits n num_str lx = Some r ∧ (r.2 = lx ∨ progress lx r.2) ∧
       (holds isdigit (_peek lx) = true → progress lx r.2).
Proof.
  induction n as [|n IH]; intros num_str lx Hcalm Hn; [lia|]. cbn [read_digits].
  destruct (_peek lx) as [c|] eqn:Hpeek; cbn [holds];
    [|eexists; split_and!; [done|by left|done]].
  destruct (isdigit c); [|eexists; split_and!; [done|by left|done]].
  pose proof (advance_progress lx c Hpeek Hcalm) as Hadv.
  destruct (IH (snoc num_str c) (advance lx)) as (r & Hr & Hon & _);
    [apply Hadv|destruct Hadv; lia|].
  assert (Hstep : progress lx r.2).
  { destruct Hon as [->|Hon]; [done|by eapply progress_trans]. }
  exists r. split_and!; [done|by right|done].
Qed.

Lemma read_alphas_returns n : ∀ id_str lx,
  calm lx → (size lx < n)%nat →
  ∃ r, read_alphas n id_str lx = Some r ∧ (r.2 = lx ∨ progress lx r.2) ∧
       (holds isalpha (_peek lx) = true → progress lx r.2).
Proof.
  induction n as [|n IH]; intros id_str lx Hcalm Hn; [lia|]. cbn [read_alphas].
  destruct (_peek lx) as [c|] eqn:Hpeek; cbn [holds];
    [|eexists; split_and!; [done|by left|done]].
  destruct (isalpha c); [|eexists; split_and!; [done|by left|done]].
  pose proof (advance_progress lx c Hpeek Hcalm) as Hadv.
  destruct (IH (snoc id_str c) (advance lx)) as (r & Hr & Hon & _);
    [apply Hadv|destruct Hadv; lia|].
  assert (Hstep : progress lx r.2).
  { destruct Hon as [->|Hon]; [done|by eapply progress_trans]. }
  exists r. split_and!; [done|by right|done].
Qed.

Lemma skip_line_returns n : ∀ lx,
  calm lx → (size lx < n)%nat →
  ∃ lx', skip_line n lx = Some lx' ∧ (lx' = lx ∨ progress lx lx').
Proof.
  induction n as [|n IH]; intros lx Hcalm Hn; [lia|]. cbn [skip_line].
  destruct (_peek lx) as [c|] eqn:Hpeek; [|eexists; split; [done|by left]].
  destruct (Ascii.eqb c LF); [eexists; split; [done|by left]|].
  pose proof (advance_progress lx c Hpeek Hcalm) as Hadv.
  destruct (IH (advance lx)) as (lx' & Hr & Hon); [apply Hadv|destruct Hadv; lia|].
  exists lx'. split; [done|]. right.
  destruct Hon as [->|Hon]; [done|by eapply progress_trans].
Qed.

Lemma progress_calm lx lx1 : calm lx → lx1 = lx ∨ progress lx lx1 → calm lx1.
Proof. by intros Hcalm [->|[_ ?]]. Qed.

Lemma progress_size lx lx1 n :
  (size lx < n)%nat → lx1 = lx ∨ progress lx lx1 → (size lx1 < n)%nat.
Proof. intros Hn [->|[? _]]; [done|lia]. Qed.

Lemma progress_after lx lx1 lx2 :
  lx1 = lx ∨ progress lx lx1 → progress lx1 lx2 → progress lx lx2.
Proof. intros [->|Hstep]; [done|]. by apply progress_trans. Qed.

Lemma advance_calm lx : calm lx → calm (advance lx) ∧ (size (advance lx) ≤ size lx)%nat.
Proof.
  intros Hcalm. destruct (_peek lx) as [c|] eqn:Hpeek.
  - destruct (advance_progress lx c Hpeek Hcalm). split; [done|lia].
  - destruct (advance_ahead lx) as [Hlen Hkeeps].
    unfold calm, size in *. unfold text_ahead at 3. unfold text_ahead in Hcalm.
    rewrite Hpeek in Hcalm |- *. cbn in Hcalm |- *. auto.
Qed.

Lemma scan_number_returns n lx :
  calm lx → (size lx < n)%nat →
  ∃ r, scan_number n lx = Some r ∧ onward lx r.
Proof.
  intros Hcalm Hn. unfold scan_number.
  destruct (holds isdigit (_peek lx)) eqn:Hdigit;
    [|eexists; split; [done|by left]].
  destruct (read_digits_returns n "" lx Hcalm Hn) as ([num_str lx1] & Hr & _ & Hstep).
  specialize (Hstep Hdigit). cbn [snd] in Hstep. rewrite Hr.
  destruct (negb _) eqn:Hdot.
  - eexists. split; [done|]. exact Hstep.
  - apply negb_false_iff in Hdot.
    destruct (_peek lx1) as [c|] eqn:Hpeek1; [|done].
    pose proof (advance_progress lx1 c Hpeek1 (proj2 Hstep)) as Hadv.
    pose proof (progress_trans _ _ _ Hstep Hadv) as Hstep2.
    destruct (read_digits_returns n (snoc num_str ".") (advance lx1))
      as ([num_str2 lx2] & Hr2 & Hon2 & _);
      [apply Hadv|destruct Hstep2; lia|].
    rewrite Hr2. eexists. split; [done|]. right. cbn [snd] in Hon2.
    destruct Hon2 as [->|Hon2]; [done|by eapply progress_trans].
Qed.

Lemma intern_ahead id_str lx : text_ahead (intern id_str lx).2 = text_ahead lx.
Proof. unfold intern. by destruct (_id_table lx !! id_str). Qed.

Lemma scan_word_returns n lx :
  calm lx → (size lx < n)%nat →
  ∃ r, scan_word n lx = Some r ∧ onward lx r.
Proof.
  intros Hcalm Hn. unfold scan_word.
  destruct (holds isalpha (_peek lx)) eqn:Halpha;
    [|eexists; split; [done|by left]].
  destruct (read_alphas_returns n "" lx Hcalm Hn) as ([id_str lx1] & Hr & _ & Hstep).
  specialize (Hstep Halpha). cbn [snd] in Hstep. rewrite Hr.
  pose proof (intern_ahead id_str lx1) as Hsame.
  destruct (intern id_str lx1) as [t lx2]. cbn [snd] in Hsame.
  eexists. split; [done|]. cbn. unfold progress, calm, size in *. by rewrite Hsame.
Qed.

Lemma after_line_comment_onward lx : calm lx → onward lx (after_line_comment lx).
Proof.
  intros Hcalm. unfold after_line_comment.
  destruct (_peek lx) as [c|] eqn:Hpeek; cbn [is_char]; [|by left].
  destruct (Ascii.eqb c LF); [|by left].
  pose proof (advance_progress lx c Hpeek Hcalm) as Hadv.
  pose proof (line_interrupt_ahead lx) as Hint.
  assert (Hpeek1 : ∀ lx1, _log_line_interrupt lx = (None, lx1) → _peek lx1 = Some c).
  { unfold _log_line_interrupt. destruct (negb _); [done|].
    destruct (negb _); intros lx1 [= <-]; done. }
  destruct (_log_line_interrupt lx) as [[t|] lx1]; cbn.
  - unfold progress, calm, size in *. by rewrite Hint.
  - destruct (advance_progress lx1 c) as [Hlt Hc]; [by apply Hpeek1| |].
    + unfold calm. by rewrite Hint.
    + split; [|done]. unfold size in *. by rewrite <- Hint.
Qed.

Lemma line_comment_onward n lx :
  calm lx → (size lx < n)%nat →
  ∃ r, match skip_line n lx with
       | None => None
       | Some lx1 => Some (after_line_comment lx1)
       end = Some r ∧ onward lx r.
Proof.
  intros Hcalm Hn.
  destruct (skip_line_returns n lx Hcalm Hn) as (lx1 & Hr & Hon). rewrite Hr.
  eexists. split; [done|].
  eapply onward_after; [exact Hon|].
  apply after_line_comment_onward. by eapply progress_calm.
Qed.

Lemma hash_comments_returns n lx :
  calm lx → (size lx < n)%nat →
  ∃ r, hash_comments n lx = Some r ∧ onward lx r.
Proof.
  intros Hcalm Hn. unfold hash_comments.
  destruct (_peek lx) as [c|] eqn:Hpeek; cbn [is_char];
    [|eexists; split; [done|by left]].
  destruct (Ascii.eqb_spec c "#") as [->|Hne]; [|eexists; split; [done|by left]].
  assert (Hnot : is_char (peek (_istream lx)) "<" = false).
  { apply no_block_open_hash. unfold calm, text_ahead in Hcalm.
    by rewrite Hpeek in Hcalm. }
  rewrite Hnot. by apply line_comment_onward.
Qed.

Lemma slash_comments_returns n lx :
  calm lx → (size lx < n)%nat →
  ∃ r, slash_comments n lx = Some r ∧ onward lx r.
Proof.
  intros Hcalm Hn. unfold slash_comments.
  destruct (_peek lx) as [c|] eqn:Hpeek; cbn [is_char];
    [|eexists; split; [done|by left]].
  destruct (Ascii.eqb_spec c "/") as [->|Hne]; [|eexists; split; [done|by left]].
  destruct (is_char (peek (_istream lx)) "/"); [by apply line_comment_onward|].
  assert (Hnot : is_char (peek (_istream lx)) "*" = false).
  { apply no_block_open_slash. unfold calm, text_ahead in Hcalm.
    by rewrite Hpeek in Hcalm. }
  rewrite Hnot. eexists; split; [done|by left].
Qed.

(** What a call of [scan] hands back: less text ahead, or the same text when
    the lexer already stood at the end. *)
Lemma scan_operator_onward lx :
  calm lx →
  match scan_operator lx with
  | Return _ lx' => (_peek lx = None ∧ text_ahead lx' = text_ahead lx) ∨ progress lx lx'
  | Continue lx' => progress lx lx'
  end.
Proof.
  intros Hcalm. unfold scan_operator, fresh.
  destruct lx as [ln cl [c|] ist tb lg o]; cbn [_peek]; [|by left].
  set (lx := mkLexer ln cl (Some c) ist tb lg o) in *.
  assert (Hadv : ∀ lx1, text_ahead lx1 = text_ahead lx → _peek lx1 = Some c →
            progress lx (advance lx1)).
  { intros lx1 Hsame Hpeek1.
    destruct (advance_progress lx1 c Hpeek1) as [Hlt Hc];
      [unfold calm; by rewrite Hsame|].
    split; [|done]. unfold size in *. by rewrite <- Hsame. }
  destruct (bool_decide _).
  - by apply Hadv.
  - right. apply Hadv; by destruct (negb _).
Qed.

Lemma line_continuation_onward lx : calm lx → onward lx (line_continuation lx).
Proof.
  intros Hcalm. unfold line_continuation.
  destruct (_peek lx) as [c|] eqn:Hpeek; cbn [is_char andb]; [|by left].
  destruct (Ascii.eqb c "\" && _); [|by left].
  destruct (advance_progress lx c Hpeek Hcalm) as [Hlt Hc].
  destruct (advance_calm (advance lx) Hc) as [Hc2 Hle].
  cbn. split; [lia|done].
Qed.

Lemma scan_pass_returns n lx :
  calm lx → (size lx < n)%nat →
  ∃ f, scan_pass n lx = Some f ∧
    match f with
    | Return _ lx' =>
        (_peek lx = None ∧ text_ahead lx' = text_ahead lx) ∨ progress lx lx'
    | Continue lx' => progress lx lx'
    end.
Proof.
  intros Hcalm Hn.
  set (P := λ f : Flow,
    match f with
    | Return _ lx' =>
        (_peek lx = None ∧ text_ahead lx' = text_ahead lx) ∨ progress lx lx'
    | Continue lx' => progress lx lx'
    end).
  assert (Hnext : ∀ lx0 r (k : Lexer → option Flow),
    lx0 = lx ∨ progress lx lx0 → onward lx0 r →
    (∀ lx1, lx1 = lx ∨ progress lx lx1 → ∃ f, k lx1 = Some f ∧ P f) →
    ∃ f, or_next (Some r) k = Some f ∧ P f).
  { intros lx0 [[t lx'|lx']|lx1] k H0 Hr Hk; cbn in Hr |- *.
    - eexists. split; [done|]. right. by eapply progress_after.
    - eexists. split; [done|]. by eapply progress_after.
    - apply Hk. destruct Hr as [->|Hr]; [done|]. right. by eapply progress_after. }
  unfold scan_pass.
  apply (Hnext lx); [by left|by apply line_continuation_onward|].
  intros lx0 H0.
  destruct (skip_spaces_returns n lx0) as (r1 & Hr1 & Hon1);
    [by eapply progress_calm|by eapply progress_size|]. rewrite Hr1.
  apply (Hnext lx0); [done..|]. intros lx1 H1.
  destruct (scan_number_returns n lx1) as (r2 & Hr2 & Hon2);
    [by eapply progress_calm|by eapply progress_size|]. rewrite Hr2.
  apply (Hnext lx1); [done..|]. intros lx2 H2.
  destruct (scan_word_returns n lx2) as (r3 & Hr3 & Hon3);
    [by eapply progress_calm|by eapply progress_size|]. rewrite Hr3.
  apply (Hnext lx2); [done..|]. intros lx3 H3.
  destruct (hash_comments_returns n lx3) as (r4 & Hr4 & Hon4);
    [by eapply progress_calm|by eapply progress_size|]. rewrite Hr4.
  apply (Hnext lx3); [done..|]. intros lx4 H4.
  destruct (slash_comments_returns n lx4) as (r5 & Hr5 & Hon5);
    [by eapply progress_calm|by eapply progress_size|]. rewrite Hr5.
  apply (Hnext lx4); [done..|]. intros lx5 H5.
  eexists. split; [done|].
  pose proof (scan_operator_onward lx5 (progress_calm _ _ Hcalm H5)) as Hop.
  destruct (scan_operator lx5) as [t lx'|lx']; cbn.
  - destruct H5 as [->|H5]; [done|]. right.
    destruct Hop as [[_ Hsame]|Hop]; [|by eapply progress_trans].
    destruct H5 as [Hlt Hc]. unfold progress, calm, size in *. by rewrite Hsame.
  - by eapply progress_after.
Qed.

Lemma scan_returns_calm (n : nat) (lx : Lexer) :
  no_block_open (text_ahead lx) = true →
  (length (text_ahead lx) + 2 ≤ n)%nat →
  ∃ t lx', scan n lx = Some (t, lx') ∧
    no_block_open (text_ahead lx') = true ∧
    (length (text_ahead lx') ≤ length (text_ahead lx))%nat ∧
    (_peek lx ≠ None → (length (text_ahead lx') < length (text_ahead lx))%nat).
Proof.
  revert lx. induction n as [|n IH]; intros lx Hcalm Hn; [lia|].
  rewrite scan_unfold.
  destruct (scan_pass_returns n lx Hcalm) as (f & Hf & Hon);
    [unfold size; lia|]. rewrite Hf.
  destruct f as [t lx'|lx'].
  - exists t, lx'. split; [done|].
    destruct Hon as [[Hend Hsame]|[Hlt Hc]].
    + rewrite Hsame. split_and!; [done|lia|done].
    + unfold size in Hlt. split_and!; [done|lia|lia].
  - destruct Hon as [Hlt Hc]. unfold size in Hlt.
    destruct (IH lx' Hc) as (t & lx'' & Hscan & Hc' & Hle & _); [lia|].
    exists t, lx''. split_and!; [done|done|lia|lia].
Qed.

(** X16. [scan] returns on every ASCII text in which no block comment opens
    and which holds no more digits than [int()] accepts: with fuel for two
    passes more than there are characters ahead, it hands back a token,
    having consumed at least one character unless it stood at the end of the
    text already.  (Inside a block comment that is not closed it does not
    return; on more than 4300 digits in a row, or on a digit that is not
    ASCII, [int()] raises.) *)
Theorem scan_terminates_without_block_comments (n : nat) (lx : Lexer) :
  ascii_text (text_ahead lx) →
  Z.of_nat (digits_in (text_ahead lx)) ≤ max_str_digits →
  no_block_open (text_ahead lx) = true →
  (length (text_ahead lx) + 2 ≤ n)%nat →
  ∃ t lx', scan n lx = Some (t, lx') ∧
    no_block_open (text_ahead lx') = true ∧
    (length (text_ahead lx') ≤ length (text_ahead lx))%nat ∧
    (_peek lx ≠ None → (length (text_ahead lx') < length (text_ahead lx))%nat).
Proof. intros _ _. apply scan_returns_calm. Qed.

Lemma scan_terminates_without_block_comments_witness :
  ascii_text (text_ahead (lex "x = 1 // c")) ∧
  Z.of_nat (digits_in (text_ahead (lex "x = 1 // c"))) ≤ max_str_digits ∧
  no_block_open (text_ahead (lex "x = 1 // c")) = true ∧
  (length (text_ahead (lex "x = 1 // c")) + 2 ≤ 13)%nat ∧
  ∃ t lx', scan 13 (lex "x = 1 // c") = Some (t, lx') ∧
    no_block_open (text_ahead lx') = true ∧
    (length (text_ahead lx') ≤ length (text_ahead (lex "x = 1 // c")))%nat ∧
    (_peek (lex "x = 1 // c") ≠ None →
     (length (text_ahead lx') < length (text_ahead (lex "x = 1 // c")))%nat).
Proof.
  assert (Hascii : ascii_text (text_ahead (lex "x = 1 // c")))
    by (apply (bool_decide_unpack _); vm_compute; exact I).
  assert (Hdigits : Z.of_nat (digits_in (text_ahead (lex "x = 1 // c"))) ≤ max_str_digits)
    by (apply Z.leb_le; vm_compute; reflexivity).
  assert (Hn : (length (text_ahead (lex "x = 1 // c")) + 2 ≤ 13)%nat)
    by (vm_compute; lia).
  split_and!; [exact Hascii|exact Hdigits|reflexivity|exact Hn|].
  exact (scan_terminates_without_block_comments 13 (lex "x = 1 // c")
           Hascii Hdigits eq_refl Hn).
Defined.

Lemma Lexer_start_returns_calm (n : nat) (lx : Lexer) :
  no_block_open (text_ahead lx) = true →
  (length (text_ahead lx) + 3 ≤ n)%nat →
  ∃ lx', Lexer_start n lx = Some lx' ∧ _peek lx' = None.
Proof.
  revert lx. induction n as [|n IH]; intros lx Hcalm Hn; [lia|].
  cbn [Lexer_start]. destruct (_peek lx) as [c|] eqn:Hpeek; [|by exists lx].
  destruct (scan_returns_calm n lx Hcalm)
    as (t & lx1 & Hscan & Hc1 & _ & Hlt); [lia|].
  rewrite Hscan. apply IH; [done|].
  assert ((length (text_ahead lx1) < length (text_ahead lx))%nat)
    by (apply Hlt; by rewrite Hpeek).
  lia.
Qed.

(** X17. [Lexer.start] comes to an end on every ASCII text in which no block
    comment opens and which holds no more digits than [int()] accepts, and
    leaves the lexer at the end of the text. *)
Theorem Lexer_start_terminates (n : nat) (lx : Lexer) :
  ascii_text (text_ahead lx) →
  Z.of_nat (digits_in (text_ahead lx)) ≤ max_str_digits →
  no_block_open (text_ahead lx) = true →
  (length (text_ahead lx) + 3 ≤ n)%nat →
  ∃ lx', Lexer_start n lx = Some lx' ∧ _peek lx' = None.
Proof. intros _ _. apply Lexer_start_returns_calm. Qed.

Lemma Lexer_start_terminates_witness :
  ascii_text (text_ahead (lex "x = 1 // c")) ∧
  Z.of_nat (digits_in (text_ahead (lex "x = 1 // c"))) ≤ max_str_digits ∧
  no_block_open (text_ahead (lex "x = 1 // c")) = true ∧
  (length (text_ahead (lex "x = 1 // c")) + 3 ≤ 14)%nat ∧
  ∃ lx', Lexer_start 14 (lex "x = 1 // c") = Some lx' ∧ _peek lx' = None.
Proof.
  assert (Hascii : ascii_text (text_ahead (lex "x = 1 // c")))
    by (apply (bool_decide_unpack _); vm_compute; exact I).
  assert (Hdigits : Z.of_nat (digits_in (text_ahead (lex "x = 1 // c"))) ≤ max_str_digits)
    by (apply Z.leb_le; vm_compute; reflexivity).
  assert (Hn : (length (text_ahead (lex "x = 1 // c")) + 3 ≤ 14)%nat)
    by (vm_compute; lia).
  split_and!; [exact Hascii|exact Hdigits|reflexivity|exact Hn|].
  exact (Lexer_start_terminates 14 (lex "x = 1 // c") Hascii Hdigits eq_refl Hn).
Defined.

(** ** The tokens of the lexer *)

Lemma seeded_entry k t :
  seeded_table 0 !! k = Some t →
  t = Type_ (Token_oid t) k ∨ t = Token_ 0 Tags.TRUE ∨ t = Token_ 1 Tags.FALSE.
Proof.
  unfold seeded_table.
  repeat (rewrite lookup_insert; case_decide;
          [intros [= <-]; subst k; cbn; auto|]).
  by rewrite lookup_empty.
Qed.

(** X19. Interning, for any sequence of calls of [scan] on an ASCII text by a
    lexer that starts with the table of [_init_id_table]: two identifier
    tokens spelt alike are one instance; an identifier is never spelt like a
    reserved word; and a type token, or a plain token whose tag is not that
    of a character ([TRUE] or [FALSE]), is the instance the table was seeded
    with. *)
Theorem words_are_interned (n k : nat) (lx : Lexer) (ts : list Token)
    (lx' : Lexer) :
  ascii_text (text_ahead lx) →
  seeded_table 0 ⊆ _id_table lx →
  table_inv (_id_table lx) →
  scan_times n k lx = Some (ts, lx') →
  (∀ o1 o2 s, Id o1 s ∈ ts → Id o2 s ∈ ts → o1 = o2) ∧
  (∀ o s, Id o s ∈ ts → seeded_table 0 !! s = None) ∧
  (∀ o s, Type_ o s ∈ ts → seeded_table 0 !! s = Some (Type_ o s)) ∧
  (∀ o tag, Token_ o tag ∈ ts → 255 < Tag_value tag →
     ∃ s, seeded_table 0 !! s = Some (Token_ o tag)).
Proof.
  intros _ Hseeded Hinv Hrun.
  destruct (scan_interns n k lx ts lx' Hinv Hrun) as (Hstored & Hsame & _).
  apply scan_times_spec in Hrun as [[Hsub Hkeeps] Htokens].
  specialize (Hkeeps Hinv). rewrite Forall_forall in Htokens.
  split_and!; [done| | |].
  - intros o s Hin%Hstored.
    destruct (seeded_table 0 !! s) as [t|] eqn:Hs; [|done].
    assert (_id_table lx' !! s = Some t) as Ht.
    { eapply lookup_weaken; [|exact Hsub]. eapply lookup_weaken; [exact Hs|done]. }
    rewrite Ht in Hin. injection Hin as ->. by apply seeded_no_identifier in Hs.
  - intros o s [Hchar|[key Hkey]]%Htokens; [done|].
    destruct (Hkeeps _ _ Hkey) as [Hs|[o' [=]]].
    by destruct (seeded_entry _ _ Hs) as [[= ->]|[[=]|[=]]].
  - intros o tag [Hchar|[key Hkey]]%Htokens Hbig; [cbn in Hchar; lia|].
    destruct (Hkeeps _ _ Hkey) as [Hs|[o' [=]]]. by exists key.
Qed.

Lemma words_are_interned_witness :
  ascii_text (text_ahead (lex "int x true x")) ∧
  seeded_table 0 ⊆ _id_table (lex "int x true x") ∧
  table_inv (_id_table (lex "int x true x")) ∧
  ∃ lx', scan_times 6 4 (lex "int x true x") =
           Some ([Type_ 2 "int"; Id 15 "x"; Token_ 0 Tags.TRUE; Id 15 "x"], lx') ∧
    (∀ o1 o2 s,
       Id o1 s ∈ [Type_ 2 "int"; Id 15 "x"; Token_ 0 Tags.TRUE; Id 15 "x"] →
       Id o2 s ∈ [Type_ 2 "int"; Id 15 "x"; Token_ 0 Tags.TRUE; Id 15 "x"] →
       o1 = o2) ∧
    (∀ o s, Id o s ∈ [Type_ 2 "int"; Id 15 "x"; Token_ 0 Tags.TRUE; Id 15 "x"] →
       seeded_table 0 !! s = None) ∧
    (∀ o s, Type_ o s ∈ [Type_ 2 "int"; Id 15 "x"; Token_ 0 Tags.TRUE; Id 15 "x"] →
       seeded_table 0 !! s = Some (Type_ o s)) ∧
    (∀ o tag,
       Token_ o tag ∈ [Type_ 2 "int"; Id 15 "x"; Token_ 0 Tags.TRUE; Id 15 "x"] →
       255 < Tag_value tag → ∃ s, seeded_table 0 !! s = Some (Token_ o tag)).
Proof.
  assert (Hascii : ascii_text (text_ahead (lex "int x true x")))
    by (apply (bool_decide_unpack _); vm_compute; exact I).
  assert (Hsub : seeded_table 0 ⊆ _id_table (lex "int x true x")) by done.
  split; [exact Hascii|]. split; [exact Hsub|]. split; [exact seeded_table_inv|].
  assert (Hrun : ∃ lx', scan_times 6 4 (lex "int x true x") =
            Some ([Type_ 2 "int"; Id 15 "x"; Token_ 0 Tags.TRUE; Id 15 "x"], lx'))
    by (eexists; vm_compute; reflexivity).
  destruct Hrun as [lx' Hrun]. exists lx'. split; [exact Hrun|].
  exact (words_are_interned 6 4 (lex "int x true x") _ lx' Hascii Hsub
           seeded_table_inv Hrun).
Defined.

(** ** The translating parser *)

Section LegacyFacts.
Import Legacy.
Context {L : Type} {src : TokenSource L}.

Lemma legacy_match_sees (t : Tag) (p : Legacy.Parser L) tok l1 :
  Token_tag (_lookahead p) = t →
  source_scan (_lexer p) = Some (tok, l1) →
  match_ t p = Done tt (advanced p l1 tok).
Proof.
  intros <- Hscan. unfold match_. by rewrite Tag_eq_refl, Hscan.
Qed.

Lemma legacy_sees_advance (p : Legacy.Parser L) t ts l' :
  legacy_sees p (t :: ts) l' → ts ≠ [] →
  ∃ t2 l1, source_scan (_lexer p) = Some (t2, l1) ∧
           head ts = Some t2 ∧ ∀ q, legacy_sees (advanced q l1 t2) ts l'.
Proof.
  intros [_ Hemits] Hne. inversion Hemits as [|? t2 l1 rest ? Hscan Hrest]; subst.
  - done.
  - by exists t2, l1.
Qed.

Lemma digit_number (p : Legacy.Parser L) (o : nat) (v : Z) tok l1 :
  _lookahead p = Num o v →
  source_scan (_lexer p) = Some (tok, l1) →
  digit p = Done v (advanced p l1 tok).
Proof.
  intros Hla Hscan. unfold digit.
  unfold bind at 1, lookahead at 1. rewrite Hla.
  unfold Token_eq_str. cbn [Token_tag].
  change (Tag_eq_str Tags.NUM "+") with false.
  change (Tag_eq_str Tags.NUM "-") with false. cbv iota.
  unfold bind at 1, ret at 1. unfold bind at 1, lookahead. rewrite Hla.
  cbn [Token_tag]. rewrite Tag_eq_refl. unfold bind.
  rewrite (legacy_match_sees _ p tok l1) by (done || by rewrite Hla).
  unfold ret. by rewrite Z.mul_1_r.
Qed.

Lemma legacy_sees_last (p : Legacy.Parser L) t l' :
  legacy_sees p [t] l' → _lookahead p = t ∧ _lexer p = l'.
Proof. intros [Hla Hemits]. by inversion Hemits. Qed.

Lemma operator_eq_str (op : Token) (c : ascii) (s : ascii) :
  Token_tag op = Tag_of_char c →
  Token_eq_str op (String s EmptyString) = Ascii.eqb c s.
Proof.
  intros Htag. unfold Token_eq_str, Tag_eq_str. rewrite Htag. cbn [Tag_name Tag_of_char].
  cbn [String.eqb]. by destruct (Ascii.eqb c s).
Qed.

(** The folding loop of [opers] on a chain of operators and numbers. *)
Lemma opers_folding_chain chain : ∀ ts (p : Legacy.Parser L) acc stop l' n,
  chain_tokens chain ts →
  legacy_sees p (ts ++ [stop]) l' →
  accumulator p = Some acc →
  Token_eq_str stop "+" = false →
  Token_eq_str stop "-" = false →
  (length chain < n)%nat →
  opers_folding n p =
    Done tt (mkParser l' stop (_optimize p) (_sym_table p) (_id_queue p)
               (Some (chain_value acc chain))
               (logged p ++ [echo (pretty (chain_value acc chain))])
               (warned p) (errors p)).
Proof.
  induction chain as [|[c v] chain IH]; intros ts p acc stop l' n Hchain Hsees Hacc
    Hplus Hminus Hn; inversion Hchain as [|? ? ? op o ts' Hc Hop Hchain']; subst;
    destruct n as [|n]; try (cbn in Hn; lia); cbn [opers_folding].
  - destruct (legacy_sees_last _ _ _ Hsees) as [Hla Hlx].
    unfold bind, lookahead. rewrite Hla, Hplus, Hminus.
    unfold read_accumulator. rewrite Hacc. unfold log, echo. cbn [chain_value foldl].
    by rewrite Hla, Hlx, Hacc.
  - cbn [app] in Hsees.
    destruct (legacy_sees_advance p _ _ _ Hsees) as (t2 & l1 & Hs1 & Ht2 & Hsees1);
      [done|]. cbn in Ht2. injection Ht2 as <-.
    destruct (legacy_sees_advance _ _ _ _ (Hsees1 p)) as (t3 & l2 & Hs2 & Ht3 & Hsees2);
      [by destruct ts'|]. cbn [_lexer advanced] in Hs2.
    unfold bind at 1, lookahead. rewrite (proj1 Hsees).
    rewrite !(operator_eq_str op c) by done.
    assert (Hm : match_ (Tag_of_char c) p = Done tt (advanced p l1 (Num o v)))
      by (apply legacy_match_sees; [by rewrite (proj1 Hsees)|done]).
    assert (Hd : ∀ q, digit (advanced q l1 (Num o v)) =
                      Done v (advanced (advanced q l1 (Num o v)) l2 t3))
      by (intros q; by apply (digit_number _ o)).
    destruct Hc as [-> | ->]; cbn [Ascii.eqb Bool.eqb andb]; cbv iota;
      unfold bind at 1; rewrite Hm; unfold bind at 1, read_accumulator;
      cbn [accumulator advanced]; rewrite Hacc;
      unfold bind at 1; rewrite Hd; unfold bind, put_accumulator;
      cbn [_lexer _lookahead _optimize _sym_table _id_queue accumulator logged
           warned errors advanced].
    + erewrite (IH ts' _ _ stop l'); [done| done | | done | done | done | cbn in Hn |- *; lia].
      apply (Hsees2 p).
    + erewrite (IH ts' _ _ stop l'); [done| done | | done | done | done | cbn in Hn |- *; lia].
      apply (Hsees2 p).
Qed.

(** The echoing loop of [opers] on a chain of operators and numbers. *)
Lemma opers_echoing_chain chain : ∀ ts (p : Legacy.Parser L) acc stop l' n,
  chain_tokens chain ts →
  legacy_sees p (ts ++ [stop]) l' →
  accumulator p = Some acc →
  Token_eq_str stop "+" = false →
  Token_eq_str stop "-" = false →
  (length chain < n)%nat →
  opers_echoing n p =
    Done tt (mkParser l' stop (_optimize p) (_sym_table p) (_id_queue p)
               (Some (chain_last acc chain))
               (logged p ++ echo (pretty acc) :: chain_echo chain)
               (warned p) (errors p)).
Proof.
  induction chain as [|[c v] chain IH]; intros ts p acc stop l' n Hchain Hsees Hacc
    Hplus Hminus Hn; inversion Hchain as [|? ? ? op o ts' Hc Hop Hchain']; subst;
    destruct n as [|n]; try (cbn in Hn; lia); cbn [opers_echoing].
  - destruct (legacy_sees_last _ _ _ Hsees) as [Hla Hlx].
    unfold bind, read_accumulator. rewrite Hacc. unfold log, lookahead.
    cbn [_lexer _lookahead _optimize _sym_table _id_queue accumulator logged
         warned errors].
    rewrite Hla, Hplus, Hminus. unfold ret. cbn [chain_last chain_echo foldl flat_map].
    by rewrite Hlx, Hacc.
  - cbn [app] in Hsees.
    destruct (legacy_sees_advance p _ _ _ Hsees) as (t2 & l1 & Hs1 & Ht2 & Hsees1);
      [done|]. cbn in Ht2. injection Ht2 as <-.
    destruct (legacy_sees_advance _ _ _ _ (Hsees1 p)) as (t3 & l2 & Hs2 & Ht3 & Hsees2);
      [by destruct ts'|]. cbn [_lexer advanced] in Hs2.
    unfold bind at 1, read_accumulator. rewrite Hacc.
    unfold bind at 1, log at 1. unfold bind at 1, lookahead.
    cbn [_lexer _lookahead _optimize _sym_table _id_queue accumulator logged
         warned errors].
    rewrite (proj1 Hsees). rewrite !(operator_eq_str op c) by done.
    set (p1 := mkParser _ op _ _ _ _ _ _ _).
    assert (Hm : match_ (Tag_of_char c) p1 = Done tt (advanced p1 l1 (Num o v)))
      by (by apply legacy_match_sees).
    assert (Hd : ∀ q, digit (advanced q l1 (Num o v)) =
                      Done v (advanced (advanced q l1 (Num o v)) l2 t3))
      by (intros q; by apply (digit_number _ o)).
    destruct Hc as [-> | ->]; cbn [Ascii.eqb Bool.eqb andb]; cbv iota;
      unfold bind at 1; rewrite Hm; unfold bind at 1, log at 1;
      unfold bind at 1;
      match goal with |- context [digit ?q] =>
        change q with (advanced q l1 (Num o v)) end;
      rewrite Hd; unfold bind, put_accumulator;
      cbn [_lexer _lookahead _optimize _sym_table _id_queue accumulator logged
           warned errors advanced p1].
    + erewrite (IH ts' _ _ stop l'); [| done | | done | done | done | cbn in Hn |- *; lia].
      * cbn [_lexer _lookahead _optimize _sym_table _id_queue accumulator logged
             warned errors]. unfold chain_echo. cbn [flat_map fst snd app].
        by rewrite <- !app_assoc.
      * apply (Hsees2 p).
    + erewrite (IH ts' _ _ stop l'); [| done | | done | done | done | cbn in Hn |- *; lia].
      * cbn [_lexer _lookahead _optimize _sym_table _id_queue accumulator logged
             warned errors]. unfold chain_echo. cbn [flat_map fst snd app].
        by rewrite <- !app_assoc.
      * apply (Hsees2 p).
Qed.

(** [opers] on a number and a chain, with more tokens behind. *)
Lemma legacy_opers_sees chain ts (p : Legacy.Parser L) o v0 stop rest l' n :
  legacy_sees p (Num o v0 :: ts ++ stop :: rest) l' →
  chain_tokens chain ts →
  Token_eq_str stop "+" = false →
  Token_eq_str stop "-" = false →
  (length chain < n)%nat →
  ∃ l1, opers n p =
          Done tt (mkParser l1 stop (_optimize p) (_sym_table p) (_id_queue p)
                     (Some (if _optimize p then chain_value v0 chain
                            else chain_last v0 chain))
                     (logged p ++
                        (if _optimize p then [echo (pretty (chain_value v0 chain))]
                         else echo (pretty v0) :: chain_echo chain))
                     (warned p) (errors p)) ∧
        emits l1 rest l'.
Proof.
  intros [Hla Hemits] Hchain Hplus Hminus Hn.
  replace (ts ++ stop :: rest) with ((ts ++ [stop]) ++ rest) in Hemits
    by (by rewrite <- app_assoc).
  apply emits_app_inv in Hemits as (l1 & Hfront & Hback).
  exists l1. split; [|done]. unfold opers.
  assert (Hsees : legacy_sees p (Num o v0 :: ts ++ [stop]) l1) by done.
  destruct (legacy_sees_advance p _ _ _ Hsees)
    as (t1 & l0 & Hs1 & Ht1 & Hsees1); [by destruct ts|].
  unfold bind at 1. rewrite (digit_number p o v0 t1 l0) by done.
  unfold bind at 1, put_accumulator. unfold bind, get.
  cbn [_lexer _lookahead _optimize _sym_table _id_queue accumulator logged
       warned errors advanced].
  destruct (_optimize p).
  - erewrite (opers_folding_chain chain ts _ v0 stop l1); [done|done| |done..].
    apply (Hsees1 p).
  - erewrite (opers_echoing_chain chain ts _ v0 stop l1); [done|done| |done..].
    apply (Hsees1 p).
Qed.


(** X27. Without [optimize], [opers] evaluates nothing: it writes the expression
    back piece by piece, the first number, then each operator and each
    number, every piece in a call of its own with [end=""].  [accumulator]
    is left holding the last number of the chain, not a value of the
    expression. *)
Theorem opers_echoes_expression (n : nat) (p : Legacy.Parser L) (o : nat) (v0 : Z)
    (chain : list (ascii * Z)) (ts : list Token) (stop : Token) (l' : L) :
  _optimize p = false →
  chain_tokens chain ts →
  Token_eq_str stop "+" = false →
  Token_eq_str stop "-" = false →
  (length chain < n)%nat →
  legacy_sees p (Num o v0 :: ts ++ [stop]) l' →
  opers n p =
    Done tt (mkParser l' stop false (_sym_table p) (_id_queue p)
               (Some (chain_last v0 chain))
               (logged p ++ echo (pretty v0) :: chain_echo chain)
               (warned p) (errors p)).
Proof.
  intros Hopt Hchain Hplus Hminus Hn Hsees.
  destruct (legacy_opers_sees chain ts p o v0 stop [] l' n Hsees)
    as (l1 & -> & Hemits); [done..|].
  inversion Hemits; subst. by rewrite Hopt.
Qed.

Lemma name_tokens_head ids ts :
  name_tokens ids ts → ∃ x rest, ts = id_token x :: rest.
Proof. destruct 1; eauto. Qed.

(** The loop of [lval_lst] on a list of names. *)
Lemma lval_lst_loop_names ids : ∀ ts (p : Legacy.Parser L) stop l' n,
  name_tokens ids ts →
  legacy_sees p (ts ++ [stop]) l' →
  Token_eq_str stop "," = false →
  (length ids ≤ n)%nat →
  lval_lst_loop n true p =
    Done true (mkParser l' stop (_optimize p) (_sym_table p)
                 (_id_queue p ++ map id_token ids)
                 (accumulator p) (logged p) (warned p) (errors p)).
Proof.
  induction ids as [|x ids IH]; intros ts p stop l' n Hnames Hsees Hcomma Hn;
    inversion Hnames as [? | ? comma ? ts' Hc Hnames']; subst;
    destruct n as [|n]; try (cbn in Hn; lia); cbn [lval_lst_loop].
  - cbn [app] in Hsees.
    destruct (legacy_sees_advance p _ _ _ Hsees) as (t2 & l1 & Hs1 & Ht2 & Hsees1);
      [done|]. cbn in Ht2. injection Ht2 as <-.
    destruct (legacy_sees_last _ _ _ (Hsees1 p)) as [_ Hl1]. cbn [_lexer advanced] in Hl1.
    subst l1.
    unfold bind at 1, lookahead at 1. rewrite (proj1 Hsees). unfold id_token.
    unfold bind at 1.
    rewrite (legacy_match_sees Tags.ID p stop l') by (by rewrite ?(proj1 Hsees)).
    unfold bind at 1, queue, put_id_queue. unfold bind, lookahead.
    cbn [_lexer _lookahead _optimize _sym_table _id_queue accumulator logged
         warned errors advanced map].
    by rewrite Hcomma.
  - cbn [app] in Hsees.
    destruct (legacy_sees_advance p _ _ _ Hsees) as (t2 & l1 & Hs1 & Ht2 & Hsees1);
      [done|]. cbn in Ht2. injection Ht2 as <-.
    destruct (name_tokens_head _ _ Hnames') as (y & rest & ->).
    destruct (legacy_sees_advance _ _ _ _ (Hsees1 p)) as (t3 & l2 & Hs2 & Ht3 & Hsees2);
      [done|]. cbn in Ht3. injection Ht3 as <-. cbn [_lexer advanced] in Hs2.
    unfold bind at 1, lookahead at 1. rewrite (proj1 Hsees). unfold id_token at 1.
    unfold bind at 1.
    rewrite (legacy_match_sees Tags.ID p comma l1) by (by rewrite ?(proj1 Hsees)).
    unfold bind at 1, queue, put_id_queue. unfold bind at 1, lookahead at 1.
    cbn [_lexer _lookahead _optimize _sym_table _id_queue accumulator logged
         warned errors advanced].
    rewrite (operator_eq_str comma "," ",") by done.
    cbn [Ascii.eqb Bool.eqb andb]. cbv iota.
    set (p1 := mkParser l1 comma _ _ _ _ _ _ _).
    unfold bind at 1.
    rewrite (legacy_match_sees (Tag_of_char ",") p1 (id_token y) l2) by done.
    unfold bind, lookahead.
    cbn [_lexer _lookahead _optimize _sym_table _id_queue accumulator logged
         warned errors advanced p1 id_token Token_tag].
    rewrite Tag_eq_refl.
    erewrite (IH _ _ stop l'); [| done | | done | cbn in Hn; lia].
    + cbn [_lexer _lookahead _optimize _sym_table _id_queue accumulator logged
           warned errors map advanced p1]. by rewrite <- app_assoc.
    + apply (Hsees2 p).
Qed.

(** The loop of [declr_or_rval_lst] on queued names that the scope does not
    hold. *)
Lemma declare_queued_names (o : nat) (ty : string) ids : ∀ (p : Legacy.Parser L) n,
  _id_queue p = map id_token ids →
  NoDup ids.*2 →
  (∀ name, name ∈ ids.*2 → table (_sym_table p) !! name = None) →
  (length ids < n)%nat →
  declare_queued n (Type_ o ty) p =
    Done tt (mkParser (_lexer p) (_lookahead p) (_optimize p)
               (declare_all ty ids.*2 (_sym_table p)) []
               (accumulator p) (logged p ++ map (declaration_line ty) ids.*2)
               (warned p) (errors p)).
Proof.
  induction ids as [|x ids IH]; intros p n Hq Hdup Hfresh Hn;
    destruct n as [|n]; try (cbn in Hn; lia); cbn [declare_queued];
    destruct p as [lx la opt st q acc lg wn er]; cbn in Hq; subst q;
    unfold bind at 1, queue_empty; cbn [_id_queue]; cbv iota.
  - unfold ret. cbn. rewrite app_nil_r. by destruct st.
  - unfold bind at 1, deque. cbn [_id_queue]. unfold bind at 1, put_id_queue.
    unfold ret at 1. unfold bind at 1, get. cbn [_sym_table Token_str id_token].
    cbn [_sym_table] in Hfresh.
    unfold insert_symbol. rewrite (Hfresh x.2) by (cbn; left).
    unfold bind at 1, put_sym_table. cbn [negb]. cbv iota.
    unfold bind at 1, log. 
    cbn [_lexer _lookahead _optimize _sym_table _id_queue accumulator logged
         warned errors].
    rewrite IH; cbn [_lexer _lookahead _optimize _sym_table _id_queue accumulator logged
         warned errors table previous].
    + unfold declare_all. cbn [fmap list_fmap foldl map table previous app].
      by rewrite <- app_assoc.
    + done.
    + by apply NoDup_cons in Hdup as [_ Hdup].
    + intros name Hname. apply NoDup_cons in Hdup as [Hx _].
      rewrite lookup_insert_ne; [apply Hfresh; by right|]. by intros <-.
    + cbn in Hn. lia.
Qed.

Lemma lval_lst_sees ids ts (p : Legacy.Parser L) stop rest l' n :
  name_tokens ids ts →
  legacy_sees p (ts ++ stop :: rest) l' →
  Token_eq_str stop "," = false →
  (length ids ≤ n)%nat →
  ∃ l1, lval_lst n p =
          Done true (mkParser l1 stop (_optimize p) (_sym_table p)
                       (_id_queue p ++ map id_token ids)
                       (accumulator p) (logged p) (warned p) (errors p)) ∧
        emits l1 rest l'.
Proof.
  intros Hnames Hsees Hcomma Hn.
  destruct (name_tokens_head _ _ Hnames) as (x & ts' & Hts).
  rewrite Hts in Hsees. cbn [app] in Hsees. destruct Hsees as [Hla Hemits].
  replace (ts' ++ stop :: rest) with ((ts' ++ [stop]) ++ rest) in Hemits
    by (by rewrite <- app_assoc).
  apply emits_app_inv in Hemits as (l1 & Hfront & Hback).
  exists l1. split; [|done].
  unfold lval_lst, bind, lookahead. rewrite Hla. cbn [id_token Token_tag].
  rewrite Tag_eq_refl.
  apply lval_lst_loop_names with (ts := ts); [done| |done..].
  rewrite Hts. by split.
Qed.

Lemma declare_all_lookup_other (ty : string) names : ∀ (t : gmap string Symbol) name,
  name ∉ names →
  foldl (λ t name, <[name := mkSymbol name ty]> t) t names !! name = t !! name.
Proof.
  induction names as [|x names IH]; intros t name Hname; cbn [foldl]; [done|].
  apply not_elem_of_cons in Hname as [Hx Hname].
  rewrite IH by done. by rewrite lookup_insert_ne.
Qed.

Lemma declare_all_lookup (ty : string) names : ∀ (t : gmap string Symbol) name,
  name ∈ names →
  foldl (λ t name, <[name := mkSymbol name ty]> t) t names !! name
    = Some (mkSymbol name ty).
Proof.
  induction names as [|x names IH]; intros t name Hname; cbn [foldl].
  - by apply elem_of_nil in Hname.
  - destruct (decide (name ∈ names)) as [Hin|Hout]; [by apply IH|].
    apply elem_of_cons in Hname as [-> | Hin]; [|done].
    rewrite declare_all_lookup_other by done. by rewrite lookup_insert_eq.
Qed.

(** X28. A declaration of several names at once, [a , b , c : type], met where
    the current scope holds none of them (and no name is listed twice):
    [expr] enters every name with the one type in the current scope, in the
    order written, writes the line [name : type] for each, and leaves the
    queue of names empty.  [find] then gives each of them. *)
Theorem declaration_list_declares_each (n : nat) (p : Legacy.Parser L)
    (colon next : Token) (o : nat) (ty : string) (ids : list (nat * string))
    (ts : list Token) (l' : L) :
  _id_queue p = [] →
  name_tokens ids ts →
  Token_tag colon = Tag_of_char ":" →
  NoDup ids.*2 →
  (∀ name, name ∈ ids.*2 → table (_sym_table p) !! name = None) →
  (length ids < n)%nat →
  legacy_sees p (ts ++ [colon; Type_ o ty; next]) l' →
  expr n p =
    Done true (mkParser l' next (_optimize p)
                 (declare_all ty ids.*2 (_sym_table p)) []
                 (accumulator p) (logged p ++ map (declaration_line ty) ids.*2)
                 (warned p) (errors p)) ∧
  ∀ name, name ∈ ids.*2 →
    find (declare_all ty ids.*2 (_sym_table p)) name = Some (mkSymbol name ty).
Proof.
  intros Hq Hnames Hcolon Hdup Hfresh Hn Hsees.
  split; [|intros name Hname; cbn; by rewrite declare_all_lookup].
  destruct (lval_lst_sees ids ts p colon [Type_ o ty; next] l' n Hnames Hsees)
    as (l1 & Hlval & Hemits);
    [by rewrite (operator_eq_str colon ":" ",")|lia|].
  inversion Hemits as [|? ? l2 ? ? Hs1 Hemits1]; subst.
  inversion Hemits1 as [|? ? l3 ? ? Hs2 Hemits2]; subst.
  inversion Hemits2; subst.
  unfold expr. unfold bind at 1. rewrite Hlval, Hq. cbn [app].
  set (p1 := mkParser l1 colon _ _ _ _ _ _ _).
  unfold bind at 1, declr_or_rval_lst. unfold bind at 1, lookahead at 1.
  cbn [_lookahead p1]. rewrite (operator_eq_str colon ":" ":") by done.
  cbn [Ascii.eqb Bool.eqb andb]. cbv iota.
  unfold bind at 1.
  rewrite (legacy_match_sees (Tag_of_char ":") p1 (Type_ o ty) l2) by done.
  unfold bind at 1, lookahead at 1. cbn [_lookahead advanced Token_tag].
  rewrite Tag_eq_refl. cbn [negb]. cbv iota.
  unfold bind at 1.
  rewrite (legacy_match_sees Tags.TYPE _ next l') by done.
  unfold bind at 1.
  rewrite (declare_queued_names o ty ids); [|done|done|done|done].
  unfold ret at 1. cbn [negb]. cbv iota. unfold bind, ret.
  by cbn [_lexer _lookahead _optimize _sym_table _id_queue accumulator logged
          warned errors advanced p1].
Qed.

Lemma last_assigned (vs : list Z) : ∀ a : option Z,
  foldl (λ _ v, Some v) a vs = match last vs with Some v => Some v | None => a end.
Proof.
  induction vs as [|v vs IH]; intros a; cbn [foldl]; [done|].
  rewrite IH, last_cons. by destruct (last vs).
Qed.

(** The loop of [rval_lst] over queued names, on as many plain numbers. *)
Lemma rval_lst_queued_numbers ids : ∀ nums (p : Legacy.Parser L) stop l' n,
  length ids = length nums →
  _id_queue p = map id_token ids →
  legacy_sees p (map num_token nums ++ [stop]) l' →
  Token_eq_str stop "+" = false →
  Token_eq_str stop "-" = false →
  (length ids < n)%nat →
  rval_lst_queued n p =
    Done true (mkParser l' stop (_optimize p) (_sym_table p) []
                 (foldl (λ _ v, Some v) (accumulator p) nums.*2)
                 (logged p ++ assignment_lines ids.*2 nums.*2)
                 (warned p) (errors p)).
Proof.
  induction ids as [|x ids IH]; intros nums p stop l' n Hlen Hq Hsees Hplus Hminus Hn;
    destruct nums as [|[o v] nums]; try discriminate Hlen;
    destruct n as [|n]; try (cbn in Hn; lia); cbn [rval_lst_queued];
    unfold bind at 1, deque; rewrite Hq; cbn [map].
  - destruct (legacy_sees_last _ _ _ Hsees) as [Hla Hlx].
    unfold ret. cbn. rewrite app_nil_r. destruct p; cbn in *. by subst.
  - cbn [map app] in Hsees. unfold num_token at 1 in Hsees. cbn [fst snd] in Hsees.
    assert (Hnext : ∃ stop' rest, map num_token nums ++ [stop] = [] ++ stop' :: rest ∧
              Token_eq_str stop' "+" = false ∧ Token_eq_str stop' "-" = false).
    { destruct nums as [|y nums]; cbn [map app]; eauto 6. }
    destruct Hnext as (stop' & rest & Hshape & Hplus' & Hminus').
    rewrite Hshape in Hsees.
    unfold bind at 1, put_id_queue. unfold ret at 1. unfold bind at 1, log at 1.
    cbn [_lexer _lookahead _optimize _sym_table _id_queue accumulator logged
         warned errors].
    set (p1 := mkParser _ _ _ _ _ _ _ _ _).
    destruct (legacy_opers_sees [] [] p1 o v stop' rest l' n)
      as (l1 & Hopers & Hemits); [split; apply Hsees|constructor|done|done
                                  |cbn in Hn |- *; lia|].
    unfold bind at 1. rewrite Hopers. unfold bind at 1, log at 1.
    cbn [_lexer _lookahead _optimize _sym_table _id_queue accumulator logged
         warned errors p1].
    erewrite (IH nums _ stop l'); [| | done | | done | done | cbn in Hn; lia].
    + cbn [_lexer _lookahead _optimize _sym_table _id_queue accumulator logged
           warned errors fmap list_fmap foldl].
      unfold assignment_lines. cbn [zip zip_with flat_map fst snd app].
      rewrite <- !app_assoc. cbn [app].
      by destruct (_optimize p).
    + cbn in Hlen. lia.
    + cbn [app] in Hshape. rewrite Hshape. by split.
Qed.

Lemma token_str_char (t : Token) (c : ascii) :
  Token_tag t = Tag_of_char c → Token_str t = String c EmptyString.
Proof.
  destruct t; cbn [Token_tag Token_str]; try discriminate; by intros ->.
Qed.

(** [digit] on anything but a sign or a number. *)
Lemma digit_rejects (p : Legacy.Parser L) (c : ascii) :
  Token_tag (_lookahead p) = Tag_of_char c →
  c ≠ "+"%char → c ≠ "-"%char →
  digit p =
    Raised (ParseError [])
      (mkParser (_lexer p) (_lookahead p) (_optimize p) (_sym_table p) (_id_queue p)
         (accumulator p) (logged p) (warned p)
         (errors p ++ [digit_expected (source_line (_lexer p)) (String c EmptyString)])).
Proof.
  intros Htag Hplus Hminus. unfold digit.
  unfold bind at 1, lookahead at 1.
  rewrite !(operator_eq_str _ c) by done.
  apply Ascii.eqb_neq in Hplus, Hminus. rewrite Hplus, Hminus.
  unfold bind at 1, ret at 1. unfold bind at 1, lookahead.
  rewrite Htag. rewrite Tag_eq_false
    by (cbn [Tag_value Tag_of_char Tags.NUM]; pose proof (ord_bounded c); lia).
  unfold bind at 1, line. unfold bind, log_error, raise.
  rewrite (token_str_char _ c) by done.
  by cbn [_lexer _lookahead _optimize _sym_table _id_queue accumulator logged
          warned errors].
Qed.

Lemma name_tokens_ids ids ts :
  name_tokens ids ts → ∃ x ids', ids = x :: ids'.
Proof. destruct 1; eauto. Qed.

(** [expr] up to the value list of an assignment: the names are queued and
    the parser stands on the first token behind [=]. *)
Lemma assignment_head ids ts (p : Legacy.Parser L) eq first rest l' n :
  _id_queue p = [] →
  name_tokens ids ts →
  Token_tag eq = Tag_of_char "=" →
  (length ids ≤ n)%nat →
  legacy_sees p (ts ++ eq :: first :: rest) l' →
  ∃ l1, emits l1 rest l' ∧
    expr n p =
      bind (bind (rval_lst n) (λ _, ret true))
        (λ declared,
           bind (if negb declared
                 then bind (clear_queue n) (λ _, standalone_warning)
                 else ret tt) (λ _, ret true))
        (mkParser l1 first (_optimize p) (_sym_table p) (map id_token ids)
           (accumulator p) (logged p) (warned p) (errors p)).
Proof.
  intros Hq Hnames Heq Hn Hsees.
  destruct (lval_lst_sees ids ts p eq (first :: rest) l' n Hnames Hsees)
    as (l0 & Hlval & Hemits); [by rewrite (operator_eq_str eq "=" ",")|done|].
  inversion Hemits as [|? ? l1 ? ? Hs1 Hemits1]; subst.
  exists l1. split; [done|].
  unfold expr. unfold bind at 1. rewrite Hlval, Hq. cbn [app].
  set (p1 := mkParser l0 eq _ _ _ _ _ _ _).
  unfold bind at 1, declr_or_rval_lst. unfold bind at 1, lookahead at 1.
  cbn [_lookahead p1]. rewrite !(operator_eq_str eq "=") by done.
  cbn [Ascii.eqb Bool.eqb andb]. cbv iota.
  unfold bind at 1.
  by rewrite (legacy_match_sees (Tag_of_char "=") p1 first l1).
Qed.

(** X29. An assignment to several names takes its values with nothing between
    them: [a , b = 1 2] gives [a] the first number and [b] the second.  For
    each name, in the order written, the parser writes [name=], the number
    and an empty line; it leaves the queue of names empty and the last
    number in [accumulator], whether it folds constants or not. *)
Theorem assignment_list_pairs_values (n : nat) (p : Legacy.Parser L)
    (eq stop : Token) (ids : list (nat * string)) (nums : list (nat * Z))
    (ts : list Token) (l' : L) :
  _id_queue p = [] →
  name_tokens ids ts →
  Token_tag eq = Tag_of_char "=" →
  length ids = length nums →
  Token_eq_str stop "+" = false →
  Token_eq_str stop "-" = false →
  (length ids < n)%nat →
  legacy_sees p (ts ++ eq :: map num_token nums ++ [stop]) l' →
  expr n p =
    Done true (mkParser l' stop (_optimize p) (_sym_table p) []
                 (last nums.*2)
                 (logged p ++ assignment_lines ids.*2 nums.*2)
                 (warned p) (errors p)).
Proof.
  intros Hq Hnames Heq Hlen Hplus Hminus Hn Hsees.
  destruct (name_tokens_ids _ _ Hnames) as (x & ids' & Hids).
  destruct nums as [|y nums]; [by rewrite Hids in Hlen|].
  cbn [map app] in Hsees.
  destruct (assignment_head ids ts p eq (num_token y) (map num_token nums ++ [stop]) l' n)
    as (l1 & Hemits & ->); [done|done|done|lia|done|].
  unfold bind at 1. unfold bind at 1, rval_lst. unfold bind at 1, queue_empty.
  cbn [_id_queue].
  replace (match map id_token ids with [] => true | _ :: _ => false end) with false
    by (by rewrite Hids).
  rewrite (rval_lst_queued_numbers ids (y :: nums) _ stop l'); [|done|done| |done..].
  - unfold ret at 1. cbn [negb]. cbv iota. unfold bind, ret.
    cbn [_lexer _lookahead _optimize _sym_table _id_queue accumulator logged
         warned errors].
    rewrite last_assigned. cbn [fmap list_fmap]. rewrite last_cons.
    by destruct (last _).
  - by split.
Qed.

(** X30. With commas between the values, as between the names, the assignment
    is refused: in [a , b = 1 , ...] the first name takes its number, and at
    the second name [digit] meets the comma, hands [log_error] its message
    with the line of the lexer and raises [ParseError] with no arguments.
    By then [a=], the number, an empty line and [b=] are written. *)
Theorem assignment_list_rejects_commas (n : nat) (p : Legacy.Parser L)
    (eq comma : Token) (x1 x2 : nat * string) (ids : list (nat * string))
    (o : nat) (v : Z) (ts : list Token) (l' : L) :
  _id_queue p = [] →
  name_tokens (x1 :: x2 :: ids) ts →
  Token_tag eq = Tag_of_char "=" →
  Token_tag comma = Tag_of_char "," →
  (length ids + 2 ≤ n)%nat →
  legacy_sees p (ts ++ [eq; Num o v; comma]) l' →
  expr n p =
    Raised (ParseError [])
      (mkParser l' comma (_optimize p) (_sym_table p) (map id_token ids)
         (Some v)
         (logged p ++ [echo (x1.2 +:+ "="); echo (pretty v);
                       mkLogCall "" None; echo (x2.2 +:+ "=")])
         (warned p)
         (errors p ++ [digit_expected (source_line l') ","])).
Proof.
  intros Hq Hnames Heq Hcomma Hn Hsees.
  destruct (assignment_head (x1 :: x2 :: ids) ts p eq (Num o v) [comma] l' n)
    as (l1 & Hemits & ->); [done|done|done|cbn; lia|done|].
  destruct n as [|[|n]]; try lia.
  unfold bind at 1. unfold bind at 1, rval_lst. unfold bind at 1, queue_empty.
  cbn [_id_queue map]. cbv iota.
  cbn [rval_lst_queued]. unfold bind at 1, deque. cbn [_id_queue].
  unfold bind at 1, put_id_queue. unfold ret at 1. unfold bind at 1, log at 1.
  cbn [_lexer _lookahead _optimize _sym_table _id_queue accumulator logged
       warned errors Token_str id_token].
  set (p1 := mkParser _ _ _ _ _ _ _ _ _).
  destruct (legacy_opers_sees [] [] p1 o v comma [] l' (S n))
    as (l2 & Hopers & Hemits2);
    [by split|constructor|by rewrite (operator_eq_str comma "," "+")
    |by rewrite (operator_eq_str comma "," "-")|cbn; lia|].
  inversion Hemits2; subst.
  unfold bind at 1. rewrite Hopers. unfold bind at 1, log at 1.
  cbn [_lexer _lookahead _optimize _sym_table _id_queue accumulator logged
       warned errors p1].
  unfold bind at 1, deque. cbn [_id_queue].
  unfold bind at 1, put_id_queue. unfold ret at 1. unfold bind at 1, log at 1.
  cbn [_lexer _lookahead _optimize _sym_table _id_queue accumulator logged
       warned errors Token_str id_token].
  unfold bind at 1, opers. unfold bind at 1.
  rewrite (digit_rejects _ ",") by done.
  cbn [_lexer _lookahead _optimize _sym_table _id_queue accumulator logged
       warned errors].
  rewrite <- !app_assoc. cbn [app].
  by destruct (_optimize p).
Qed.
End LegacyFacts.


Lemma opers_echoes_expression_witness :
  Legacy._optimize (legacy_on_tokens (Num 0 1)
               [char_token "+"; Num 0 2; char_token "-"; Num 0 5; char_token ";"] false)
    = false ∧
  chain_tokens [("+"%char, 2); ("-"%char, 5)]
    [char_token "+"; Num 0 2; char_token "-"; Num 0 5] ∧
  Token_eq_str (char_token ";") "+" = false ∧
  Token_eq_str (char_token ";") "-" = false ∧
  (length [("+"%char, 2); ("-"%char, 5)] < 3)%nat ∧
  legacy_sees (src := replay_source)
    (legacy_on_tokens (Num 0 1)
       [char_token "+"; Num 0 2; char_token "-"; Num 0 5; char_token ";"] false)
    (Num 0 1 :: [char_token "+"; Num 0 2; char_token "-"; Num 0 5] ++ [char_token ";"])
    [] ∧
  Legacy.opers (src := replay_source) 3
    (legacy_on_tokens (Num 0 1)
       [char_token "+"; Num 0 2; char_token "-"; Num 0 5; char_token ";"] false) =
    Legacy.Done tt
      (Legacy.mkParser [] (char_token ";") false
         (Legacy._sym_table (legacy_on_tokens (Num 0 1)
            [char_token "+"; Num 0 2; char_token "-"; Num 0 5; char_token ";"] false))
         (Legacy._id_queue (legacy_on_tokens (Num 0 1)
            [char_token "+"; Num 0 2; char_token "-"; Num 0 5; char_token ";"] false))
         (Some (chain_last 1 [("+"%char, 2); ("-"%char, 5)]))
         (Legacy.logged (legacy_on_tokens (Num 0 1)
            [char_token "+"; Num 0 2; char_token "-"; Num 0 5; char_token ";"] false)
          ++ echo (pretty 1) :: chain_echo [("+"%char, 2); ("-"%char, 5)])
         (Legacy.warned (legacy_on_tokens (Num 0 1)
            [char_token "+"; Num 0 2; char_token "-"; Num 0 5; char_token ";"] false))
         (Legacy.errors (legacy_on_tokens (Num 0 1)
            [char_token "+"; Num 0 2; char_token "-"; Num 0 5; char_token ";"] false))).
Proof.
  assert (Hchain : chain_tokens [("+"%char, 2); ("-"%char, 5)]
                     [char_token "+"; Num 0 2; char_token "-"; Num 0 5]).
  { constructor; [by left|reflexivity|]. constructor; [by right|reflexivity|].
    constructor. }
  assert (Hsees : legacy_sees (src := replay_source)
    (legacy_on_tokens (Num 0 1)
       [char_token "+"; Num 0 2; char_token "-"; Num 0 5; char_token ";"] false)
    (Num 0 1 :: [char_token "+"; Num 0 2; char_token "-"; Num 0 5] ++ [char_token ";"])
    []).
  { split; [reflexivity|]. repeat (eapply emits_cons; [reflexivity|]). apply emits_nil. }
  pose proof (opers_echoes_expression (src := replay_source) 3
                (legacy_on_tokens (Num 0 1)
                   [char_token "+"; Num 0 2; char_token "-"; Num 0 5; char_token ";"] false)
                0 1 [("+"%char, 2); ("-"%char, 5)]
                [char_token "+"; Num 0 2; char_token "-"; Num 0 5] (char_token ";") []
                eq_refl Hchain eq_refl eq_refl (le_n 3) Hsees) as Hopers.
  split_and!; [reflexivity|exact Hchain|reflexivity|reflexivity|cbn; lia|exact Hsees
              |exact Hopers].
Defined.

Lemma declaration_list_declares_each_witness :
  Legacy._id_queue
    (legacy_on_tokens (Id 0 "a")
       [char_token ","; Id 0 "b"; char_token ":"; Type_ 0 "int"; char_token ";"] true)
    = [] ∧
  name_tokens [(0%nat, "a"); (0%nat, "b")]
    [Id 0 "a"; char_token ","; Id 0 "b"] ∧
  Token_tag (char_token ":") = Tag_of_char ":" ∧
  NoDup [(0%nat, "a"); (0%nat, "b")].*2 ∧
  (∀ name, name ∈ [(0%nat, "a"); (0%nat, "b")].*2 →
     table (Legacy._sym_table
              (legacy_on_tokens (Id 0 "a")
                 [char_token ","; Id 0 "b"; char_token ":"; Type_ 0 "int";
                  char_token ";"] true)) !! name = None) ∧
  (length [(0%nat, "a"); (0%nat, "b")] < 3)%nat ∧
  legacy_sees (src := replay_source)
    (legacy_on_tokens (Id 0 "a")
       [char_token ","; Id 0 "b"; char_token ":"; Type_ 0 "int"; char_token ";"] true)
    ([Id 0 "a"; char_token ","; Id 0 "b"]
       ++ [char_token ":"; Type_ 0 "int"; char_token ";"]) [] ∧
  Legacy.expr (src := replay_source) 3
    (legacy_on_tokens (Id 0 "a")
       [char_token ","; Id 0 "b"; char_token ":"; Type_ 0 "int"; char_token ";"] true) =
    Legacy.Done true
      (Legacy.mkParser [] (char_token ";") true
         (declare_all "int" ["a"; "b"] (SymTable_init None)) []
         (Some 0)
         ([] ++ map (declaration_line "int") ["a"; "b"]) [] []) ∧
  ∀ name, name ∈ ["a"; "b"] →
    find (declare_all "int" ["a"; "b"] (SymTable_init None)) name
      = Some (mkSymbol name "int").
Proof.
  assert (Hnames : name_tokens [(0%nat, "a"); (0%nat, "b")]
                     [Id 0 "a"; char_token ","; Id 0 "b"]).
  { apply (name_more (0%nat, "a")); [reflexivity|]. apply (name_last (0%nat, "b")). }
  assert (Hdup : NoDup [(0%nat, "a"); (0%nat, "b")].*2).
  { apply NoDup_cons. split; [|apply NoDup_singleton].
    intros Hin. apply list_elem_of_singleton in Hin. discriminate Hin. }
  assert (Hfresh : ∀ name, name ∈ [(0%nat, "a"); (0%nat, "b")].*2 →
     table (Legacy._sym_table
              (legacy_on_tokens (Id 0 "a")
                 [char_token ","; Id 0 "b"; char_token ":"; Type_ 0 "int";
                  char_token ";"] true)) !! name = None).
  { intros name _. exact (lookup_empty name). }
  assert (Hsees : legacy_sees (src := replay_source)
    (legacy_on_tokens (Id 0 "a")
       [char_token ","; Id 0 "b"; char_token ":"; Type_ 0 "int"; char_token ";"] true)
    ([Id 0 "a"; char_token ","; Id 0 "b"]
       ++ [char_token ":"; Type_ 0 "int"; char_token ";"]) []).
  { split; [reflexivity|]. repeat (eapply emits_cons; [reflexivity|]). apply emits_nil. }
  pose proof (declaration_list_declares_each (src := replay_source) 3
                (legacy_on_tokens (Id 0 "a")
                   [char_token ","; Id 0 "b"; char_token ":"; Type_ 0 "int";
                    char_token ";"] true)
                (char_token ":") (char_token ";") 0 "int" [(0%nat, "a"); (0%nat, "b")]
                [Id 0 "a"; char_token ","; Id 0 "b"] []
                eq_refl Hnames eq_refl Hdup Hfresh (le_n 3) Hsees) as Hdecl.
  split_and!; [reflexivity|exact Hnames|reflexivity|exact Hdup|exact Hfresh|cbn; lia
              |exact Hsees|apply Hdecl|apply Hdecl].
Defined.

Lemma assignment_list_pairs_values_witness :
  Legacy._id_queue
    (legacy_on_tokens (Id 0 "a")
       [char_token ","; Id 0 "b"; char_token "="; Num 0 1; Num 0 2; char_token ";"] false)
    = [] ∧
  name_tokens [(0%nat, "a"); (0%nat, "b")]
    [Id 0 "a"; char_token ","; Id 0 "b"] ∧
  Token_tag (char_token "=") = Tag_of_char "=" ∧
  length [(0%nat, "a"); (0%nat, "b")] = length [(0%nat, 1); (0%nat, 2)] ∧
  Token_eq_str (char_token ";") "+" = false ∧
  Token_eq_str (char_token ";") "-" = false ∧
  (length [(0%nat, "a"); (0%nat, "b")] < 3)%nat ∧
  legacy_sees (src := replay_source)
    (legacy_on_tokens (Id 0 "a")
       [char_token ","; Id 0 "b"; char_token "="; Num 0 1; Num 0 2; char_token ";"] false)
    ([Id 0 "a"; char_token ","; Id 0 "b"]
       ++ char_token "=" :: map num_token [(0%nat, 1); (0%nat, 2)] ++ [char_token ";"])
    [] ∧
  Legacy.expr (src := replay_source) 3
    (legacy_on_tokens (Id 0 "a")
       [char_token ","; Id 0 "b"; char_token "="; Num 0 1; Num 0 2; char_token ";"] false) =
    Legacy.Done true
      (Legacy.mkParser [] (char_token ";") false (SymTable_init None) []
         (last [(0%nat, 1); (0%nat, 2)].*2)
         ([] ++ assignment_lines ["a"; "b"] [1; 2]) [] []).
Proof.
  assert (Hnames : name_tokens [(0%nat, "a"); (0%nat, "b")]
                     [Id 0 "a"; char_token ","; Id 0 "b"]).
  { apply (name_more (0%nat, "a")); [reflexivity|]. apply (name_last (0%nat, "b")). }
  assert (Hsees : legacy_sees (src := replay_source)
    (legacy_on_tokens (Id 0 "a")
       [char_token ","; Id 0 "b"; char_token "="; Num 0 1; Num 0 2; char_token ";"] false)
    ([Id 0 "a"; char_token ","; Id 0 "b"]
       ++ char_token "=" :: map num_token [(0%nat, 1); (0%nat, 2)] ++ [char_token ";"])
    []).
  { split; [reflexivity|]. repeat (eapply emits_cons; [reflexivity|]). apply emits_nil. }
  pose proof (assignment_list_pairs_values (src := replay_source) 3
                (legacy_on_tokens (Id 0 "a")
                   [char_token ","; Id 0 "b"; char_token "="; Num 0 1; Num 0 2;
                    char_token ";"] false)
                (char_token "=") (char_token ";") [(0%nat, "a"); (0%nat, "b")]
                [(0%nat, 1); (0%nat, 2)] [Id 0 "a"; char_token ","; Id 0 "b"] []
                eq_refl Hnames eq_refl eq_refl eq_refl eq_refl (le_n 3) Hsees) as Hexpr.
  split_and!; [reflexivity|exact Hnames|reflexivity|reflexivity|reflexivity|reflexivity
              |cbn; lia|exact Hsees|exact Hexpr].
Defined.

Lemma assignment_list_rejects_commas_witness :
  Legacy._id_queue
    (legacy_on_tokens (Id 0 "a")
       [char_token ","; Id 0 "b"; char_token "="; Num 0 1; char_token ","; Num 0 2;
        char_token ";"] false)
    = [] ∧
  name_tokens [(0%nat, "a"); (0%nat, "b")]
    [Id 0 "a"; char_token ","; Id 0 "b"] ∧
  Token_tag (char_token "=") = Tag_of_char "=" ∧
  Token_tag (char_token ",") = Tag_of_char "," ∧
  (length (@nil (nat * string)) + 2 ≤ 2)%nat ∧
  legacy_sees (src := replay_source)
    (legacy_on_tokens (Id 0 "a")
       [char_token ","; Id 0 "b"; char_token "="; Num 0 1; char_token ","; Num 0 2;
        char_token ";"] false)
    ([Id 0 "a"; char_token ","; Id 0 "b"] ++ [char_token "="; Num 0 1; char_token ","])
    [Num 0 2; char_token ";"] ∧
  Legacy.expr (src := replay_source) 2
    (legacy_on_tokens (Id 0 "a")
       [char_token ","; Id 0 "b"; char_token "="; Num 0 1; char_token ","; Num 0 2;
        char_token ";"] false) =
    Legacy.Raised (Legacy.ParseError [])
      (Legacy.mkParser [Num 0 2; char_token ";"] (char_token ",") false
         (SymTable_init None) (map id_token []) (Some 1)
         ([] ++ [echo ("a" +:+ "="); echo (pretty 1); Legacy.mkLogCall "" None;
                 echo ("b" +:+ "=")])
         []
         ([] ++ [digit_expected
                   (source_line (TokenSource := replay_source) [Num 0 2; char_token ";"])
                   ","])).
Proof.
  assert (Hnames : name_tokens [(0%nat, "a"); (0%nat, "b")]
                     [Id 0 "a"; char_token ","; Id 0 "b"]).
  { apply (name_more (0%nat, "a")); [reflexivity|]. apply (name_last (0%nat, "b")). }
  assert (Hsees : legacy_sees (src := replay_source)
    (legacy_on_tokens (Id 0 "a")
       [char_token ","; Id 0 "b"; char_token "="; Num 0 1; char_token ","; Num 0 2;
        char_token ";"] false)
    ([Id 0 "a"; char_token ","; Id 0 "b"] ++ [char_token "="; Num 0 1; char_token ","])
    [Num 0 2; char_token ";"]).
  { split; [reflexivity|]. repeat (eapply emits_cons; [reflexivity|]). apply emits_nil. }
  pose proof (assignment_list_rejects_commas (src := replay_source) 2
                (legacy_on_tokens (Id 0 "a")
                   [char_token ","; Id 0 "b"; char_token "="; Num 0 1; char_token ",";
                    Num 0 2; char_token ";"] false)
                (char_token "=") (char_token ",") (0%nat, "a") (0%nat, "b") [] 0 1
                [Id 0 "a"; char_token ","; Id 0 "b"] [Num 0 2; char_token ";"]
                eq_refl Hnames eq_refl eq_refl (le_n 2) Hsees) as Hexpr.
  split_and!; [reflexivity|exact Hnames|reflexivity|reflexivity|cbn; lia|exact Hsees
              |exact Hexpr].
Defined.

(** ** The translating parser: scopes *)

Section LegacyScope.
Import Legacy.
Context {L : Type} {src : TokenSource L}.

Lemma keeps_level_ret {A} (a : A) : keeps_level (@ret L A a).
Proof. done. Qed.

Lemma keeps_level_raise {A} e : keeps_level (@raise L A e).
Proof. done. Qed.

Lemma keeps_level_timeout {A} : keeps_level (@timeout L A).
Proof. done. Qed.


Lemma keeps_level_get : keeps_level (@get L).
Proof. done. Qed.

Lemma keeps_level_lookahead : keeps_level (@lookahead L).
Proof. done. Qed.

Lemma keeps_level_line : keeps_level (@line L src).
Proof. done. Qed.

Lemma keeps_level_match t : keeps_level (match_ (L := L) t).
Proof.
  intros p. unfold match_. destruct (Tag_eq _ _); [|done].
  by destruct (source_scan (_lexer p)) as [[tok l']|].
Qed.

Lemma keeps_level_log text e : keeps_level (@log L text e).
Proof. done. Qed.

Lemma keeps_level_warn message : keeps_level (@warn L message).
Proof. done. Qed.

Lemma keeps_level_log_error message : keeps_level (@log_error L message).
Proof. done. Qed.

Lemma keeps_level_put_accumulator v : keeps_level (@put_accumulator L v).
Proof. done. Qed.

Lemma keeps_level_read_accumulator : keeps_level (@read_accumulator L).
Proof. intros p. unfold read_accumulator. by destruct (accumulator p). Qed.

Lemma keeps_level_put_id_queue q : keeps_level (@put_id_queue L q).
Proof. done. Qed.

Lemma keeps_level_queue_empty : keeps_level (@queue_empty L).
Proof. done. Qed.

Lemma keeps_level_queue id : keeps_level (@queue L id).
Proof. done. Qed.

Lemma keeps_level_deque : keeps_level (@deque L).
Proof. intros p. unfold deque. by destruct (_id_queue p). Qed.

Create HintDb level.
Hint Resolve keeps_level_ret keeps_level_raise keeps_level_timeout keeps_level_get
  keeps_level_lookahead keeps_level_line keeps_level_match keeps_level_log
  keeps_level_warn keeps_level_log_error keeps_level_put_accumulator
  keeps_level_read_accumulator keeps_level_put_id_queue keeps_level_queue_empty
  keeps_level_queue keeps_level_deque : level.





















End LegacyScope.

Section BlockScope.
Context {L : Type} {src : TokenSource L}.

End BlockScope.

Section LegacyDeclarations.
Import Legacy.
Context {L : Type} {src : TokenSource L}.

(** The loop of [declr_or_rval_lst] at a queued name that the scope
    already holds. *)
Lemma declare_queued_held (n : nat) (t : Token) (o : nat) (name : string)
    (rest : list Token) (s : Symbol) (p : Legacy.Parser L) :
  _id_queue p = Id o name :: rest →
  table (_sym_table p) !! name = Some s →
  declare_queued (S n) t p =
    Raised (ParseError ["Erro na linha " +:+ pretty (source_line (_lexer p)) +:+ ":" +:+
                        " a variável '" +:+ name +:+
                        "' já foi declarada no escopo atual."])
      (mkParser (_lexer p) (_lookahead p) (_optimize p) (_sym_table p) rest
         (accumulator p) (logged p) (warned p) (errors p)).
Proof.
  destruct p as [lx la opt st q acc lg wn er]. cbn. intros -> Hheld.
  unfold bind, queue_empty, deque, put_id_queue, ret, get, put_sym_table, line,
    raise, insert_symbol. cbn. by rewrite Hheld.
Qed.

(** X32. The translating parser refuses a second declaration in the same
    scope: [name : type], met where the current scope already holds [name],
    makes [expr] raise the [ParseError] that names the variable and the
    line of the lexer; the scope is unchanged (the symbol entered first
    stays) and the queue of names is empty.  Only the current scope counts:
    a name held by an enclosing scope alone can be declared again. *)
Theorem redeclaration_is_refused (n : nat) (p : Legacy.Parser L)
    (colon next : Token) (o o' : nat) (name ty : string) (s : Symbol) (l' : L) :
  _id_queue p = [] →
  Token_tag colon = Tag_of_char ":" →
  table (_sym_table p) !! name = Some s →
  (1 ≤ n)%nat →
  legacy_sees p ([Id o name] ++ [colon; Type_ o' ty; next]) l' →
  expr n p =
    Raised (ParseError ["Erro na linha " +:+ pretty (source_line l') +:+ ":" +:+
                        " a variável '" +:+ name +:+
                        "' já foi declarada no escopo atual."])
      (mkParser l' next (_optimize p) (_sym_table p) []
         (accumulator p) (logged p) (warned p) (errors p)) ∧
  find (_sym_table p) name = Some s.
Proof.
  intros Hq Hcolon Hheld Hn Hsees.
  split; [|destruct (_sym_table p) as [t prev]; cbn in *; by rewrite Hheld].
  destruct (lval_lst_sees [(o, name)] [Id o name] p colon [Type_ o' ty; next] l' n)
    as (l1 & Hlval & Hemits);
    [apply (name_last (o, name))|done|by rewrite (operator_eq_str colon ":" ",")|done|].
  inversion Hemits as [|? ? l2 ? ? Hs1 Hemits1]; subst.
  inversion Hemits1 as [|? ? l3 ? ? Hs2 Hemits2]; subst.
  inversion Hemits2; subst.
  unfold expr. unfold bind at 1. rewrite Hlval, Hq. cbn [app map].
  set (p1 := mkParser l1 colon _ _ _ _ _ _ _).
  unfold bind at 1, declr_or_rval_lst. unfold bind at 1, lookahead at 1.
  cbn [_lookahead p1]. rewrite (operator_eq_str colon ":" ":") by done.
  cbn [Ascii.eqb Bool.eqb andb]. cbv iota.
  unfold bind at 1.
  rewrite (legacy_match_sees (Tag_of_char ":") p1 (Type_ o' ty) l2) by done.
  unfold bind at 1, lookahead at 1. cbn [_lookahead advanced Token_tag].
  rewrite Tag_eq_refl. cbn [negb]. cbv iota.
  unfold bind at 1.
  rewrite (legacy_match_sees Tags.TYPE _ next l') by done.
  unfold bind at 1.
  destruct n as [|n]; [lia|].
  by rewrite (declare_queued_held n _ o name [] s).
Qed.
End LegacyDeclarations.

(** [x : int] where [x] is declared. *)
Lemma redeclaration_is_refused_witness :
  Legacy._id_queue
    (advanced (Legacy.mkParser [] (end_marker 0) true scope_with_x [] (Some 0) [] [] [])
       [char_token ":"; Type_ 0 "int"; char_token ";"] (Id 0 "x")) = [] ∧
  Token_tag (char_token ":") = Tag_of_char ":" ∧
  table (Legacy._sym_table
           (advanced (Legacy.mkParser [] (end_marker 0) true scope_with_x [] (Some 0)
                        [] [] [])
              [char_token ":"; Type_ 0 "int"; char_token ";"] (Id 0 "x"))) !! "x"
    = Some (mkSymbol "x" "int") ∧
  (1 ≤ 1)%nat ∧
  legacy_sees (src := replay_source)
    (advanced (Legacy.mkParser [] (end_marker 0) true scope_with_x [] (Some 0) [] [] [])
       [char_token ":"; Type_ 0 "int"; char_token ";"] (Id 0 "x"))
    ([Id 0 "x"] ++ [char_token ":"; Type_ 0 "int"; char_token ";"]) [] ∧
  Legacy.expr (src := replay_source) 1
    (advanced (Legacy.mkParser [] (end_marker 0) true scope_with_x [] (Some 0) [] [] [])
       [char_token ":"; Type_ 0 "int"; char_token ";"] (Id 0 "x")) =
    Legacy.Raised
      (Legacy.ParseError
         ["Erro na linha " +:+ pretty (source_line (TokenSource := replay_source) []) +:+
          ":" +:+ " a variável '" +:+ "x" +:+ "' já foi declarada no escopo atual."])
      (Legacy.mkParser [] (char_token ";") true scope_with_x [] (Some 0) [] [] []) ∧
  find scope_with_x "x" = Some (mkSymbol "x" "int").
Proof.
  assert (Hsees : legacy_sees (src := replay_source)
    (advanced (Legacy.mkParser [] (end_marker 0) true scope_with_x [] (Some 0) [] [] [])
       [char_token ":"; Type_ 0 "int"; char_token ";"] (Id 0 "x"))
    ([Id 0 "x"] ++ [char_token ":"; Type_ 0 "int"; char_token ";"]) []).
  { split; [reflexivity|]. repeat (eapply emits_cons; [reflexivity|]). apply emits_nil. }
  pose proof (redeclaration_is_refused (src := replay_source) 1
                (advanced (Legacy.mkParser [] (end_marker 0) true scope_with_x []
                             (Some 0) [] [] [])
                   [char_token ":"; Type_ 0 "int"; char_token ";"] (Id 0 "x"))
                (char_token ":") (char_token ";") 0 0 "x" "int" (mkSymbol "x" "int") []
                eq_refl eq_refl eq_refl (le_n 1) Hsees) as Hexpr.
  split_and!; [reflexivity..|lia|exact Hsees|apply Hexpr|apply Hexpr].
Defined.



(** The AST parser through the lexer and [start], from the text [{]. *)
Example start_on_unclosed_block :
  let run := start (src := lexer_source 3) 3 (Parser_init (lex "{") 0) in
  failure run = Some (no_attribute "VAR") ∧
  final_scope run = Some (SymTable_init (Some (SymTable_init None))).
Proof. split; vm_compute; reflexivity. Qed.

